(** * OskarTrack: the detection-to-track-to-zone core

    A shallow embedding of [ai_models/detector.py] (class [SimpleTracker]),
    [ai_models/processor.py] (class [VideoProcessor]),
    [utils/helpers.py] ([validate_coordinates], [calculate_peak_hours]) and
    the counting loop of [database/crud.py] ([get_hourly_distribution]),
    with the properties the specification states about them and further
    properties of the code.

    Conventions of the embedding.
    - Python integers are [Z]; track ids and list indexes, which the code
      only ever produces by counting up from 0, are [nat].
    - A Python [dict] keeps its keys in insertion order and the tracker
      iterates over its dicts, so a dict is an association list:
      assignment to an existing key keeps the key's position, assignment
      to a new key appends, [del] of a missing key raises [KeyError].
    - Methods of [SimpleTracker] mutate [self] and may raise; they live in a
      state-and-exception monad whose outcome always carries the state that
      the statements executed so far have left behind.
    - Pixel coordinates are integers, so every floating-point value the code
      computes from them is determined by an exact integer or rational
      (see [dist2] and [xinters_at]); the embedding computes with these. *)

From Stdlib Require Import String.
From Stdlib Require Import List ZArith QArith Lia Bool Arith PeanoNat.
From Stdlib Require Import Permutation Sorted Reals Lra.
Import ListNotations.
Close Scope R_scope.
Close Scope Q_scope.

Set Implicit Arguments.

(** ** Python dictionaries with integer keys *)

Module Dict.

Section Ops.
Variable V : Type.

Definition t := list (nat * V).

Definition keys (d : t) : list nat := map fst d.
Definition values (d : t) : list V := map snd d.

(** [d[k]] *)
Fixpoint get (k : nat) (d : t) : option V :=
  match d with
  | [] => None
  | (k', v) :: d' => if Nat.eqb k k' then Some v else get k d'
  end.

(** [d[k] = v] *)
Fixpoint set (k : nat) (v : V) (d : t) : t :=
  match d with
  | [] => [(k, v)]
  | (k', v') :: d' =>
      if Nat.eqb k k' then (k, v) :: d' else (k', v') :: set k v d'
  end.

(** [del d[k]]; [None] stands for [KeyError] *)
Fixpoint del (k : nat) (d : t) : option t :=
  match d with
  | [] => None
  | (k', v') :: d' =>
      if Nat.eqb k k' then Some d'
      else match del k d' with
           | Some r => Some ((k', v') :: r)
           | None => None
           end
  end.
End Ops.

Arguments get {V} k d.
Arguments set {V} k v d.
Arguments del {V} k d.
Arguments keys {V} d.
Arguments values {V} d.

End Dict.

(** ** Exceptions and the method monad *)

Inductive exn : Type :=
| KeyError
| IndexError
| ValueError
| UnboundLocalError.

Inductive result (A : Type) : Type :=
| Val (a : A)
| Exc (e : exn).

Arguments Val {A} a.
Arguments Exc {A} e.

Definition centroid : Type := Z * Z.

(** A bounding box [(x, y, w, h)]. *)
Definition box : Type := Z * Z * Z * Z.

(** The fields of a [SimpleTracker] instance. *)
Record SimpleTracker : Type := mkTracker {
  next_object_id : nat;
  objects : Dict.t centroid;
  disappeared : Dict.t Z;
  max_disappeared : Z
}.

(** A method body: it runs on [self] and yields a value or an exception,
    together with [self] as it is at that moment. *)
Definition M (A : Type) : Type := SimpleTracker -> result A * SimpleTracker.

Definition ret {A} (a : A) : M A := fun s => (Val a, s).

Definition raise {A} (e : exn) : M A := fun s => (Exc e, s).

Definition bind {A B} (m : M A) (f : A -> M B) : M B :=
  fun s =>
    match m s with
    | (Val a, s') => f a s'
    | (Exc e, s') => (Exc e, s')
    end.

Declare Scope py_scope.
Delimit Scope py_scope with py.
Notation "x <- m ;; k" := (bind m (fun x => k))
  (at level 61, m at next level, right associativity) : py_scope.
Notation "m ;; k" := (bind m (fun _ => k))
  (at level 61, right associativity) : py_scope.
Local Open Scope py_scope.

Definition lift {A} (e : exn) (o : option A) : M A :=
  match o with
  | Some a => ret a
  | None => raise e
  end.

(** [for x in l: body(x)] *)
Fixpoint for_each {X} (l : list X) (body : X -> M unit) : M unit :=
  match l with
  | [] => ret tt
  | x :: l' => body x ;; for_each l' body
  end.

(** A [for] loop whose body also updates local variables [acc]. *)
Fixpoint for_fold {X Acc} (l : list X) (acc : Acc) (body : Acc -> X -> M Acc)
  : M Acc :=
  match l with
  | [] => ret acc
  | x :: l' => acc' <- body acc x ;; for_fold l' acc' body
  end.

(** Field reads and writes on [self]. *)
Definition read {A} (f : SimpleTracker -> A) : M A := fun s => (Val (f s), s).

Definition set_next (n : nat) : M unit :=
  fun s => (Val tt, mkTracker n (objects s) (disappeared s) (max_disappeared s)).

Definition put_objects (o : Dict.t centroid) : M unit :=
  fun s => (Val tt,
            mkTracker (next_object_id s) o (disappeared s) (max_disappeared s)).

Definition put_disappeared (d : Dict.t Z) : M unit :=
  fun s => (Val tt,
            mkTracker (next_object_id s) (objects s) d (max_disappeared s)).

(** [self.objects[k] = c] *)
Definition set_object (k : nat) (c : centroid) : M unit :=
  o <- read objects ;; put_objects (Dict.set k c o).

(** [self.disappeared[k] = v] *)
Definition set_disappeared (k : nat) (v : Z) : M unit :=
  d <- read disappeared ;; put_disappeared (Dict.set k v d).

(** [self.disappeared[k]] *)
Definition get_disappeared (k : nat) : M Z :=
  d <- read disappeared ;; lift KeyError (Dict.get k d).

(** [del self.objects[k]] *)
Definition del_object (k : nat) : M unit :=
  o <- read objects ;; o' <- lift KeyError (Dict.del k o) ;; put_objects o'.

(** [del self.disappeared[k]] *)
Definition del_disappeared (k : nat) : M unit :=
  d <- read disappeared ;; d' <- lift KeyError (Dict.del k d) ;;
  put_disappeared d'.

(** ** Distances

    [dist.cdist] yields the Euclidean distance [sqrt (dx^2 + dy^2)] as a
    double.  On integer pixel coordinates the radicand is an exact integer
    and the correctly rounded square root is strictly monotone on it, so
    every comparison the tracker makes between two distances, and the
    comparison [D[row, col] > 50], is decided by the squared distances:
    [sqrt a < sqrt b] iff [a < b], and [sqrt a > 50] iff [a > 2500].  The
    matrix [D] of the embedding holds the squared distances. *)

Definition dist2 (p q : centroid) : Z :=
  ((fst p - fst q) * (fst p - fst q) + (snd p - snd q) * (snd p - snd q))%Z.

(** [dist.cdist(np.array(object_centroids), np.array(input_centroids))] *)
Definition cdist (ocs ics : list centroid) : list (list Z) :=
  map (fun o => map (dist2 o) ics) ocs.

(** Smallest entry of a row and the first index where it occurs
    ([ndarray.min] and [ndarray.argmin] along axis 1).  The tracker calls
    them only on rows with at least one column. *)
Definition row_min (r : list Z) : Z :=
  match r with
  | [] => 0%Z
  | x :: r' => fold_left Z.min r' x
  end.

Fixpoint index_of (v : Z) (r : list Z) : nat :=
  match r with
  | [] => 0
  | x :: r' => if Z.eqb x v then 0 else S (index_of v r')
  end.

Definition row_argmin (r : list Z) : nat := index_of (row_min r) r.

(** [a[rows]] for an array [a] and an array of indexes [rows]; [None]
    stands for [IndexError]. *)
Fixpoint take {X} (a : list X) (rows : list nat) : option (list X) :=
  match rows with
  | [] => Some []
  | r :: rows' =>
      match nth_error a r, take a rows' with
      | Some x, Some xs => Some (x :: xs)
      | _, _ => None
      end
  end.

(** Membership in a Python [set] of indexes. *)
Definition mem (i : nat) (s : list nat) : bool := existsb (Nat.eqb i) s.

(** The indexes [set(range(0, n)).difference(used)] holds, ascending. *)
Definition range_minus (n : nat) (used : list nat) : list nat :=
  filter (fun i => negb (mem i used)) (seq 0 n).

(** ** What the tracker takes from NumPy and from the Python runtime

    Two orders are not fixed by the tracker's own code:
    - [argsort ks], the order in which [ndarray.argsort] lists the indexes
      of [ks]; NumPy's default sort guarantees ascending keys, not the
      order of equal keys;
    - [range_diff n used], the order in which iterating over
      [set(range(0, n)).difference(used)] yields its elements; Python
      leaves the iteration order of a set to the implementation. *)

Record runtime : Type := mkRuntime {
  argsort : list Z -> list nat;
  range_diff : nat -> list nat -> list nat
}.

(** ** SimpleTracker *)

Module Tracker.

(** [SimpleTracker(max_disappeared)] *)
Definition init (maxd : Z) : SimpleTracker := mkTracker 0 [] [] maxd.

(** [SimpleTracker()] *)
Definition init_default : SimpleTracker := init 30.

Definition register (c : centroid) : M unit :=
  n <- read next_object_id ;; set_object n c ;;
  n <- read next_object_id ;; set_disappeared n 0%Z ;;
  n <- read next_object_id ;; set_next (n + 1).

Definition deregister (object_id : nat) : M unit :=
  del_object object_id ;; del_disappeared object_id.

(** The statements
    [self.disappeared[object_id] += 1]
    [if self.disappeared[object_id] > self.max_disappeared:]
    [    self.deregister(object_id)]
    which both the no-detection branch and the unused-rows loop run. *)
Definition mark_disappeared (object_id : nat) : M unit :=
  d <- get_disappeared object_id ;;
  set_disappeared object_id (d + 1)%Z ;;
  d' <- get_disappeared object_id ;;
  maxd <- read max_disappeared ;;
  if (d' >? maxd)%Z then deregister object_id else ret tt.

(** [cx = int(x + w / 2.0)]: [x + w / 2.0] is the exact half-integer
    [(2x + w) / 2] and [int] truncates towards zero. *)
Definition centroid_of (b : box) : centroid :=
  match b with
  | (x, y, w, h) => (Z.quot (2 * x + w) 2, Z.quot (2 * y + h) 2)
  end.

(** The body of [for (row, col) in zip(rows, cols)], with the local sets
    [used_rows] and [used_cols] as [acc]. *)
Definition match_pair (D : list (list Z)) (object_ids : list nat)
    (input_centroids : list centroid)
    (acc : list nat * list nat) (rc : nat * nat) : M (list nat * list nat) :=
  let '(used_rows, used_cols) := acc in
  let '(row, col) := rc in
  if mem row used_rows || mem col used_cols then ret acc
  else
    d <- lift IndexError
           (match nth_error D row with
            | Some r => nth_error r col
            | None => None
            end) ;;
    if (d >? 2500)%Z then ret acc
    else
      object_id <- lift IndexError (nth_error object_ids row) ;;
      c <- lift IndexError (nth_error input_centroids col) ;;
      set_object object_id c ;;
      set_disappeared object_id 0%Z ;;
      ret (used_rows ++ [row], used_cols ++ [col]).

Section Update.
Variable rt : runtime.

Definition update (detections : list box) : M (Dict.t centroid) :=
  match detections with
  | [] =>
      d <- read disappeared ;;
      for_each (Dict.keys d) mark_disappeared ;;
      read objects
  | _ :: _ =>
      let input_centroids := map centroid_of detections in
      o <- read objects ;;
      match o with
      | [] => for_each input_centroids register
      | _ :: _ =>
          let object_ids := Dict.keys o in
          let object_centroids := Dict.values o in
          let D := cdist object_centroids input_centroids in
          let rows := argsort rt (map row_min D) in
          cols <- lift IndexError (take (map row_argmin D) rows) ;;
          used <- for_fold (combine rows cols) ([], [])
                    (match_pair D object_ids input_centroids) ;;
          let '(used_rows, used_cols) := used in
          for_each (range_diff rt (length D) used_rows)
            (fun row =>
               object_id <- lift IndexError (nth_error object_ids row) ;;
               mark_disappeared object_id) ;;
          for_each (range_diff rt (length input_centroids) used_cols)
            (fun col =>
               c <- lift IndexError (nth_error input_centroids col) ;;
               register c)
      end ;;
      read objects
  end.
End Update.

End Tracker.

(** ** The runtime the repository runs on

    *** CPython's [set]

    An open-addressing hash table of [mask + 1] slots, a power of two.  The
    probe sequence of a key starts at [hash & mask], looks at up to
    [LINEAR_PROBES = 9] further consecutive slots and then jumps with
    [i = (i * 5 + 1 + perturb) & mask], [perturb >>= 5].  Iteration walks
    the table from slot 0 upwards.  ([Objects/setobject.c]) *)

Module CPythonSet.

Inductive entry : Type :=
| Unused
| Dummy
| Active (key : nat).

Record pyset : Type := mkSet {
  table : list entry;
  fill : nat;     (* active + dummy slots *)
  used : nat      (* active slots *)
}.

Definition mask (so : pyset) : N := N.of_nat (length (table so)) - 1.

(** [hash(k)] of a non-negative [int] *)
Definition hash (k : nat) : N := (N.of_nat k mod (2 ^ 61 - 1))%N.

Definition empty_set : pyset := mkSet (repeat Unused 8) 0 0.

Fixpoint write (i : nat) (e : entry) (tbl : list entry) : list entry :=
  match tbl, i with
  | [], _ => []
  | _ :: tbl', 0 => e :: tbl'
  | x :: tbl', S i' => x :: write i' e tbl'
  end.

Inductive slot : Type :=
| FoundUnused (i : nat) (freeslot : option nat)
| FoundActive (i : nat).

(** The inner [do ... while (probes--)] of [set_add_entry]: it looks at
    [cnt] consecutive slots from [i] on. *)
Fixpoint linear (tbl : list entry) (key : nat) (i cnt : nat)
    (freeslot : option nat) : slot + option nat :=
  match cnt with
  | 0 => inr freeslot
  | S cnt' =>
      match nth i tbl Unused with
      | Unused => inl (FoundUnused i freeslot)
      | Active k =>
          if Nat.eqb k key then inl (FoundActive i)
          else linear tbl key (S i) cnt' freeslot
      | Dummy => linear tbl key (S i) cnt' (Some i)
      end
  end.

(** The outer [while (1)] of [set_add_entry]; [fuel] bounds the number of
    jumps. *)
Fixpoint probe (fuel : nat) (tbl : list entry) (key : nat) (msk i perturb : N)
    (freeslot : option nat) : option slot :=
  match fuel with
  | 0 => None
  | S fuel' =>
      let cnt := if (i + 9 <=? msk)%N then 10 else 1 in
      match linear tbl key (N.to_nat i) cnt freeslot with
      | inl s => Some s
      | inr fs =>
          let perturb' := N.shiftr perturb 5 in
          probe fuel' tbl key msk (N.land (i * 5 + 1 + perturb') msk)
            perturb' fs
      end
  end.

Definition find (so : pyset) (key : nat) : option slot :=
  probe (length (table so) + 16) (table so) key (mask so)
    (N.land (hash key) (mask so)) (hash key) None.

(** [set_insert_clean]: the first empty slot on the probe sequence of a
    table without dummies and without the key. *)
Fixpoint clean_linear (tbl : list entry) (i cnt : nat) : option nat :=
  match cnt with
  | 0 => None
  | S cnt' =>
      match nth i tbl Unused with
      | Unused => Some i
      | _ => clean_linear tbl (S i) cnt'
      end
  end.

Fixpoint clean_probe (fuel : nat) (tbl : list entry) (msk i perturb : N)
  : option nat :=
  match fuel with
  | 0 => None
  | S fuel' =>
      let cnt := if (i + 9 <=? msk)%N then 10 else 1 in
      match clean_linear tbl (N.to_nat i) cnt with
      | Some j => Some j
      | None =>
          let perturb' := N.shiftr perturb 5 in
          clean_probe fuel' tbl msk (N.land (i * 5 + 1 + perturb') msk)
            perturb'
      end
  end.

Definition insert_clean (tbl : list entry) (key : nat)
  : option (list entry) :=
  let msk := (N.of_nat (length tbl) - 1)%N in
  match clean_probe (length tbl + 16) tbl msk (N.land (hash key) msk)
          (hash key) with
  | Some j => Some (write j (Active key) tbl)
  | None => None
  end.

Definition active_keys (tbl : list entry) : list nat :=
  flat_map (fun e => match e with Active k => [k] | _ => [] end) tbl.

(** [for key in so]: slot order *)
Definition iterate (so : pyset) : list nat := active_keys (table so).

Fixpoint insert_all_clean (ks : list nat) (tbl : list entry)
  : option (list entry) :=
  match ks with
  | [] => Some tbl
  | k :: ks' =>
      match insert_clean tbl k with
      | Some tbl' => insert_all_clean ks' tbl'
      | None => None
      end
  end.

(** The table size [set_table_resize(minused)] chooses: the least power of
    two above [minused], at least 8. *)
Fixpoint grow (fuel newsize minused : nat) : nat :=
  match fuel with
  | 0 => newsize
  | S fuel' =>
      if newsize <=? minused then grow fuel' (2 * newsize) minused
      else newsize
  end.

Definition table_resize (so : pyset) (minused : nat) : option pyset :=
  let newsize := grow (S minused) 8 minused in
  match insert_all_clean (iterate so) (repeat Unused newsize) with
  | Some tbl => Some (mkSet tbl (used so) (used so))
  | None => None
  end.

Definition resize_target (u : nat) : nat :=
  if (50000 <? N.of_nat u)%N then u * 2 else u * 4.

(** [set_add_entry] *)
Definition add (so : pyset) (key : nat) : option pyset :=
  match find so key with
  | None => None
  | Some (FoundActive _) => Some so
  | Some (FoundUnused _ (Some j)) =>
      Some (mkSet (write j (Active key) (table so)) (fill so) (S (used so)))
  | Some (FoundUnused i None) =>
      let so' :=
        mkSet (write i (Active key) (table so)) (S (fill so)) (S (used so)) in
      if (N.of_nat (fill so') * 5 <? mask so' * 3)%N then Some so'
      else table_resize so' (resize_target (used so'))
  end.

Fixpoint add_all (ks : list nat) (so : pyset) : option pyset :=
  match ks with
  | [] => Some so
  | k :: ks' =>
      match add so k with
      | Some so' => add_all ks' so'
      | None => None
      end
  end.

(** [set(range(0, n))] *)
Definition of_range (n : nat) : option pyset := add_all (seq 0 n) empty_set.

(** [set_discard_entry]; [set_lookkey] follows the probe sequence of
    [set_add_entry]. *)
Definition discard (so : pyset) (key : nat) : option pyset :=
  match find so key with
  | None => None
  | Some (FoundActive i) =>
      Some (mkSet (write i Dummy (table so)) (fill so) (used so - 1))
  | Some (FoundUnused _ _) => Some so
  end.

Fixpoint discard_all (ks : list nat) (so : pyset) : option pyset :=
  match ks with
  | [] => Some so
  | k :: ks' =>
      match discard so k with
      | Some so' => discard_all ks' so'
      | None => None
      end
  end.

(** [set_copy]: [set_merge] of [so] into a new empty set *)
Definition copy (so : pyset) : option pyset :=
  if used so =? 0 then Some empty_set
  else
    let fresh :=
      if (N.of_nat (used so) * 5 <? 7 * 3)%N then Some empty_set
      else table_resize empty_set (used so * 2) in
    match fresh with
    | None => None
    | Some new =>
        if (length (table new) =? length (table so)) && (fill so =? used so)
        then Some (mkSet (table so) (fill so) (used so))
        else
          match insert_all_clean (iterate so) (table new) with
          | Some tbl => Some (mkSet tbl (used so) (used so))
          | None => None
          end
    end.

(** [so.difference(other)] for a set [other], given by its elements *)
Definition difference (so : pyset) (other : list nat) : option pyset :=
  let other := nodup Nat.eq_dec other in
  if length other <? Nat.div (used so) 4 then
    (* set_copy_and_difference *)
    match copy so with
    | None => None
    | Some r =>
        match discard_all other r with
        | None => None
        | Some r' =>
            if (N.of_nat (fill r' - used r') <=? N.div (mask r') 4)%N
            then Some r'
            else table_resize r' (resize_target (used r'))
        end
    end
  else
    add_all (filter (fun k => negb (existsb (Nat.eqb k) other)) (iterate so))
      empty_set.

(** Iterating over [set(range(0, n)).difference(used)].  The probe
    sequence of CPython reaches every slot of a table that has a free one;
    the bound on the jumps in [probe] is there to make the functions
    structural, and the ascending order stands in where it would be hit. *)
Definition range_diff (n : nat) (used : list nat) : list nat :=
  match of_range n with
  | None => range_minus n used
  | Some so =>
      match difference so used with
      | Some r => iterate r
      | None => range_minus n used
      end
  end.

End CPythonSet.

(** *** NumPy's [argsort]

    The default kind sorts arrays of at most 16 elements by insertion,
    which keeps equal keys in index order. *)

Module NumPy.

Fixpoint insert_by (ks : list Z) (i : nat) (sorted : list nat) : list nat :=
  match sorted with
  | [] => [i]
  | j :: rest =>
      if (nth i ks 0 <? nth j ks 0)%Z then i :: j :: rest
      else j :: insert_by ks i rest
  end.

Definition argsort (ks : list Z) : list nat :=
  fold_left (fun acc i => insert_by ks i acc) (seq 0 (length ks)) [].

End NumPy.

Definition cpython : runtime := mkRuntime NumPy.argsort CPythonSet.range_diff.

(** A runtime whose sets iterate in ascending order. *)
Definition ascending : runtime := mkRuntime NumPy.argsort range_minus.

(** ** Code that computes a value and may raise *)

Definition rbind {A B} (r : result A) (f : A -> result B) : result B :=
  match r with
  | Val a => f a
  | Exc e => Exc e
  end.

(** A [for] loop over [l] that updates local variables [s]. *)
Fixpoint rfold {X S} (f : S -> X -> result S) (l : list X) (s : S)
  : result S :=
  match l with
  | [] => Val s
  | x :: l' => rbind (f s x) (rfold f l')
  end.

(** ** helpers.validate_coordinates

    A vertex is a Python list of integers, as the zone endpoint types it
    ([List[List[int]]]); its [isinstance(x, (int, float))] test holds of
    every integer. *)

Definition vertex : Type := list Z.
Definition polygon : Type := list vertex.

Definition validate_coordinates (coords : polygon) : bool :=
  if (length coords =? 0) || (length coords <? 3) then false
  else forallb (fun point => (length point =? 2) && forallb (fun _ => true) point)
         coords.

(** ** VideoProcessor *)

Module VideoProcessor.

(** A zone as [load_zones] receives it: a dict with the keys ['id'],
    ['name'] and ['coordinates']. *)
Record zone : Type := mkZone {
  zone_id : Z;
  zone_name : string;
  coordinates : polygon
}.

(** The fields of a [VideoProcessor] instance; the detector is the
    parameter [detect] below. *)
Record processor : Type := mkProcessor {
  tracker : SimpleTracker;
  zones : list zone
}.

(** [VideoProcessor()] *)
Definition init : processor := mkProcessor (Tracker.init 50) [].

Definition load_zones (zs : list zone) (p : processor)
  : result unit * processor :=
  (Val tt, mkProcessor (tracker p) zs).

(** [a, b = v] *)
Definition unpack2 (v : vertex) : result (Z * Z) :=
  match v with
  | [a; b] => Val (a, b)
  | _ => Exc ValueError
  end.

(** [(y - p1y) * (p2x - p1x) / (p2y - p1y) + p1x].  The code computes it
    in doubles from integers; for pixel coordinates the comparison of an
    integer [x] with the double agrees with the comparison with this
    rational. *)
Definition xinters_at (y p1x p1y p2x p2y : Z) : Q :=
  (inject_Z ((y - p1y) * (p2x - p1x)) / inject_Z (p2y - p1y)
   + inject_Z p1x)%Q.

(** The local variables of [point_in_polygon] that change in its loop;
    [xinters] is unbound until its first assignment. *)
Record ray : Type := mkRay {
  inside : bool;
  p1 : Z * Z;
  xinters : option Q
}.

(** The body of [for i in range(n + 1)], after [p2x, p2y = polygon[i % n]]. *)
Definition edge_step (x y : Z) (st : ray) (p2 : Z * Z) : result ray :=
  let '(p1x, p1y) := p1 st in
  let '(p2x, p2y) := p2 in
  if (y >? Z.min p1y p2y)%Z then
    if (y <=? Z.max p1y p2y)%Z then
      if (x <=? Z.max p1x p2x)%Z then
        let xi :=
          if negb (p1y =? p2y)%Z then Some (xinters_at y p1x p1y p2x p2y)
          else xinters st in
        if (p1x =? p2x)%Z then Val (mkRay (negb (inside st)) p2 xi)
        else
          match xi with
          | None => Exc UnboundLocalError
          | Some q =>
              if Qle_bool (inject_Z x) q
              then Val (mkRay (negb (inside st)) p2 xi)
              else Val (mkRay (inside st) p2 xi)
          end
      else Val (mkRay (inside st) p2 (xinters st))
    else Val (mkRay (inside st) p2 (xinters st))
  else Val (mkRay (inside st) p2 (xinters st)).

(** [polygon[i]] followed by the unpacking of the vertex *)
Definition vertex_at (poly : polygon) (i : nat) : result (Z * Z) :=
  match nth_error poly i with
  | Some v => unpack2 v
  | None => Exc IndexError
  end.

Definition point_in_polygon (point : Z * Z) (poly : polygon) : result bool :=
  let '(x, y) := point in
  let n := length poly in
  rbind (vertex_at poly 0) (fun first =>
  rbind (rfold (fun st i =>
                  rbind (vertex_at poly (i mod n)) (edge_step x y st))
           (seq 0 (n + 1)) (mkRay false first None))
    (fun st => Val (inside st))).

(** [None] of the embedding is Python's [None]: no zone holds the point. *)
Fixpoint detect_zone (zs : list zone) (c : centroid) : result (option Z) :=
  match zs with
  | [] => Val None
  | z :: rest =>
      rbind (point_in_polygon c (coordinates z)) (fun hit =>
      if hit then Val (Some (zone_id z)) else detect_zone rest c)
  end.

(** What [process_frame] returns, without the annotated image.  The entry
    ['tracked_objects'] is the tracker's own [objects] dict, not a copy:
    it is read through the processor, see [tracked_objects]. *)
Record frame_result : Type := mkResult {
  detections : list box;
  zone_analysis : Dict.t (centroid * option Z);
  person_count : nat
}.

Definition tracked_objects (p : processor) (r : frame_result)
  : Dict.t centroid :=
  objects (tracker p).

(** [for object_id, centroid in tracked_objects.items()] *)
Definition analyse (zs : list zone) (tracked : Dict.t centroid)
  : result (Dict.t (centroid * option Z)) :=
  rfold (fun acc item =>
           rbind (detect_zone zs (snd item)) (fun zid =>
           Val (Dict.set (fst item) (snd item, zid) acc)))
    tracked [].

Section Pipeline.
Variable rt : runtime.

(** The images and the injected detector. *)
Variable frame : Type.
Variable detect : frame -> list box.

(** The drawing on the annotated frame is left out; it reads the zones and
    the tracked objects and changes neither. *)
Definition process_frame (f : frame) (p : processor)
  : result frame_result * processor :=
  let dets := detect f in
  match Tracker.update rt dets (tracker p) with
  | (Exc e, t') => (Exc e, mkProcessor t' (zones p))
  | (Val tracked, t') =>
      let p' := mkProcessor t' (zones p) in
      match analyse (zones p) tracked with
      | Exc e => (Exc e, p')
      | Val za => (Val (mkResult dets za (length tracked)), p')
      end
  end.

(** The [while True] loop of [process_video]; [frames] are the images
    [cap.read()] delivers before it reports the end.  With a [callback],
    [calls] records the frame counts it is called with. *)
Fixpoint video_loop (callback : bool) (frames : list frame)
    (frame_count : nat) (results : list frame_result) (calls : list nat)
    (p : processor)
  : result (list frame_result * list nat) * processor :=
  match frames with
  | [] => (Val (results, calls), p)
  | f :: rest =>
      if frame_count mod 5 =? 0 then
        match process_frame f p with
        | (Exc e, p') => (Exc e, p')
        | (Val r, p') =>
            video_loop callback rest (frame_count + 1) (results ++ [r])
              (if callback then calls ++ [frame_count] else calls) p'
        end
      else video_loop callback rest (frame_count + 1) results calls p
  end.

(** [video] is [None] when the capture cannot be opened. *)
Definition process_video (video : option (list frame)) (callback : bool)
    (p : processor)
  : result (list frame_result * list nat) * processor :=
  match video with
  | None => (Exc ValueError, p)
  | Some frames => video_loop callback frames 0 [] [] p
  end.
End Pipeline.

End VideoProcessor.

(** ** helpers.calculate_peak_hours

    [hourly_data] is a dict from hours to counts; the function sees it
    through [items()], the (hour, count) pairs in insertion order.  It
    does not look at the hours, so they are of any type [K]. *)

Module Helpers.

Section PeakHours.
Variable K : Type.

(** [sorted(items, key=lambda x: x[1], reverse=True)].  Python's sort is
    stable, with [reverse=True] as well: items with equal counts stay in
    the order they had.  [insert_desc x l] puts [x], which came before the
    items of [l], in front of the first item whose count is not greater. *)
Fixpoint insert_desc (x : K * Z) (l : list (K * Z)) : list (K * Z) :=
  match l with
  | [] => [x]
  | y :: l' => if (snd x <? snd y)%Z then y :: insert_desc x l' else x :: l
  end.

Definition sorted_desc (items : list (K * Z)) : list (K * Z) :=
  fold_right insert_desc [] items.

(** [[hour for hour, count in sorted_hours[:3]]] *)
Definition calculate_peak_hours (hourly_data : list (K * Z)) : list K :=
  map fst (firstn 3 (sorted_desc hourly_data)).
End PeakHours.

End Helpers.

(** ** crud.get_hourly_distribution

    The function after its query: [hours] lists [visit.entry_time.hour]
    for the visits that [get_visits_by_date] returns, in that order. *)

Module Crud.

(** [hourly_data[hour] += 1] *)
Definition increment (hour : nat) (hourly_data : Dict.t Z)
  : result (Dict.t Z) :=
  match Dict.get hour hourly_data with
  | Some count => Val (Dict.set hour (count + 1)%Z hourly_data)
  | None => Exc KeyError
  end.

Definition get_hourly_distribution (hours : list nat) : result (Dict.t Z) :=
  rfold (fun hourly_data hour => increment hour hourly_data) hours
    (map (fun hour => (hour, 0%Z)) (seq 0 24)).

End Crud.

(** * Properties *)

(** ** Dictionaries *)

Module DictFacts.
Import Dict.

Section Facts.
Variable V : Type.
Implicit Types (d : Dict.t V) (k : nat) (v : V).

Lemma get_in_keys d k : get k d <> None <-> In k (keys d).
Proof.
  induction d as [|[k' v'] d IH]; simpl.
  - split; [congruence | tauto].
  - destruct (Nat.eqb_spec k k') as [->|Hne].
    + split; [auto | congruence].
    + rewrite IH. split; [auto | intros [H|H]; congruence || auto].
Qed.

Lemma get_none_iff d k : get k d = None <-> ~ In k (keys d).
Proof.
  rewrite <- get_in_keys. destruct (get k d); split; intros H.
  - discriminate.
  - exfalso. apply H. discriminate.
  - intros H'. now apply H'.
  - reflexivity.
Qed.

Lemma get_some_in d k v : get k d = Some v -> In k (keys d).
Proof. intros H. apply get_in_keys. congruence. Qed.

Lemma in_keys_get d k : In k (keys d) -> exists v, get k d = Some v.
Proof.
  intros H. apply get_in_keys in H. destruct (get k d) as [v|]; [eauto|tauto].
Qed.

Lemma get_set_same d k v : get k (set k v d) = Some v.
Proof.
  induction d as [|[k' v'] d IH]; simpl.
  - now rewrite Nat.eqb_refl.
  - destruct (Nat.eqb_spec k k') as [->|Hne]; simpl.
    + now rewrite Nat.eqb_refl.
    + destruct (Nat.eqb_spec k k'); [tauto | exact IH].
Qed.

Lemma get_set_other d k k' v : k' <> k -> get k' (set k v d) = get k' d.
Proof.
  intros Hne. induction d as [|[k0 v0] d IH]; simpl.
  - destruct (Nat.eqb_spec k' k); [tauto | reflexivity].
  - destruct (Nat.eqb_spec k k0) as [->|Hk]; simpl.
    + destruct (Nat.eqb_spec k' k0); [tauto | reflexivity].
    + destruct (Nat.eqb_spec k' k0); [reflexivity | exact IH].
Qed.

(** Assignment keeps the position of a key that is there and appends one
    that is not. *)
Lemma keys_set_in d k v : In k (keys d) -> keys (set k v d) = keys d.
Proof.
  induction d as [|[k' v'] d IH]; simpl; [tauto|].
  intros H. destruct (Nat.eqb_spec k k') as [->|Hne]; simpl.
  - reflexivity.
  - f_equal. apply IH. destruct H; congruence || assumption.
Qed.

Lemma set_notin d k v : ~ In k (keys d) -> set k v d = d ++ [(k, v)].
Proof.
  induction d as [|[k' v'] d IH]; simpl; [reflexivity|].
  intros H. destruct (Nat.eqb_spec k k') as [->|Hne]; [tauto|].
  f_equal. apply IH. tauto.
Qed.

Lemma keys_app d1 d2 : keys (d1 ++ d2) = keys d1 ++ keys d2.
Proof. apply map_app. Qed.

Lemma del_none d k : del k d = None <-> ~ In k (keys d).
Proof.
  induction d as [|[k' v'] d IH]; simpl; [tauto|].
  destruct (Nat.eqb_spec k k') as [->|Hne].
  - split; [congruence | tauto].
  - destruct (del k d).
    + split; [congruence|]. intros H. exfalso. apply H. right.
      apply Decidable.not_not; [|intros Hn; apply IH in Hn; congruence].
      destruct (in_dec Nat.eq_dec k (keys d)); [left|right]; assumption.
    + split; [|reflexivity]. intros _ [H|H]; [congruence|]. now apply IH.
Qed.

Lemma get_del_other d d' k k' :
  del k d = Some d' -> k' <> k -> get k' d' = get k' d.
Proof.
  revert d'. induction d as [|[k0 v0] d IH]; simpl; [congruence|].
  intros d' H Hne. destruct (Nat.eqb_spec k k0) as [->|Hk].
  - injection H as <-. destruct (Nat.eqb_spec k' k0); [tauto | reflexivity].
  - destruct (del k d) as [r|]; [|congruence]. injection H as <-. simpl.
    destruct (Nat.eqb_spec k' k0); [reflexivity | now apply IH].
Qed.
End Facts.

(** [del] removes the first occurrence of the key from the key list. *)
Fixpoint remove1 (k : nat) (l : list nat) : list nat :=
  match l with
  | [] => []
  | x :: l' => if Nat.eqb k x then l' else x :: remove1 k l'
  end.

Lemma keys_del V (d d' : Dict.t V) k :
  del k d = Some d' -> keys d' = remove1 k (keys d).
Proof.
  revert d'. induction d as [|[k0 v0] d IH]; simpl; [congruence|].
  intros d' H. destruct (Nat.eqb_spec k k0) as [->|Hk].
  - now injection H as <-.
  - destruct (del k d) as [r|]; [|congruence]. injection H as <-. simpl.
    f_equal. now apply IH.
Qed.

Lemma in_remove1 k x l : In x (remove1 k l) -> In x l.
Proof.
  induction l as [|y l IH]; simpl; [tauto|].
  destruct (Nat.eqb_spec k y); simpl; tauto.
Qed.

Lemma in_remove1_other k x l : In x l -> x <> k -> In x (remove1 k l).
Proof.
  induction l as [|y l IH]; simpl; [tauto|].
  destruct (Nat.eqb_spec k y); simpl; intros [H|H] Hne; subst;
    solve [tauto | congruence | auto].
Qed.

Lemma sorted_remove1 k l :
  StronglySorted lt l -> StronglySorted lt (remove1 k l).
Proof.
  induction 1 as [|y l Hs IH Hall]; simpl; [constructor|].
  destruct (Nat.eqb_spec k y); [assumption|].
  constructor; [assumption|].
  rewrite Forall_forall in *. intros x Hx. apply Hall. eapply in_remove1; eauto.
Qed.

Lemma sorted_not_in_remove1 k l :
  StronglySorted lt l -> ~ In k (remove1 k l).
Proof.
  induction 1 as [|y l Hs IH Hall]; simpl; [tauto|].
  destruct (Nat.eqb_spec k y) as [->|Hne].
  - intros Hin. rewrite Forall_forall in Hall. specialize (Hall _ Hin). lia.
  - simpl. intros [H|H]; [congruence | tauto].
Qed.

Lemma sorted_NoDup l : StronglySorted lt l -> NoDup l.
Proof.
  induction 1 as [|y l Hs IH Hall]; constructor; [|assumption].
  intros Hin. rewrite Forall_forall in Hall. specialize (Hall _ Hin). lia.
Qed.

Lemma sorted_snoc l k :
  StronglySorted lt l -> Forall (fun x => x < k) l ->
  StronglySorted lt (l ++ [k]).
Proof.
  induction 1 as [|y l Hs IH Hall]; simpl; intros Hk.
  - repeat constructor.
  - inversion Hk; subst. constructor; [auto|].
    apply Forall_app. split; [assumption | repeat constructor; assumption].
Qed.

End DictFacts.

(** ** Reasoning about method bodies *)

(** [m] run from [s] returns [a] and leaves [s']. *)
Definition returns {A} (m : M A) (s : SimpleTracker) (a : A)
    (s' : SimpleTracker) : Prop :=
  m s = (Val a, s').

Lemma bind_returns A B (m : M A) (f : A -> M B) s a s1 :
  returns m s a s1 -> bind m f s = f a s1.
Proof. unfold returns, bind. now intros ->. Qed.

(** [I] holds of [self] after [m], whether [m] returns or raises. *)
Definition preserves {A} (I : SimpleTracker -> Prop) (m : M A) : Prop :=
  forall s, I s -> I (snd (m s)).

Section Preserves.
Variable I : SimpleTracker -> Prop.

Lemma preserves_ret A (a : A) : preserves I (ret a).
Proof. intros s H. exact H. Qed.

Lemma preserves_raise A e : preserves I (@raise A e).
Proof. intros s H. exact H. Qed.

Lemma preserves_read A (f : SimpleTracker -> A) : preserves I (read f).
Proof. intros s H. exact H. Qed.

Lemma preserves_lift A e (o : option A) : preserves I (lift e o).
Proof. destruct o; [apply preserves_ret | apply preserves_raise]. Qed.

Lemma preserves_bind A B (m : M A) (f : A -> M B) :
  preserves I m -> (forall a, preserves I (f a)) -> preserves I (bind m f).
Proof.
  intros Hm Hf s H. unfold bind. specialize (Hm s H).
  destruct (m s) as [[a|e] s1]; simpl in *; [now apply Hf | assumption].
Qed.

Lemma preserves_for_each X (body : X -> M unit) l :
  (forall x, preserves I (body x)) -> preserves I (for_each l body).
Proof.
  intros Hb. induction l as [|x l IH]; simpl.
  - apply preserves_ret.
  - apply preserves_bind; auto.
Qed.

Lemma preserves_for_fold X Acc (body : Acc -> X -> M Acc) l :
  (forall acc x, preserves I (body acc x)) ->
  forall acc, preserves I (for_fold l acc body).
Proof.
  intros Hb. induction l as [|x l IH]; simpl; intros acc.
  - apply preserves_ret.
  - apply preserves_bind; auto.
Qed.
End Preserves.

(** ** The two maps of the tracker have the same keys *)

Definition keys_agree (s : SimpleTracker) : Prop :=
  Dict.keys (objects s) = Dict.keys (disappeared s).

(** The key list after [d[k] = v]. *)
Definition add_key (k : nat) (l : list nat) : list nat :=
  if mem k l then l else l ++ [k].

Lemma mem_In k l : mem k l = true <-> In k l.
Proof.
  unfold mem. rewrite existsb_exists. split.
  - intros [x [Hx He]]. apply Nat.eqb_eq in He. now subst.
  - intros H. exists k. split; [assumption | apply Nat.eqb_refl].
Qed.

Lemma mem_false k l : mem k l = false <-> ~ In k l.
Proof.
  rewrite <- mem_In. destruct (mem k l); split; congruence || tauto.
Qed.

Lemma keys_set V (d : Dict.t V) k v :
  Dict.keys (Dict.set k v d) = add_key k (Dict.keys d).
Proof.
  unfold add_key. destruct (mem k (Dict.keys d)) eqn:E.
  - apply DictFacts.keys_set_in. now apply mem_In.
  - apply mem_false in E. rewrite DictFacts.set_notin by assumption.
    unfold Dict.keys. now rewrite map_app.
Qed.

Lemma keys_agree_set_both k c v A (f : unit -> M A) :
  preserves keys_agree (f tt) ->
  preserves keys_agree (set_object k c ;; set_disappeared k v ;; f tt).
Proof.
  intros Hf s H. unfold bind, set_object, set_disappeared, read, put_objects,
    put_disappeared, bind. simpl. apply Hf.
  unfold keys_agree in *. simpl. rewrite !keys_set. now rewrite H.
Qed.

Lemma keys_agree_register c : preserves keys_agree (Tracker.register c).
Proof.
  intros s H. unfold keys_agree in *. simpl. rewrite !keys_set. now rewrite H.
Qed.

Lemma keys_agree_deregister k : preserves keys_agree (Tracker.deregister k).
Proof.
  intros s H. unfold keys_agree in *.
  unfold Tracker.deregister, del_object, del_disappeared, bind, read, lift,
    put_objects, put_disappeared, ret, raise. simpl.
  destruct (Dict.del k (objects s)) as [o'|] eqn:Eo; simpl; [|assumption].
  destruct (Dict.del k (disappeared s)) as [d'|] eqn:Ed; simpl.
  - apply DictFacts.keys_del in Eo, Ed. congruence.
  - exfalso. apply DictFacts.del_none in Ed. apply Ed. rewrite <- H.
    destruct (in_dec Nat.eq_dec k (Dict.keys (objects s))) as [Hi|Hn];
      [assumption|]. apply DictFacts.del_none in Hn. congruence.
Qed.

Lemma keys_agree_mark k : preserves keys_agree (Tracker.mark_disappeared k).
Proof.
  intros s H.
  unfold Tracker.mark_disappeared, get_disappeared, set_disappeared, bind at 1 2.
  unfold read at 1, lift. 
  destruct (Dict.get k (disappeared s)) as [d|] eqn:Eg; simpl; [|assumption].
  unfold bind, read, put_disappeared. simpl.
  rewrite DictFacts.get_set_same. simpl.
  set (s1 := mkTracker _ _ _ _).
  assert (H1 : keys_agree s1).
  { unfold keys_agree, s1. simpl. rewrite DictFacts.keys_set_in; [assumption|].
    eapply DictFacts.get_some_in; eauto. }
  destruct (_ >? _)%Z.
  - now apply keys_agree_deregister.
  - exact H1.
Qed.

Lemma keys_agree_match_pair D ids cents acc rc :
  preserves keys_agree (Tracker.match_pair D ids cents acc rc).
Proof.
  destruct acc as [ur uc], rc as [row col]. unfold Tracker.match_pair.
  destruct (_ || _); [apply preserves_ret|].
  apply preserves_bind; [apply preserves_lift|]. intros d.
  destruct (_ >? _)%Z; [apply preserves_ret|].
  apply preserves_bind; [apply preserves_lift|]. intros k.
  apply preserves_bind; [apply preserves_lift|]. intros c.
  apply (keys_agree_set_both k c 0%Z
           (fun _ => ret (ur ++ [row], uc ++ [col]))).
  apply preserves_ret.
Qed.

Lemma keys_agree_update rt dets :
  preserves keys_agree (Tracker.update rt dets).
Proof.
  unfold Tracker.update. destruct dets as [|b dets].
  - apply preserves_bind; [apply preserves_read|]. intros d.
    apply preserves_bind; [|intros; apply preserves_read].
    apply preserves_for_each. apply keys_agree_mark.
  - apply preserves_bind; [apply preserves_read|]. intros o.
    apply preserves_bind; [|intros; apply preserves_read].
    destruct o as [|p o].
    + apply preserves_for_each. apply keys_agree_register.
    + apply preserves_bind; [apply preserves_lift|]. intros cols.
      apply preserves_bind.
      * apply preserves_for_fold. intros. apply keys_agree_match_pair.
      * intros [ur uc]. apply preserves_bind.
        -- apply preserves_for_each. intros row.
           apply preserves_bind; [apply preserves_lift|]. intros k.
           apply keys_agree_mark.
        -- intros _. apply preserves_for_each. intros col.
           apply preserves_bind; [apply preserves_lift|]. intros c.
           apply keys_agree_register.
Qed.

(** The states a tracker instance can be in: as constructed, and after any
    call of a method, whatever the call's outcome. *)
Inductive reachable (rt : runtime) : SimpleTracker -> Prop :=
| reach_init maxd : reachable rt (Tracker.init maxd)
| reach_register s c :
    reachable rt s -> reachable rt (snd (Tracker.register c s))
| reach_deregister s k :
    reachable rt s -> reachable rt (snd (Tracker.deregister k s))
| reach_update s dets :
    reachable rt s -> reachable rt (snd (Tracker.update rt dets s)).

(** C9.  After construction and after every [register], [deregister] and
    [update] call, whatever its outcome and whatever the runtime, a track id
    has a centroid in [objects] if and only if it has a counter in
    [disappeared]. *)
Theorem maps_have_same_keys rt s :
  reachable rt s ->
  forall object_id,
    In object_id (Dict.keys (objects s)) <->
    In object_id (Dict.keys (disappeared s)).
Proof.
  intros H. assert (Hk : keys_agree s).
  { induction H.
    - reflexivity.
    - now apply keys_agree_register.
    - now apply keys_agree_deregister.
    - now apply keys_agree_update. }
  intros k. now rewrite Hk.
Qed.

(** ** Well-formed tracker states *)

Definition ids (s : SimpleTracker) : list nat := Dict.keys (objects s).

(** What holds of every state a tracker gets into: both maps list the same
    ids, in ascending order, all below the id counter, and no counter is
    negative. *)
Record wf (s : SimpleTracker) : Prop := mkWf {
  wf_keys : keys_agree s;
  wf_sorted : StronglySorted lt (ids s);
  wf_below : Forall (fun k => k < next_object_id s) (ids s);
  wf_counts : forall k d, Dict.get k (disappeared s) = Some d -> (0 <= d)%Z
}.

(** The entries of [k] are the same in [s] and [s']. *)
Definition unchanged_at (k : nat) (s s' : SimpleTracker) : Prop :=
  Dict.get k (objects s') = Dict.get k (objects s) /\
  Dict.get k (disappeared s') = Dict.get k (disappeared s).

Lemma unchanged_at_refl k s : unchanged_at k s s.
Proof. split; reflexivity. Qed.

Lemma unchanged_at_trans k s1 s2 s3 :
  unchanged_at k s1 s2 -> unchanged_at k s2 s3 -> unchanged_at k s1 s3.
Proof. intros [A B] [C D]. split; congruence. Qed.

Lemma wf_init maxd : wf (Tracker.init maxd).
Proof.
  constructor; simpl; try constructor. intros k d H. discriminate.
Qed.

Lemma wf_live_objects s k :
  wf s -> (In k (ids s) <-> Dict.get k (disappeared s) <> None).
Proof.
  intros H. rewrite DictFacts.get_in_keys. unfold ids. now rewrite (wf_keys H).
Qed.

Lemma wf_fresh s : wf s -> ~ In (next_object_id s) (ids s).
Proof.
  intros H Hin. pose proof (wf_below H) as Hb. rewrite Forall_forall in Hb.
  specialize (Hb _ Hin). lia.
Qed.

Lemma get_app V (d e : Dict.t V) k :
  Dict.get k (d ++ e) =
  match Dict.get k d with Some v => Some v | None => Dict.get k e end.
Proof.
  induction d as [|[k' v'] d IH]; simpl; [reflexivity|].
  destruct (Nat.eqb k k'); [reflexivity | exact IH].
Qed.

(** *** [register] *)

Definition registered (c : centroid) (s : SimpleTracker) : SimpleTracker :=
  mkTracker (next_object_id s + 1)
    (objects s ++ [(next_object_id s, c)])
    (disappeared s ++ [(next_object_id s, 0%Z)])
    (max_disappeared s).

Lemma register_returns c s :
  wf s -> returns (Tracker.register c) s tt (registered c s).
Proof.
  intros H. unfold returns, registered. 
  change (Tracker.register c s) with
    (Val tt, mkTracker (next_object_id s + 1)
               (Dict.set (next_object_id s) c (objects s))
               (Dict.set (next_object_id s) 0%Z (disappeared s))
               (max_disappeared s)).
  pose proof (wf_fresh H) as Hf.
  rewrite !DictFacts.set_notin; [reflexivity | | assumption].
  rewrite <- (wf_keys H). exact Hf.
Qed.

Lemma wf_registered c s : wf s -> wf (registered c s).
Proof.
  intros H. pose proof (wf_fresh H) as Hf. constructor; simpl.
  - unfold keys_agree. simpl. unfold Dict.keys. rewrite !map_app. simpl.
    f_equal. apply (wf_keys H).
  - unfold ids. simpl. unfold Dict.keys. rewrite map_app. simpl.
    apply DictFacts.sorted_snoc; [apply (wf_sorted H) | apply (wf_below H)].
  - unfold ids. simpl. unfold Dict.keys. rewrite map_app. simpl.
    apply Forall_app. split.
    + eapply Forall_impl; [|apply (wf_below H)]. simpl. intros; lia.
    + repeat constructor. lia.
  - intros k d. rewrite get_app. destruct (Dict.get k (disappeared s)) eqn:E.
    + intros [= <-]. eapply wf_counts; eauto.
    + simpl. destruct (Nat.eqb k _); [|discriminate]. intros [= <-]. lia.
Qed.

(** The state after [for c in cs: self.register(c)]. *)
Definition registered_all (cs : list centroid) (s : SimpleTracker)
  : SimpleTracker :=
  let new_ids := seq (next_object_id s) (length cs) in
  mkTracker (next_object_id s + length cs)
    (objects s ++ combine new_ids cs)
    (disappeared s ++ map (fun k => (k, 0%Z)) new_ids)
    (max_disappeared s).

Lemma registered_all_cons c cs s :
  registered_all cs (registered c s) = registered_all (c :: cs) s.
Proof.
  unfold registered_all, registered. simpl.
  rewrite <- !app_assoc. simpl. rewrite Nat.add_1_r.
  f_equal. lia.
Qed.

Lemma register_loop cs : forall s,
  wf s ->
  returns (for_each cs Tracker.register) s tt (registered_all cs s) /\
  wf (registered_all cs s).
Proof.
  induction cs as [|c cs IH]; intros s H.
  - unfold registered_all. simpl. rewrite !app_nil_r, Nat.add_0_r.
    destruct s; simpl. split; [reflexivity | assumption].
  - simpl. unfold returns.
    rewrite (bind_returns _ (register_returns c H)).
    rewrite <- registered_all_cons. apply IH. now apply wf_registered.
Qed.

(** *** [deregister] and the disappearance step *)

Lemma deregister_returns k s :
  wf s -> In k (ids s) ->
  exists s',
    returns (Tracker.deregister k) s tt s' /\ wf s' /\
    next_object_id s' = next_object_id s /\
    max_disappeared s' = max_disappeared s /\
    Dict.get k (disappeared s') = None /\
    (forall k', k' <> k -> unchanged_at k' s s').
Proof.
  intros H Hin.
  destruct (Dict.del k (objects s)) as [o'|] eqn:Eo;
    [|apply DictFacts.del_none in Eo; contradiction].
  destruct (Dict.del k (disappeared s)) as [d'|] eqn:Ed;
    [|apply DictFacts.del_none in Ed; rewrite <- (wf_keys H) in Ed;
      contradiction].
  exists (mkTracker (next_object_id s) o' d' (max_disappeared s)).
  pose proof (DictFacts.keys_del _ _ Eo) as Ko.
  pose proof (DictFacts.keys_del _ _ Ed) as Kd.
  split; [|split; [|split; [|split; [|split]]]]; simpl; try reflexivity.
  - unfold returns, Tracker.deregister, del_object, del_disappeared, bind, read,
      lift, put_objects, put_disappeared, ret. simpl. rewrite Eo. simpl.
    now rewrite Ed.
  - constructor; unfold ids, keys_agree; simpl.
    + rewrite Ko, Kd. f_equal. apply (wf_keys H).
    + rewrite Ko. apply DictFacts.sorted_remove1, (wf_sorted H).
    + rewrite Ko. pose proof (wf_below H) as Hb. rewrite Forall_forall in *.
      intros x Hx. apply Hb. eapply DictFacts.in_remove1; eauto.
    + intros k' d Hg. destruct (Nat.eq_dec k' k) as [->|Hne].
      * exfalso. apply DictFacts.get_some_in in Hg. rewrite Kd in Hg.
        rewrite <- (wf_keys H) in Hg.
        eapply DictFacts.sorted_not_in_remove1; [apply (wf_sorted H)|].
        exact Hg.
      * rewrite (DictFacts.get_del_other _ Ed Hne) in Hg.
        eapply wf_counts; eauto.
  - apply DictFacts.get_none_iff. rewrite Kd, <- (wf_keys H).
    apply DictFacts.sorted_not_in_remove1, (wf_sorted H).
  - intros k' Hne. split; simpl;
      eapply DictFacts.get_del_other; eauto.
Qed.

(** One run of the disappearance step on a live track: its counter goes up
    by one, and the track is dropped exactly when the new count exceeds
    [max_disappeared]. *)
Lemma mark_returns k d s :
  wf s -> Dict.get k (disappeared s) = Some d ->
  exists s',
    returns (Tracker.mark_disappeared k) s tt s' /\ wf s' /\
    next_object_id s' = next_object_id s /\
    max_disappeared s' = max_disappeared s /\
    (if (d + 1 >? max_disappeared s)%Z
     then Dict.get k (disappeared s') = None
     else Dict.get k (disappeared s') = Some (d + 1)%Z /\
          Dict.get k (objects s') = Dict.get k (objects s)) /\
    (forall k', k' <> k -> unchanged_at k' s s').
Proof.
  intros H Hg.
  pose proof (DictFacts.get_some_in _ _ Hg) as Hin.
  set (s1 := mkTracker (next_object_id s) (objects s)
               (Dict.set k (d + 1)%Z (disappeared s)) (max_disappeared s)).
  assert (H1 : wf s1).
  { constructor; unfold ids, keys_agree, s1; simpl.
    - rewrite DictFacts.keys_set_in by assumption. apply (wf_keys H).
    - apply (wf_sorted H).
    - apply (wf_below H).
    - intros k' d'. destruct (Nat.eq_dec k' k) as [->|Hne].
      + rewrite DictFacts.get_set_same. intros [= <-].
        pose proof (wf_counts H _ Hg). lia.
      + rewrite DictFacts.get_set_other by assumption. apply (wf_counts H). }
  assert (Hrun : Tracker.mark_disappeared k s =
                 if (d + 1 >? max_disappeared s)%Z
                 then Tracker.deregister k s1 else (Val tt, s1)).
  { unfold Tracker.mark_disappeared, get_disappeared, set_disappeared, bind,
      read, lift, put_disappeared, ret. simpl. rewrite Hg. simpl.
    rewrite DictFacts.get_set_same. simpl.
    destruct (d + 1 >? max_disappeared s)%Z; reflexivity. }
  assert (Hframe : forall k', k' <> k -> unchanged_at k' s s1).
  { intros k' Hne. split; simpl; [reflexivity|].
    now apply DictFacts.get_set_other. }
  destruct (d + 1 >? max_disappeared s)%Z eqn:Egt.
  - destruct (@deregister_returns k s1 H1) as (s' & R & W & N & Mx & G & F).
    { unfold ids, s1. simpl. unfold keys_agree in *.
      rewrite (wf_keys H). exact Hin. }
    exists s'. unfold returns. rewrite Hrun.
    split; [exact R|]. split; [exact W|]. split; [exact N|].
    split; [exact Mx|]. split; [exact G|].
    intros k' Hne. eapply unchanged_at_trans; [apply Hframe | apply F]; auto.
  - exists s1. unfold returns. rewrite Hrun.
    split; [reflexivity|]. split; [exact H1|]. split; [reflexivity|].
    split; [reflexivity|]. split; [|exact Hframe].
    split; [apply DictFacts.get_set_same | reflexivity].
Qed.

Lemma mark_loop L : forall s,
  wf s -> NoDup L -> (forall k, In k L -> In k (ids s)) ->
  exists s',
    returns (for_each L Tracker.mark_disappeared) s tt s' /\ wf s' /\
    next_object_id s' = next_object_id s /\
    max_disappeared s' = max_disappeared s /\
    (forall k, ~ In k L -> unchanged_at k s s') /\
    (forall k d, In k L -> Dict.get k (disappeared s) = Some d ->
       if (d + 1 >? max_disappeared s)%Z
       then Dict.get k (disappeared s') = None
       else Dict.get k (disappeared s') = Some (d + 1)%Z /\
            Dict.get k (objects s') = Dict.get k (objects s)).
Proof.
  induction L as [|k L IH]; intros s H Hnd Hin.
  - exists s. split; [reflexivity|]. split; [assumption|].
    split; [reflexivity|]. split; [reflexivity|].
    split; [intros; apply unchanged_at_refl | intros k d []].
  - inversion Hnd as [|? ? Hk HndL]; subst.
    assert (Hlive : In k (ids s)) by (apply Hin; now left).
    apply (wf_live_objects k H) in Hlive.
    destruct (Dict.get k (disappeared s)) as [d|] eqn:Eg; [|congruence].
    destruct (mark_returns k H Eg) as (s1 & R1 & W1 & N1 & M1 & E1 & F1).
    destruct (IH s1 W1 HndL) as (s' & R & W & N & Mx & F & E).
    { intros k' Hk'. assert (Hne : k' <> k) by (intros ->; contradiction).
      destruct (F1 k' Hne) as [Ho _]. apply DictFacts.get_in_keys.
      rewrite Ho. apply DictFacts.get_in_keys. apply Hin. now right. }
    exists s'. split.
    { unfold returns. simpl. now rewrite (bind_returns _ R1). }
    split; [assumption|]. split; [congruence|]. split; [congruence|]. split.
    + intros k' Hk'. eapply unchanged_at_trans.
      * apply F1. intros ->. apply Hk'. now left.
      * apply F. intros Hc. apply Hk'. now right.
    + intros k' d' [<-|Hk'] Hg.
      * rewrite Eg in Hg. injection Hg as <-.
        destruct (F k Hk) as [Fo Fd]. rewrite Fo, Fd.
        destruct (d + 1 >? max_disappeared s)%Z; assumption.
      * assert (Hne : k' <> k) by (intros ->; contradiction).
        destruct (F1 k' Hne) as [Fo Fd].
        specialize (E k' d' Hk'). rewrite Fd, M1, Fo in E. now apply E.
Qed.

(** A loop that first looks its element up runs its body on the elements
    found. *)
Lemma for_each_lookup X Y (f : X -> option Y) e (body : Y -> M unit) xs :
  forall ys s,
    map f xs = map Some ys ->
    for_each xs (fun x => y <- lift e (f x) ;; body y) s = for_each ys body s.
Proof.
  induction xs as [|x xs IH]; intros [|y ys] s Hm; simpl in *;
    try discriminate; [reflexivity|].
  injection Hm as Hx Hm. unfold bind at 1 2. rewrite Hx. simpl.
  unfold bind at 2. destruct (body y s) as [[[]|ex] s1]; [|reflexivity].
  now apply IH.
Qed.

(** *** The assignment loop *)

(** [D[row, col]] *)
Definition entry (D : list (list Z)) (row col : nat) : option Z :=
  match nth_error D row with
  | Some r => nth_error r col
  | None => None
  end.

(** The pair [(row, col)] passes both tests of the loop body: neither index
    is used yet, and the distance is at most 50. *)
Definition accepted (D : list (list Z)) (acc : list nat * list nat)
    (rc : nat * nat) : bool :=
  negb (mem (fst rc) (fst acc) || mem (snd rc) (snd acc)) &&
  match entry D (fst rc) (snd rc) with
  | Some d => negb (d >? 2500)%Z
  | None => false
  end.

Definition assign (D : list (list Z)) (acc : list nat * list nat)
    (rc : nat * nat) : list nat * list nat :=
  if accepted D acc rc then (fst acc ++ [fst rc], snd acc ++ [snd rc])
  else acc.

(** The sets [used_rows] and [used_cols] at the end of the loop. *)
Definition greedy (D : list (list Z)) (pairs : list (nat * nat))
    (acc : list nat * list nat) : list nat * list nat :=
  fold_left (assign D) pairs acc.

Lemma assign_incl D acc rc r : In r (fst acc) -> In r (fst (assign D acc rc)).
Proof.
  unfold assign. destruct (accepted D acc rc); simpl; [|auto].
  intros H. apply in_or_app. now left.
Qed.

Lemma greedy_incl D pairs : forall acc r,
  In r (fst acc) -> In r (fst (greedy D pairs acc)).
Proof.
  induction pairs as [|rc pairs IH]; intros acc r H; simpl; [assumption|].
  apply IH. now apply assign_incl.
Qed.

Lemma greedy_rows D pairs : forall acc r,
  In r (fst (greedy D pairs acc)) ->
  In r (fst acc) \/ In r (map fst pairs).
Proof.
  induction pairs as [|rc pairs IH]; intros acc r H; simpl in *; [now left|].
  apply IH in H. destruct H as [H|H]; [|now right; right].
  unfold assign in H. destruct (accepted D acc rc); simpl in H; [|now left].
  apply in_app_or in H. destruct H as [H|[H|[]]]; [now left | right; now left].
Qed.

Lemma greedy_cols D pairs : forall acc c,
  In c (snd (greedy D pairs acc)) ->
  In c (snd acc) \/ In c (map snd pairs).
Proof.
  induction pairs as [|rc pairs IH]; intros acc c H; simpl in *; [now left|].
  apply IH in H. destruct H as [H|H]; [|now right; right].
  unfold assign in H. destruct (accepted D acc rc); simpl in H; [|now left].
  apply in_app_or in H. destruct H as [H|[H|[]]]; [now left | right; now left].
Qed.

(** One run of the loop body on indexes that are in range. *)
Lemma match_pair_returns D oids cents acc row col s d k c :
  wf s -> In k (ids s) ->
  entry D row col = Some d ->
  nth_error oids row = Some k ->
  nth_error cents col = Some c ->
  exists s',
    returns (Tracker.match_pair D oids cents acc (row, col)) s
      (assign D acc (row, col)) s' /\
    wf s' /\ ids s' = ids s /\
    next_object_id s' = next_object_id s /\
    max_disappeared s' = max_disappeared s /\
    (accepted D acc (row, col) = true ->
     Dict.get k (disappeared s') = Some 0%Z /\
     Dict.get k (objects s') = Some c) /\
    (accepted D acc (row, col) = false -> s' = s) /\
    (forall k', k' <> k -> unchanged_at k' s s').
Proof.
  intros H Hin He Hk Hc. destruct acc as [ur uc].
  unfold Tracker.match_pair, assign, accepted, returns. simpl.
  unfold entry in He. 
  destruct (mem row ur || mem col uc) eqn:Eu; simpl.
  { exists s. split; [reflexivity|]. split; [exact H|].
    repeat (split; [reflexivity|]). split; [discriminate|].
    split; [reflexivity | intros; apply unchanged_at_refl]. }
  unfold bind at 1. rewrite He. simpl. unfold entry. rewrite He. simpl.
  destruct (d >? 2500)%Z eqn:Eg; simpl.
  { exists s. split; [reflexivity|]. split; [exact H|].
    repeat (split; [reflexivity|]). split; [discriminate|].
    split; [reflexivity | intros; apply unchanged_at_refl]. }
  unfold bind at 1. rewrite Hk. simpl. unfold bind at 1. rewrite Hc. simpl.
  set (s' := mkTracker (next_object_id s) (Dict.set k c (objects s))
               (Dict.set k 0%Z (disappeared s)) (max_disappeared s)).
  exists s'. split; [reflexivity|].
  assert (Hin' : In k (Dict.keys (disappeared s))).
  { rewrite <- (wf_keys H). exact Hin. }
  assert (Hids : ids s' = ids s).
  { unfold ids, s'. simpl. now apply DictFacts.keys_set_in. }
  split.
  { constructor.
    - unfold keys_agree, s'. simpl.
      rewrite !DictFacts.keys_set_in by assumption. apply (wf_keys H).
    - rewrite Hids. apply (wf_sorted H).
    - rewrite Hids. apply (wf_below H).
    - intros k' d'. unfold s'. simpl.
      destruct (Nat.eq_dec k' k) as [->|Hne].
      + rewrite DictFacts.get_set_same. intros [= <-]. lia.
      + rewrite DictFacts.get_set_other by assumption. apply (wf_counts H). }
  split; [assumption|]. split; [reflexivity|]. split; [reflexivity|].
  split; [|split; [discriminate|]].
  - intros _. unfold s'. simpl. now rewrite !DictFacts.get_set_same.
  - intros k' Hne. unfold s'. split; simpl;
      now apply DictFacts.get_set_other.
Qed.

Lemma match_loop D oids cents pairs : forall acc s,
  wf s -> ids s = oids ->
  (forall r c, In (r, c) pairs ->
     exists d k cc, entry D r c = Some d /\ nth_error oids r = Some k /\
                    nth_error cents c = Some cc) ->
  exists s',
    returns (for_fold pairs acc (Tracker.match_pair D oids cents)) s
      (greedy D pairs acc) s' /\
    wf s' /\ ids s' = ids s /\
    next_object_id s' = next_object_id s /\
    max_disappeared s' = max_disappeared s /\
    (forall k,
       (forall r, In r (fst (greedy D pairs acc)) -> ~ In r (fst acc) ->
                  nth_error oids r <> Some k) ->
       unchanged_at k s s') /\
    (forall r k,
       In r (fst (greedy D pairs acc)) -> ~ In r (fst acc) ->
       nth_error oids r = Some k ->
       Dict.get k (disappeared s') = Some 0%Z).
Proof.
  induction pairs as [|[r c] pairs IH]; intros acc s H Hids Hv.
  - exists s. split; [reflexivity|]. split; [exact H|].
    repeat (split; [reflexivity|]). split.
    + intros; apply unchanged_at_refl.
    + simpl. intros r k Hr Hn. contradiction.
  - destruct (Hv r c (or_introl eq_refl)) as (d & k & cc & He & Hk & Hc).
    assert (Hin : In k (ids s)).
    { rewrite Hids. eapply nth_error_In; eauto. }
    destruct (@match_pair_returns D oids cents acc r c s d k cc H Hin He Hk Hc)
      as (s1 & R1 & W1 & I1 & N1 & M1 & A1 & S1 & F1).
    destruct (IH (assign D acc (r, c)) s1 W1) as (s' & R & W & I & N & Mx & F & Z0).
    { congruence. }
    { intros r' c' Hrc. apply Hv. now right. }
    assert (Hnd : NoDup oids).
    { rewrite <- Hids. apply DictFacts.sorted_NoDup, (wf_sorted H). }
    assert (Hrow : forall r', nth_error oids r' = Some k -> r' = r).
    { intros r' Hr'. rewrite NoDup_nth_error in Hnd. symmetry. apply Hnd.
      - apply nth_error_Some. congruence.
      - congruence. }
    assert (Hacc : accepted D acc (r, c) = true ->
                   In r (fst (assign D acc (r, c))) /\ ~ In r (fst acc)).
    { intros Ha. unfold assign. rewrite Ha. simpl. split.
      - apply in_or_app. right. now left.
      - unfold accepted in Ha. simpl in Ha.
        apply andb_true_iff in Ha. destruct Ha as [Ha _].
        apply negb_true_iff, orb_false_iff in Ha. destruct Ha as [Ha _].
        now apply mem_false. }
    exists s'. split.
    { unfold returns. simpl. now rewrite (bind_returns _ R1). }
    split; [exact W|]. split; [congruence|]. split; [congruence|].
    split; [congruence|]. simpl. fold (greedy D pairs (assign D acc (r, c))).
    split.
    + intros k0 Hk0. eapply unchanged_at_trans.
      * destruct (accepted D acc (r, c)) eqn:Ea.
        -- destruct (Hacc eq_refl) as [Hi Hn]. apply F1. intros ->.
           apply (Hk0 r); auto. now apply greedy_incl.
        -- rewrite (S1 eq_refl). apply unchanged_at_refl.
      * apply F. intros r' Hr' Hn. apply Hk0; [assumption|].
        intros Hc'. apply Hn. now apply assign_incl.
    + intros r0 k0 Hr0 Hn0 Hk0.
      destruct (in_dec Nat.eq_dec r0 (fst (assign D acc (r, c)))) as [Hi|Hni].
      * destruct (accepted D acc (r, c)) eqn:Ea.
        2:{ unfold assign in Hi. rewrite Ea in Hi. contradiction. }
        assert (r0 = r).
        { unfold assign in Hi. rewrite Ea in Hi. simpl in Hi.
          apply in_app_or in Hi. destruct Hi as [Hi|[Hi|[]]];
            [contradiction | congruence]. }
        subst r0. assert (k0 = k) by congruence. subst k0.
        destruct (A1 eq_refl) as [Hz _].
        destruct (F k) as [_ Fd]; [|congruence].
        intros r' Hr' Hn' Hk'. apply Hrow in Hk'. subst r'. contradiction.
      * eapply Z0; eauto.
Qed.

(** ** Runtimes the tracker can rely on *)

(** [argsort] lists every index once, keys ascending. *)
Definition argsort_ok (f : list Z -> list nat) : Prop :=
  forall ks,
    Permutation (f ks) (seq 0 (length ks)) /\
    StronglySorted (fun i j => (nth i ks 0 <= nth j ks 0)%Z) (f ks).

(** Iterating over a set yields each of its elements once. *)
Definition range_diff_ok (f : nat -> list nat -> list nat) : Prop :=
  forall n used, Permutation (f n used) (range_minus n used).

Record lawful (rt : runtime) : Prop := mkLawful {
  law_argsort : argsort_ok (argsort rt);
  law_range_diff : range_diff_ok (range_diff rt)
}.

Lemma range_minus_spec n used i :
  In i (range_minus n used) <-> i < n /\ ~ In i used.
Proof.
  unfold range_minus. rewrite filter_In, in_seq, negb_true_iff, mem_false.
  intuition lia.
Qed.

Lemma range_minus_NoDup n used : NoDup (range_minus n used).
Proof. apply NoDup_filter, seq_NoDup. Qed.

Lemma range_diff_spec rt n used i :
  lawful rt -> (In i (range_diff rt n used) <-> i < n /\ ~ In i used).
Proof.
  intros L. rewrite <- range_minus_spec. pose proof (law_range_diff L n used).
  split; apply Permutation_in; [assumption | now apply Permutation_sym].
Qed.

Lemma range_diff_NoDup rt n used : lawful rt -> NoDup (range_diff rt n used).
Proof.
  intros L. eapply Permutation_NoDup.
  - apply Permutation_sym, (law_range_diff L).
  - apply range_minus_NoDup.
Qed.

Lemma argsort_range rt ks i :
  lawful rt -> In i (argsort rt ks) -> i < length ks.
Proof.
  intros L H. destruct (law_argsort L ks) as [P _].
  apply (Permutation_in _ P) in H. apply in_seq in H. lia.
Qed.

(** *** The distance matrix *)

Lemma row_min_in x r : In (fold_left Z.min r x) (x :: r).
Proof.
  revert x. induction r as [|y r IH]; intros x; simpl; [now left|].
  destruct (IH (Z.min x y)) as [H|H]; [|now right; right].
  destruct (Z.min_spec x y) as [[_ E]|[_ E]]; rewrite E in *;
    [left | right; left]; exact H.
Qed.

Lemma index_of_lt v r : In v r -> index_of v r < length r.
Proof.
  induction r as [|x r IH]; simpl; [tauto|].
  intros H. destruct (Z.eqb_spec x v); [lia|].
  destruct H; [congruence|]. specialize (IH H). lia.
Qed.

Lemma row_argmin_lt r : r <> [] -> row_argmin r < length r.
Proof.
  destruct r as [|x r]; [congruence|]. intros _.
  apply index_of_lt. apply row_min_in.
Qed.

Lemma cdist_length ocs ics : length (cdist ocs ics) = length ocs.
Proof. apply length_map. Qed.

Lemma cdist_row ocs ics r :
  r < length ocs ->
  exists oc, nth_error ocs r = Some oc /\
             nth_error (cdist ocs ics) r = Some (map (dist2 oc) ics).
Proof.
  intros H. destruct (nth_error ocs r) as [oc|] eqn:E.
  - exists oc. split; [reflexivity|]. unfold cdist.
    now rewrite nth_error_map, E.
  - apply nth_error_None in E. lia.
Qed.

Lemma take_argmin (D : list (list Z)) rows :
  (forall r, In r rows -> r < length D) ->
  take (map row_argmin D) rows =
  Some (map (fun r => row_argmin (nth r D [])) rows).
Proof.
  induction rows as [|r rows IH]; intros H; simpl; [reflexivity|].
  rewrite IH by (intros r' Hr'; apply H; now right).
  rewrite nth_error_map.
  destruct (nth_error D r) as [row|] eqn:E.
  - simpl. now rewrite (nth_error_nth _ _ _ E).
  - apply nth_error_None in E. specialize (H r (or_introl eq_refl)). lia.
Qed.

(** The pairs the loop goes through: the rows by ascending minimum, each
    with the column of its minimum. *)
Definition pairs_of (rt : runtime) (D : list (list Z)) : list (nat * nat) :=
  let rows := argsort rt (map row_min D) in
  combine rows (map (fun r => row_argmin (nth r D [])) rows).

Lemma in_combine_map A B (f : A -> B) l a b :
  In (a, b) (combine l (map f l)) -> In a l /\ b = f a.
Proof.
  induction l as [|x l IH]; simpl; [tauto|].
  intros [H|H]; [injection H as <- <-; auto|].
  destruct (IH H). auto.
Qed.

Lemma pairs_of_valid rt (o : Dict.t centroid) cents r c :
  lawful rt -> cents <> [] ->
  In (r, c) (pairs_of rt (cdist (Dict.values o) cents)) ->
  exists d k cc,
    entry (cdist (Dict.values o) cents) r c = Some d /\
    nth_error (Dict.keys o) r = Some k /\
    nth_error cents c = Some cc.
Proof.
  intros L Hne H. unfold pairs_of in H. apply in_combine_map in H.
  destruct H as [Hr ->]. apply (@argsort_range rt _ _ L) in Hr.
  rewrite length_map, cdist_length in Hr.
  destruct (@cdist_row _ cents _ Hr) as (oc & Eoc & Erow).
  assert (Hc : row_argmin (nth r (cdist (Dict.values o) cents) []) <
               length cents).
  { rewrite (nth_error_nth _ _ _ Erow).
    rewrite <- (length_map (dist2 oc) cents). apply row_argmin_lt.
    destruct cents; [congruence | discriminate]. }
  set (col := row_argmin _) in *.
  destruct (nth_error cents col) as [cc|] eqn:Ecc;
    [|apply nth_error_None in Ecc; lia].
  unfold Dict.values in Hr. rewrite length_map in Hr.
  destruct (nth_error (Dict.keys o) r) as [k|] eqn:Ek.
  2:{ apply nth_error_None in Ek. unfold Dict.keys in Ek.
      rewrite length_map in Ek. lia. }
  exists (dist2 oc cc), k, cc. split; [|auto].
  unfold entry. rewrite Erow. now rewrite nth_error_map, Ecc.
Qed.

(** ** What one [update] does to a well-formed tracker *)

(** The sets [used_rows] and [used_cols] that [update] ends its assignment
    loop with. *)
Definition used_by (rt : runtime) (s : SimpleTracker) (dets : list box)
  : list nat * list nat :=
  let D := cdist (Dict.values (objects s)) (map Tracker.centroid_of dets) in
  greedy D (pairs_of rt D) ([], []).

(** Track [k] is assigned a detection by [update]: its row ends up in
    [used_rows]. *)
Definition is_matched (rt : runtime) (s : SimpleTracker) (dets : list box)
    (k : nat) : bool :=
  match dets with
  | [] => false
  | _ :: _ =>
      existsb (fun r => match nth_error (ids s) r with
                        | Some k' => Nat.eqb k' k
                        | None => false
                        end)
        (fst (used_by rt s dets))
  end.

Lemma is_matched_row rt s b dets k :
  is_matched rt s (b :: dets) k = true <->
  exists r, In r (fst (used_by rt s (b :: dets))) /\
            nth_error (ids s) r = Some k.
Proof.
  unfold is_matched. rewrite existsb_exists. split; intros [r [Hr Hk]];
    exists r; split; try assumption.
  - destruct (nth_error (ids s) r); [|discriminate].
    apply Nat.eqb_eq in Hk. now subst.
  - rewrite Hk. apply Nat.eqb_refl.
Qed.

Lemma lookup_all X (l : list X) d xs :
  (forall i, In i xs -> i < length l) ->
  map (nth_error l) xs = map Some (map (fun i => nth i l d) xs).
Proof.
  induction xs as [|i xs IH]; intros H; simpl; [reflexivity|].
  f_equal.
  - apply nth_error_nth'. apply H. now left.
  - apply IH. intros j Hj. apply H. now right.
Qed.

Lemma NoDup_map_nth (l : list nat) d xs :
  NoDup l -> NoDup xs -> (forall i, In i xs -> i < length l) ->
  NoDup (map (fun i => nth i l d) xs).
Proof.
  intros Hl Hxs. induction Hxs as [|i xs Hi Hxs IH]; intros Hb; simpl;
    constructor.
  - intros Hin. apply in_map_iff in Hin. destruct Hin as (j & Hj & Hjin).
    assert (j = i); [|subst; contradiction].
    apply (proj1 (NoDup_nth l d) Hl); auto.
    + apply Hb. now right.
    + apply Hb. now left.
  - apply IH. intros j Hj. apply Hb. now right.
Qed.

Lemma get_fresh_zero a n k :
  k < a -> Dict.get k (map (fun i => (i, 0%Z)) (seq a n)) = None.
Proof.
  revert a. induction n as [|n IH]; intros a H; simpl; [reflexivity|].
  destruct (Nat.eqb_spec k a); [lia|]. apply IH. lia.
Qed.

Lemma keys_combine_seq a (cs : list centroid) :
  Dict.keys (combine (seq a (length cs)) cs) = seq a (length cs).
Proof.
  unfold Dict.keys. revert a. induction cs as [|c cs IH]; intros a; simpl;
    [reflexivity|]. f_equal. apply IH.
Qed.

Lemma ids_registered_all cs s :
  ids (registered_all cs s) = ids s ++ seq (next_object_id s) (length cs).
Proof.
  unfold ids, registered_all. simpl. unfold Dict.keys at 1. rewrite map_app.
  f_equal. apply keys_combine_seq.
Qed.

Lemma get_registered_all cs s k :
  k < next_object_id s ->
  Dict.get k (disappeared (registered_all cs s)) = Dict.get k (disappeared s).
Proof.
  intros H. unfold registered_all. simpl. rewrite get_app.
  destruct (Dict.get k (disappeared s)); [reflexivity|].
  now apply get_fresh_zero.
Qed.

Lemma wf_get_below s k d :
  wf s -> Dict.get k (disappeared s) = Some d -> k < next_object_id s.
Proof.
  intros H Hg. apply DictFacts.get_some_in in Hg.
  rewrite <- (wf_keys H) in Hg. pose proof (wf_below H) as Hb.
  rewrite Forall_forall in Hb. now apply Hb.
Qed.

Lemma wf_live_iff s k :
  wf s -> (In k (ids s) <-> Dict.get k (objects s) <> None).
Proof. intros _. symmetry. apply DictFacts.get_in_keys. Qed.

Lemma bind_read A B (f : SimpleTracker -> A) (g : A -> M B) s :
  bind (read f) g s = g (f s) s.
Proof. reflexivity. Qed.

(** The post-condition of [update rt dets] from [s]. *)
Record update_post (rt : runtime) (dets : list box) (s s' : SimpleTracker)
  : Prop := mkPost {
  post_wf : wf s';
  post_max : max_disappeared s' = max_disappeared s;
  post_next : next_object_id s <= next_object_id s';
  post_ids : forall k, In k (ids s') -> In k (ids s) \/ next_object_id s <= k;
  post_count : forall k d,
    Dict.get k (disappeared s) = Some d ->
    Dict.get k (disappeared s') =
    if is_matched rt s dets k then Some 0%Z
    else if (d + 1 >? max_disappeared s)%Z then None else Some (d + 1)%Z
}.

Lemma update_no_detections rt s :
  wf s ->
  exists s',
    returns (Tracker.update rt []) s (objects s') s' /\
    update_post rt [] s s'.
Proof.
  intros H.
  destruct (@mark_loop (Dict.keys (disappeared s)) s H) as
    (s' & R & W & N & Mx & F & E).
  { rewrite <- (wf_keys H). apply DictFacts.sorted_NoDup, (wf_sorted H). }
  { intros k Hk. unfold ids. now rewrite (wf_keys H). }
  exists s'. split.
  { unfold returns, Tracker.update. rewrite bind_read.
    now rewrite (bind_returns _ R). }
  constructor; try assumption; try lia.
  - intros k Hk. left.
    destruct (in_dec Nat.eq_dec k (Dict.keys (disappeared s))) as [Hi|Hn].
    + unfold ids. now rewrite (wf_keys H).
    + destruct (F k Hn) as [Fo _]. apply DictFacts.get_in_keys.
      rewrite <- Fo. now apply DictFacts.get_in_keys.
  - intros k d Hg. simpl.
    specialize (E k d (DictFacts.get_some_in _ _ Hg) Hg).
    destruct (d + 1 >? max_disappeared s)%Z; [assumption | apply E].
Qed.

Lemma update_no_tracks rt b dets s :
  wf s -> objects s = [] ->
  exists s',
    returns (Tracker.update rt (b :: dets)) s (objects s') s' /\
    update_post rt (b :: dets) s s'.
Proof.
  intros H Ho.
  destruct (@register_loop (map Tracker.centroid_of (b :: dets)) s H)
    as [R W].
  exists (registered_all (map Tracker.centroid_of (b :: dets)) s). split.
  { unfold returns, Tracker.update. rewrite bind_read, Ho.
    now rewrite (bind_returns _ R). }
  constructor; try assumption; try reflexivity.
  - simpl. lia.
  - intros k Hk. rewrite ids_registered_all in Hk. apply in_app_or in Hk.
    destruct Hk as [Hk|Hk]; [now left|]. apply in_seq in Hk. right. lia.
  - intros k d Hg. exfalso. apply DictFacts.get_some_in in Hg.
    rewrite <- (wf_keys H), Ho in Hg. exact Hg.
Qed.

Lemma bind_bind A B C (m : M A) (f : A -> M B) (g : B -> M C) s :
  bind (bind m f) g s = bind m (fun a => bind (f a) g) s.
Proof. unfold bind. destruct (m s) as [[a|e] s1]; reflexivity. Qed.

(** The centroids [update] registers as new tracks on a tracker with live
    tracks: those of the unused columns, in the order in which the set
    [unused_cols] yields them. *)
Definition new_centroids (rt : runtime) (s : SimpleTracker) (dets : list box)
  : list centroid :=
  let cents := map Tracker.centroid_of dets in
  map (fun c => nth c cents (0, 0)%Z)
    (range_diff rt (length cents) (snd (used_by rt s dets))).

Lemma update_tracks rt b dets s :
  lawful rt -> wf s -> objects s <> [] ->
  exists s2,
    let s' := registered_all (new_centroids rt s (b :: dets)) s2 in
    returns (Tracker.update rt (b :: dets)) s (objects s') s' /\
    update_post rt (b :: dets) s s' /\
    next_object_id s2 = next_object_id s /\
    (forall k, In k (ids s2) -> In k (ids s)).
Proof.
  intros L H Hne.
  set (cents := map Tracker.centroid_of (b :: dets)).
  set (oids := Dict.keys (objects s)).
  set (D := cdist (Dict.values (objects s)) cents).
  assert (Hlen : length D = length oids).
  { unfold D, oids, Dict.values, Dict.keys.
    now rewrite cdist_length, !length_map. }
  assert (Hnd : NoDup oids).
  { apply DictFacts.sorted_NoDup, (wf_sorted H). }
  (* the assignment loop *)
  destruct (@match_loop D oids cents (pairs_of rt D) ([], []) s H eq_refl)
    as (s1 & R1 & W1 & I1 & N1 & M1 & F1 & Z1).
  { intros r c Hrc. apply (@pairs_of_valid rt (objects s) cents r c L);
      [discriminate | exact Hrc]. }
  assert (Eu : greedy D (pairs_of rt D) ([], []) = used_by rt s (b :: dets))
    by reflexivity.
  destruct (greedy D (pairs_of rt D) ([], [])) as [ur uc] eqn:Eg.
  assert (Hur : forall r, In r ur -> r < length oids).
  { intros r Hr. change ur with (fst (ur, uc)) in Hr. rewrite <- Eg in Hr.
    apply greedy_rows in Hr. destruct Hr as [[]|Hr].
    unfold pairs_of in Hr. apply in_map_iff in Hr.
    destruct Hr as ([r' c'] & <- & Hrc). apply in_combine_l in Hrc.
    apply (@argsort_range rt _ _ L) in Hrc.
    rewrite length_map in Hrc. simpl. lia. }
  (* the sweep over the unused rows *)
  set (rowsU := range_diff rt (length D) ur).
  assert (HrowsU : forall r, In r rowsU -> r < length oids).
  { intros r Hr. apply (range_diff_spec _ _ _ L) in Hr. lia. }
  destruct (@mark_loop (map (fun r => nth r oids 0) rowsU) s1 W1)
    as (s2 & R2 & W2 & N2 & M2 & F2 & E2).
  { apply NoDup_map_nth; auto. now apply range_diff_NoDup. }
  { intros k Hk. apply in_map_iff in Hk. destruct Hk as (r & <- & Hr).
    rewrite I1. apply nth_In. now apply HrowsU. }
  (* the registration of the unused columns *)
  set (colsU := range_diff rt (length cents) uc).
  assert (HcolsU : forall c, In c colsU -> c < length cents).
  { intros c Hc. apply (range_diff_spec _ _ _ L) in Hc. lia. }
  set (cs := map (fun c => nth c cents (0, 0)%Z) colsU).
  destruct (@register_loop cs s2 W2) as [R3 W3].
  assert (Ecs : new_centroids rt s (b :: dets) = cs).
  { unfold new_centroids. fold cents. now rewrite <- Eu. }
  assert (Hold : forall k, In k (ids s2) -> In k (ids s)).
  { intros k Hk. rewrite <- I1.
    destruct (in_dec Nat.eq_dec k (map (fun r => nth r oids 0) rowsU))
      as [Hi|Hn].
    - apply in_map_iff in Hi. destruct Hi as (r & <- & Hr).
      rewrite I1. apply nth_In. now apply HrowsU.
    - destruct (F2 k Hn) as [Fo _]. apply DictFacts.get_in_keys.
      rewrite <- Fo. now apply DictFacts.get_in_keys. }
  exists s2. cbv zeta. rewrite Ecs.
  split; [|split; [|split; [congruence | exact Hold]]].
  { unfold returns in *. destruct s as [n o d m]. simpl in Hne.
    destruct o as [|p o]; [congruence|].
    unfold Tracker.update. rewrite bind_read. cbn [objects]. cbv iota beta.
    rewrite !bind_bind.
    assert (Rt : returns
              (lift IndexError
                 (take (map row_argmin D) (argsort rt (map row_min D))))
              (mkTracker n (p :: o) d m)
              (map (fun r => row_argmin (nth r D []))
                 (argsort rt (map row_min D)))
              (mkTracker n (p :: o) d m)).
    { unfold returns. rewrite take_argmin; [reflexivity|].
      intros r Hr. apply (@argsort_range rt _ _ L) in Hr.
      now rewrite length_map in Hr. }
    etransitivity; [apply (bind_returns _ Rt)|]. rewrite !bind_bind.
    etransitivity; [apply (bind_returns _ R1)|]. cbv iota beta.
    assert (Rm : returns
              (for_each rowsU
                 (fun row => object_id <- lift IndexError (nth_error oids row) ;;
                             Tracker.mark_disappeared object_id))
              s1 tt s2).
    { unfold returns.
      rewrite (@for_each_lookup nat nat _ IndexError Tracker.mark_disappeared
                 rowsU (map (fun r => nth r oids 0) rowsU) s1
                 (lookup_all oids 0 rowsU HrowsU)).
      exact R2. }
    assert (Rr : returns
              (for_each colsU
                 (fun col => c <- lift IndexError (nth_error cents col) ;;
                             Tracker.register c))
              s2 tt (registered_all cs s2)).
    { unfold returns.
      rewrite (@for_each_lookup nat centroid _ IndexError Tracker.register
                 colsU cs s2 (lookup_all cents (0, 0)%Z colsU HcolsU)).
      exact R3. }
    rewrite bind_bind.
    etransitivity; [apply (bind_returns _ Rm)|].
    etransitivity; [apply (bind_returns _ Rr)|]. reflexivity. }
  assert (Hcases : forall k, In k oids ->
            (exists r, In r ur /\ nth_error oids r = Some k) \/
            (In k (map (fun r => nth r oids 0) rowsU) /\
             forall r, In r ur -> nth_error oids r <> Some k)).
  { intros k Hk. apply In_nth_error in Hk. destruct Hk as [r Hr].
    destruct (in_dec Nat.eq_dec r ur) as [Hi|Hn]; [left; eauto|]. right.
    assert (Hlt : r < length oids) by (apply nth_error_Some; congruence).
    split.
    - apply in_map_iff. exists r. split.
      + now apply nth_error_nth.
      + apply (range_diff_spec _ _ _ L). split; [lia | assumption].
    - intros r' Hr' Hk'. assert (r' = r); [|subst; contradiction].
      apply (proj1 (NoDup_nth_error oids) Hnd); [|congruence].
      apply nth_error_Some. congruence. }
  constructor.
  - exact W3.
  - simpl. congruence.
  - simpl. lia.
  - intros k Hk. rewrite ids_registered_all in Hk. apply in_app_or in Hk.
    destruct Hk as [Hk|Hk].
    + left. rewrite <- I1.
      destruct (in_dec Nat.eq_dec k (map (fun r => nth r oids 0) rowsU))
        as [Hi|Hn].
      * apply in_map_iff in Hi. destruct Hi as (r & <- & Hr).
        rewrite I1. apply nth_In. now apply HrowsU.
      * destruct (F2 k Hn) as [Fo _]. apply DictFacts.get_in_keys.
        rewrite <- Fo. now apply DictFacts.get_in_keys.
    + right. apply in_seq in Hk. lia.
  - intros k d Hg.
    assert (Hk : In k oids).
    { unfold oids. rewrite (wf_keys H). eapply DictFacts.get_some_in; eauto. }
    rewrite get_registered_all
      by (rewrite N2, N1; eapply wf_get_below; eauto).
    destruct (Hcases k Hk) as [(r & Hr & Hrk)|[Hi Hun]].
    + assert (Em : is_matched rt s (b :: dets) k = true).
      { apply is_matched_row. exists r. rewrite <- Eu. auto. }
      rewrite Em.
      assert (Hout : ~ In k (map (fun r => nth r oids 0) rowsU)).
      { intros Hi. apply in_map_iff in Hi. destruct Hi as (r' & Hr' & Hin').
        apply (range_diff_spec _ _ _ L) in Hin'. destruct Hin' as [Hlt Hnu].
        assert (r' = r); [|subst; contradiction].
        apply (proj1 (NoDup_nth_error oids) Hnd); [lia|].
        rewrite Hrk, <- Hr'. apply nth_error_nth'. lia. }
      destruct (F2 k Hout) as [_ Fd]. rewrite Fd.
      apply (Z1 r k); auto.
    + assert (Em : is_matched rt s (b :: dets) k = false).
      { destruct (is_matched rt s (b :: dets) k) eqn:Em; [|reflexivity].
        apply is_matched_row in Em. destruct Em as (r & Hr & Hrk).
        rewrite <- Eu in Hr. exfalso. apply (Hun r Hr Hrk). }
      rewrite Em.
      destruct (F1 k) as [_ Fd1].
      { intros r Hr _. now apply Hun. }
      rewrite <- Fd1 in Hg. specialize (E2 k d Hi Hg). rewrite M1 in E2.
      destruct (d + 1 >? max_disappeared s)%Z; [assumption | apply E2].
Qed.

(** From a well-formed state [update] returns, whatever the detections, and
    its effect is the one [update_post] describes. *)
Lemma update_spec rt dets s :
  lawful rt -> wf s ->
  exists s',
    returns (Tracker.update rt dets) s (objects s') s' /\
    update_post rt dets s s'.
Proof.
  intros L H. destruct dets as [|b dets].
  - now apply update_no_detections.
  - destruct (objects s) eqn:Eo.
    + now apply update_no_tracks.
    + destruct (@update_tracks rt b dets s L H) as (s2 & R & P & _);
        [congruence|]. eauto.
Qed.

(** On a tracker with live tracks, the new tracks of an [update] get the
    ids from the id counter on, one after the other, in the order in which
    the set of unused columns is iterated over; the tracks before them are
    tracks that were there already. *)
Lemma update_registers_in_set_order rt b dets s :
  lawful rt -> wf s -> objects s <> [] ->
  let cs := new_centroids rt s (b :: dets) in
  exists old,
    objects (snd (Tracker.update rt (b :: dets) s)) =
    old ++ combine (seq (next_object_id s) (length cs)) cs /\
    forall k, In k (Dict.keys old) -> In k (ids s).
Proof.
  intros L H Hne cs.
  destruct (@update_tracks rt b dets s L H Hne) as (s2 & R & _ & N & Hold).
  cbv zeta in R. unfold returns in R. rewrite R. simpl snd.
  exists (objects s2). unfold registered_all. simpl objects.
  fold cs. rewrite N. split; [reflexivity | exact Hold].
Qed.

(** Every state a tracker can be in is well-formed. *)
Lemma reachable_wf rt s : lawful rt -> reachable rt s -> wf s.
Proof.
  intros L R. induction R as [maxd|s c R IH|s k R IH|s dets R IH].
  - apply wf_init.
  - rewrite (register_returns c IH). now apply wf_registered.
  - destruct (in_dec Nat.eq_dec k (ids s)) as [Hin|Hn].
    + destruct (@deregister_returns k s IH Hin) as (s' & Rd & W & _).
      unfold returns in Rd. now rewrite Rd.
    + apply DictFacts.del_none in Hn.
      unfold Tracker.deregister, del_object, bind, read, lift. simpl.
      now rewrite Hn.
  - destruct (update_spec dets L IH) as (s' & Ru & P).
    unfold returns in Ru. rewrite Ru. apply (post_wf P).
Qed.

(** ** The runtimes of the embedding are lawful *)

Section InsertionSort.
Variable ks : list Z.

Definition key_le (i j : nat) : Prop := (nth i ks 0 <= nth j ks 0)%Z.

Lemma insert_by_perm i l : Permutation (NumPy.insert_by ks i l) (i :: l).
Proof.
  induction l as [|j l IH]; simpl; [reflexivity|].
  destruct (nth i ks 0%Z <? nth j ks 0%Z)%Z; [reflexivity|].
  rewrite IH. apply perm_swap.
Qed.

Lemma insert_by_sorted i l :
  StronglySorted key_le l -> StronglySorted key_le (NumPy.insert_by ks i l).
Proof.
  induction 1 as [|j l Hs IH Hall]; simpl.
  - repeat constructor.
  - destruct (Z.ltb_spec (nth i ks 0%Z) (nth j ks 0%Z)) as [Hlt|Hge].
    + constructor; [now constructor|]. constructor; [unfold key_le; lia|].
      eapply Forall_impl; [|exact Hall]. unfold key_le. intros; lia.
    + constructor; [assumption|].
      eapply Permutation_Forall; [symmetry; apply insert_by_perm|].
      constructor; [exact Hge | exact Hall].
Qed.

Lemma insert_all_perm xs : forall acc,
  Permutation (fold_left (fun acc i => NumPy.insert_by ks i acc) xs acc)
    (xs ++ acc).
Proof.
  induction xs as [|x xs IH]; intros acc; simpl; [reflexivity|].
  rewrite IH, insert_by_perm. symmetry. apply Permutation_middle.
Qed.

Lemma insert_all_sorted xs : forall acc,
  StronglySorted key_le acc ->
  StronglySorted key_le
    (fold_left (fun acc i => NumPy.insert_by ks i acc) xs acc).
Proof.
  induction xs as [|x xs IH]; intros acc H; simpl; [assumption|].
  apply IH. now apply insert_by_sorted.
Qed.
End InsertionSort.

Lemma numpy_argsort_ok : argsort_ok NumPy.argsort.
Proof.
  intros ks. unfold NumPy.argsort. split.
  - rewrite insert_all_perm. now rewrite app_nil_r.
  - apply insert_all_sorted. constructor.
Qed.

Lemma ascending_lawful : lawful ascending.
Proof.
  constructor.
  - apply numpy_argsort_ok.
  - intros n used. reflexivity.
Qed.

(** ** CPython's sets iterate over each element once *)

Module CPythonSetFacts.
Import CPythonSet.

(** The slots a probe looks at, in order.  They depend on the hash and on
    the size of the table, not on its content. *)
Fixpoint path (fuel : nat) (msk i perturb : N) : list nat :=
  match fuel with
  | 0 => []
  | S fuel' =>
      let cnt := if (i + 9 <=? msk)%N then 10 else 1 in
      let perturb' := N.shiftr perturb 5 in
      seq (N.to_nat i) cnt ++
      path fuel' msk (N.land (i * 5 + 1 + perturb') msk) perturb'
  end.

(** A probe for [key] along the slots [p]. *)
Fixpoint scan (tbl : list entry) (key : nat) (p : list nat)
    (freeslot : option nat) : option slot :=
  match p with
  | [] => None
  | j :: p' =>
      match nth j tbl Unused with
      | Unused => Some (FoundUnused j freeslot)
      | Active k =>
          if Nat.eqb k key then Some (FoundActive j)
          else scan tbl key p' freeslot
      | Dummy => scan tbl key p' (Some j)
      end
  end.

(** The first empty slot among [p]. *)
Fixpoint clean_scan (tbl : list entry) (p : list nat) : option nat :=
  match p with
  | [] => None
  | j :: p' =>
      match nth j tbl Unused with
      | Unused => Some j
      | _ => clean_scan tbl p'
      end
  end.

Lemma linear_scan tbl key cnt : forall i fs q,
  scan tbl key (seq i cnt ++ q) fs =
  match linear tbl key i cnt fs with
  | inl s => Some s
  | inr fs' => scan tbl key q fs'
  end.
Proof.
  induction cnt as [|cnt IH]; intros i fs q; simpl; [reflexivity|].
  destruct (nth i tbl Unused) as [| |k]; [reflexivity | apply IH |].
  destruct (Nat.eqb k key); [reflexivity | apply IH].
Qed.

Lemma probe_scan tbl key msk fuel : forall i perturb fs,
  probe fuel tbl key msk i perturb fs =
  scan tbl key (path fuel msk i perturb) fs.
Proof.
  induction fuel as [|fuel IH]; intros i perturb fs; simpl; [reflexivity|].
  rewrite linear_scan.
  destruct (linear tbl key (N.to_nat i) _ fs); [reflexivity | apply IH].
Qed.

Lemma clean_linear_scan tbl cnt : forall i q,
  clean_scan tbl (seq i cnt ++ q) =
  match clean_linear tbl i cnt with
  | Some j => Some j
  | None => clean_scan tbl q
  end.
Proof.
  induction cnt as [|cnt IH]; intros i q; simpl; [reflexivity|].
  destruct (nth i tbl Unused); [reflexivity | apply IH | apply IH].
Qed.

Lemma clean_probe_scan tbl msk fuel : forall i perturb,
  clean_probe fuel tbl msk i perturb =
  clean_scan tbl (path fuel msk i perturb).
Proof.
  induction fuel as [|fuel IH]; intros i perturb; simpl; [reflexivity|].
  rewrite clean_linear_scan.
  destruct (clean_linear tbl (N.to_nat i) _); [reflexivity | apply IH].
Qed.

(** The probe path of [key] in a table of the size of [tbl]. *)
Definition key_path (tbl : list entry) (key : nat) : list nat :=
  let msk := (N.of_nat (length tbl) - 1)%N in
  path (length tbl + 16) msk (N.land (hash key) msk) (hash key).

Lemma find_scan so key :
  find so key = scan (table so) key (key_path (table so) key) None.
Proof. unfold find, key_path, mask. apply probe_scan. Qed.

Lemma path_in_range fuel msk : forall i perturb j,
  (i <= msk)%N -> In j (path fuel msk i perturb) -> j <= N.to_nat msk.
Proof.
  induction fuel as [|fuel IH]; intros i perturb j Hi Hj; simpl in Hj;
    [contradiction|].
  apply in_app_or in Hj. destruct Hj as [Hj|Hj].
  - apply in_seq in Hj. destruct (N.leb_spec (i + 9) msk); lia.
  - eapply IH; [|exact Hj]. apply N.land_le_r.
Qed.

Lemma key_path_in_range tbl key j :
  0 < length tbl -> In j (key_path tbl key) -> j < length tbl.
Proof.
  intros Hl Hj. unfold key_path in Hj. apply path_in_range in Hj.
  - lia.
  - apply N.land_le_r.
Qed.

(** *** Writing a slot *)

Lemma length_write j e tbl : length (write j e tbl) = length tbl.
Proof.
  revert j. induction tbl as [|x tbl IH]; intros [|j]; simpl; auto.
Qed.

Lemma nth_write_same j e tbl :
  j < length tbl -> nth j (write j e tbl) Unused = e.
Proof.
  revert j. induction tbl as [|x tbl IH]; intros [|j] H; simpl in *;
    try lia; [reflexivity|]. apply IH. lia.
Qed.

Lemma nth_write_other j j' e tbl :
  j' <> j -> nth j' (write j e tbl) Unused = nth j' tbl Unused.
Proof.
  revert j j'. induction tbl as [|x tbl IH]; intros [|j] [|j'] H; simpl;
    try reflexivity; try congruence. apply IH. congruence.
Qed.

Lemma key_path_write j e tbl key :
  key_path (write j e tbl) key = key_path tbl key.
Proof. unfold key_path. now rewrite length_write. Qed.

(** *** What a probe finds *)

Lemma scan_active tbl key p : forall fs j,
  scan tbl key p fs = Some (FoundActive j) ->
  In j p /\ nth j tbl Unused = Active key.
Proof.
  induction p as [|h p IH]; intros fs j H; simpl in H; [discriminate|].
  destruct (nth h tbl Unused) as [| |k] eqn:E; [discriminate | |].
  - destruct (IH _ _ H). split; [now right | assumption].
  - destruct (Nat.eqb_spec k key) as [->|Hne].
    + injection H as <-. split; [now left | assumption].
    + destruct (IH _ _ H). split; [now right | assumption].
Qed.

Lemma scan_unused tbl key p : forall fs j fs',
  scan tbl key p fs = Some (FoundUnused j fs') ->
  In j p /\ nth j tbl Unused = Unused.
Proof.
  induction p as [|h p IH]; intros fs j fs' H; simpl in H; [discriminate|].
  destruct (nth h tbl Unused) as [| |k] eqn:E.
  - injection H as <- _. split; [now left | assumption].
  - destruct (IH _ _ _ H). split; [now right | assumption].
  - destruct (Nat.eqb k key); [discriminate|].
    destruct (IH _ _ _ H). split; [now right | assumption].
Qed.

(** Without dummies a probe carries no free slot. *)
Lemma scan_no_dummy tbl key p : forall j fs',
  (forall i, nth i tbl Unused <> Dummy) ->
  scan tbl key p None = Some (FoundUnused j fs') -> fs' = None.
Proof.
  induction p as [|h p IH]; intros j fs' Hd H; simpl in H; [discriminate|].
  destruct (nth h tbl Unused) as [| |k] eqn:E.
  - now injection H as _ <-.
  - exfalso. now apply (Hd h).
  - destruct (Nat.eqb k key); [discriminate|]. now apply (IH j).
Qed.

(** A key that is found stays found at its slot when an empty slot is
    filled with another key ... *)
Lemma scan_stable_fill tbl key p u k' : forall fs j,
  nth u tbl Unused = Unused ->
  scan tbl key p fs = Some (FoundActive j) ->
  scan (write u (Active k') tbl) key p fs = Some (FoundActive j).
Proof.
  intros fs j Hu. revert fs.
  induction p as [|h p IH]; intros fs H; simpl in *; [discriminate|].
  assert (Hh : nth h tbl Unused <> Unused -> h <> u) by congruence.
  destruct (nth h tbl Unused) as [| |k] eqn:E; [discriminate | |];
    rewrite nth_write_other, E by (apply Hh; discriminate).
  - now apply IH.
  - destruct (Nat.eqb k key); [assumption | now apply IH].
Qed.

(** ... and when another key is discarded. *)
Lemma scan_stable_discard tbl key p u k' : forall fs fs' j,
  nth u tbl Unused = Active k' -> k' <> key ->
  scan tbl key p fs = Some (FoundActive j) ->
  scan (write u Dummy tbl) key p fs' = Some (FoundActive j).
Proof.
  intros fs fs' j Hu Hne. revert fs fs'.
  induction p as [|h p IH]; intros fs fs' H; simpl in *; [discriminate|].
  destruct (Nat.eq_dec h u) as [->|Hhu].
  - rewrite Hu in H. destruct (Nat.eqb_spec k' key); [contradiction|].
    assert (Hlt : u < length tbl).
    { destruct (Nat.lt_ge_cases u (length tbl)) as [|Hge]; [assumption|].
      rewrite nth_overflow in Hu by assumption. discriminate. }
    rewrite nth_write_same by assumption. eapply IH; eauto.
  - rewrite nth_write_other by assumption.
    destruct (nth h tbl Unused) as [| |k]; [discriminate | |].
    + eapply IH; eauto.
    + destruct (Nat.eqb k key); [assumption | eapply IH; eauto].
Qed.

(** A key written into the empty slot that its probe found is found
    there. *)
Lemma scan_finds_written tbl key p : forall fs fs' j,
  j < length tbl ->
  scan tbl key p fs = Some (FoundUnused j fs') ->
  scan (write j (Active key) tbl) key p fs = Some (FoundActive j).
Proof.
  intros fs fs' j Hj. revert fs.
  induction p as [|h p IH]; intros fs H; simpl in *; [discriminate|].
  destruct (nth h tbl Unused) as [| |k] eqn:E.
  - injection H as <- _. rewrite nth_write_same by assumption.
    now rewrite Nat.eqb_refl.
  - destruct (scan_unused _ _ _ _ H) as [_ Hu].
    rewrite nth_write_other, E by congruence. now apply IH.
  - destruct (Nat.eqb k key) eqn:Ek; [discriminate|].
    destruct (scan_unused _ _ _ _ H) as [_ Hu].
    rewrite nth_write_other, E, Ek by congruence. now apply IH.
Qed.

(** On a table without dummies and without the key, the probe stops at
    the first empty slot. *)
Lemma scan_clean tbl key p :
  (forall i, nth i tbl Unused <> Dummy) ->
  (forall i, nth i tbl Unused <> Active key) ->
  scan tbl key p None =
  match clean_scan tbl p with
  | Some j => Some (FoundUnused j None)
  | None => None
  end.
Proof.
  intros Hd Hk. induction p as [|h p IH]; simpl; [reflexivity|].
  destruct (nth h tbl Unused) as [| |k] eqn:E; [reflexivity | |].
  - exfalso. now apply (Hd h).
  - destruct (Nat.eqb_spec k key) as [->|Hne]; [|exact IH].
    exfalso. now apply (Hk h).
Qed.


(** *** Tables *)

(** Every key of the table is found by its probe, at the slot it is in. *)
Definition reach (tbl : list entry) : Prop :=
  forall j k,
    nth j tbl Unused = Active k ->
    scan tbl k (key_path tbl k) None = Some (FoundActive j).

Definition no_dummy (tbl : list entry) : Prop :=
  forall i, nth i tbl Unused <> Dummy.

Lemma in_active_keys tbl k :
  In k (active_keys tbl) <-> exists j, nth j tbl Unused = Active k.
Proof.
  unfold active_keys. induction tbl as [|e tbl IH]; simpl.
  - split; [tauto|]. intros [[|j] H]; discriminate.
  - rewrite in_app_iff, IH. split.
    + intros [H|[j H]].
      * exists 0. destruct e; simpl in H; try tauto.
        destruct H as [->|[]]. reflexivity.
      * now exists (S j).
    + intros [[|j] H]; [left; rewrite H; now left | right; now exists j].
Qed.

Lemma slots_NoDup tbl :
  (forall j j' k, nth j tbl Unused = Active k -> nth j' tbl Unused = Active k ->
                  j = j') ->
  NoDup (active_keys tbl).
Proof.
  unfold active_keys. induction tbl as [|e tbl IH]; intros H; simpl;
    [constructor|].
  assert (Ht : NoDup (flat_map (fun e => match e with
                                         | Active k => [k]
                                         | _ => []
                                         end) tbl)).
  { apply IH. intros j j' k Hj Hj'.
    specialize (H (S j) (S j') k Hj Hj'). congruence. }
  destruct e as [| |k]; simpl; try assumption.
  constructor; [|assumption]. intros Hin.
  apply (in_active_keys tbl k) in Hin. destruct Hin as [j Hj].
  specialize (H 0 (S j) k eq_refl Hj). discriminate.
Qed.

Lemma reach_slots tbl j j' k :
  reach tbl -> nth j tbl Unused = Active k -> nth j' tbl Unused = Active k ->
  j = j'.
Proof.
  intros R Hj Hj'. apply R in Hj, Hj'. congruence.
Qed.

Lemma reach_NoDup tbl : reach tbl -> NoDup (active_keys tbl).
Proof.
  intros R. apply slots_NoDup. intros j j' k. now apply reach_slots.
Qed.

Lemma nth_active_lt tbl j k : nth j tbl Unused = Active k -> j < length tbl.
Proof.
  intros H. destruct (Nat.lt_ge_cases j (length tbl)) as [|Hge];
    [assumption|]. rewrite nth_overflow in H by assumption. discriminate.
Qed.

(** Filling the empty slot that the probe of a new key found. *)
Lemma fill_ok tbl key j fs :
  0 < length tbl -> reach tbl ->
  scan tbl key (key_path tbl key) None = Some (FoundUnused j fs) ->
  reach (write j (Active key) tbl) /\
  (forall x, In x (active_keys (write j (Active key) tbl)) <->
             x = key \/ In x (active_keys tbl)) /\
  (no_dummy tbl -> no_dummy (write j (Active key) tbl)).
Proof.
  intros Hl R H.
  destruct (scan_unused _ _ _ _ H) as [Hp Hu].
  assert (Hj : j < length tbl) by (eapply key_path_in_range; eauto).
  split; [|split].
  - intros j0 k Hk. rewrite key_path_write.
    destruct (Nat.eq_dec j0 j) as [->|Hne].
    + rewrite nth_write_same in Hk by assumption. injection Hk as <-.
      eapply scan_finds_written; eauto.
    + rewrite nth_write_other in Hk by assumption.
      apply scan_stable_fill; [assumption | now apply R].
  - intros x. rewrite !in_active_keys. split.
    + intros [j0 Hx]. destruct (Nat.eq_dec j0 j) as [->|Hne].
      * rewrite nth_write_same in Hx by assumption. left. congruence.
      * rewrite nth_write_other in Hx by assumption. right. eauto.
    + intros [->|[j0 Hx]].
      * exists j. now apply nth_write_same.
      * exists j0. rewrite nth_write_other; [assumption|]. congruence.
  - intros Hd i. destruct (Nat.eq_dec i j) as [->|Hne].
    + rewrite nth_write_same by assumption. discriminate.
    + rewrite nth_write_other by assumption. apply Hd.
Qed.

(** Turning the slot of a key into a dummy. *)
Lemma dummy_ok tbl key j :
  reach tbl -> nth j tbl Unused = Active key ->
  reach (write j Dummy tbl) /\
  (forall x, In x (active_keys (write j Dummy tbl)) <->
             In x (active_keys tbl) /\ x <> key).
Proof.
  intros R Hk. pose proof (nth_active_lt _ _ Hk) as Hj. split.
  - intros j0 k H0. rewrite key_path_write.
    destruct (Nat.eq_dec j0 j) as [->|Hne].
    + rewrite nth_write_same in H0 by assumption. discriminate.
    + rewrite nth_write_other in H0 by assumption.
      eapply scan_stable_discard; [exact Hk | | now apply R].
      intros ->. apply Hne. eapply reach_slots; eauto.
  - intros x. rewrite !in_active_keys. split.
    + intros [j0 Hx]. destruct (Nat.eq_dec j0 j) as [->|Hne].
      * rewrite nth_write_same in Hx by assumption. discriminate.
      * rewrite nth_write_other in Hx by assumption. split; [eauto|].
        intros ->. apply Hne. eapply reach_slots; eauto.
    + intros [[j0 Hx] Hne]. exists j0.
      rewrite nth_write_other; [assumption|]. intros ->. congruence.
Qed.

Lemma fresh_table n :
  reach (repeat Unused n) /\ no_dummy (repeat Unused n) /\
  active_keys (repeat Unused n) = [].
Proof.
  assert (H : forall i, nth i (repeat Unused n) Unused = Unused).
  { intros i. destruct (Nat.lt_ge_cases i n).
    - now apply nth_repeat_lt.
    - apply nth_overflow. now rewrite repeat_length. }
  split; [|split].
  - intros j k Hk. rewrite H in Hk. discriminate.
  - intros i. rewrite H. discriminate.
  - clear H. unfold active_keys. induction n; simpl; auto.
Qed.

Lemma insert_clean_ok tbl key tbl' :
  0 < length tbl -> reach tbl -> no_dummy tbl ->
  ~ In key (active_keys tbl) ->
  insert_clean tbl key = Some tbl' ->
  length tbl' = length tbl /\ reach tbl' /\ no_dummy tbl' /\
  (forall x, In x (active_keys tbl') <-> x = key \/ In x (active_keys tbl)).
Proof.
  intros Hl R Hd Hk H. unfold insert_clean in H.
  rewrite clean_probe_scan in H. fold (key_path tbl key) in H.
  assert (Hs := @scan_clean tbl key (key_path tbl key) Hd).
  destruct (clean_scan tbl (key_path tbl key)) as [j|]; [|discriminate].
  injection H as <-. rewrite length_write.
  destruct (@fill_ok tbl key j None Hl R) as (R' & M & D').
  { apply Hs. intros i Hi. apply Hk. apply in_active_keys. eauto. }
  auto.
Qed.

Lemma insert_all_clean_ok ks : forall tbl tbl',
  0 < length tbl -> reach tbl -> no_dummy tbl -> NoDup ks ->
  (forall k, In k ks -> ~ In k (active_keys tbl)) ->
  insert_all_clean ks tbl = Some tbl' ->
  length tbl' = length tbl /\ reach tbl' /\ no_dummy tbl' /\
  (forall x, In x (active_keys tbl') <-> In x ks \/ In x (active_keys tbl)).
Proof.
  induction ks as [|k ks IH]; intros tbl tbl' Hl R Hd Hnd Hdis H; simpl in H.
  - injection H as <-. split; [reflexivity|]. split; [assumption|].
    split; [assumption|]. intros x. simpl. tauto.
  - inversion Hnd as [|? ? Hk Hnd']; subst.
    destruct (insert_clean tbl k) as [tbl1|] eqn:E; [|discriminate].
    destruct (@insert_clean_ok tbl k tbl1 Hl R Hd) as (L1 & R1 & D1 & M1);
      auto.
    { apply Hdis. now left. }
    destruct (IH tbl1 tbl') as (L2 & R2 & D2 & M2); auto; try lia.
    { intros x Hx Hin. apply M1 in Hin. destruct Hin as [->|Hin];
        [contradiction|]. apply (Hdis x); [now right | assumption]. }
    split; [lia|]. split; [assumption|]. split; [assumption|].
    intros x. rewrite M2, M1. simpl. intuition.
Qed.

(** *** Sets *)

Record inv (so : pyset) : Prop := mkInv {
  inv_len : 0 < length (table so);
  inv_reach : reach (table so);
  inv_used : used so = length (iterate so)
}.

Lemma same_elements_length (l l' : list nat) :
  NoDup l -> NoDup l' -> (forall x, In x l <-> In x l') ->
  length l = length l'.
Proof.
  intros H H' E. apply Permutation_length. now apply NoDup_Permutation.
Qed.

Lemma inv_NoDup so : inv so -> NoDup (iterate so).
Proof. intros I. apply reach_NoDup, (inv_reach I). Qed.

Lemma grow_ge fuel : forall newsize m, newsize <= grow fuel newsize m.
Proof.
  induction fuel as [|fuel IH]; intros newsize m; simpl; [lia|].
  destruct (newsize <=? m); [|lia]. eapply Nat.le_trans; [|apply IH]. lia.
Qed.

Lemma inv_empty_set :
  inv empty_set /\ no_dummy (table empty_set) /\ iterate empty_set = [].
Proof.
  destruct (fresh_table 8) as (R & D & A). split; [|split]; try assumption.
  constructor; [simpl; lia | exact R | reflexivity].
Qed.

Lemma resize_ok so m so' :
  inv so -> table_resize so m = Some so' ->
  inv so' /\ no_dummy (table so') /\
  (forall x, In x (iterate so') <-> In x (iterate so)).
Proof.
  intros I H. unfold table_resize in H.
  set (n := grow (S m) 8 m) in *.
  destruct (insert_all_clean (iterate so) (repeat Unused n)) as [tbl|] eqn:E;
    [|discriminate].
  injection H as <-. destruct (fresh_table n) as (R & D & A).
  destruct (@insert_all_clean_ok (iterate so) (repeat Unused n) tbl)
    as (L1 & R1 & D1 & M1); auto.
  { rewrite repeat_length. unfold n. pose proof (grow_ge (S m) 8 m). lia. }
  { now apply inv_NoDup. }
  { intros k _. rewrite A. tauto. }
  assert (M : forall x, In x (active_keys tbl) <-> In x (iterate so)).
  { intros x. rewrite M1, A. simpl. tauto. }
  split; [|split]; simpl; try assumption.
  constructor; simpl.
  - rewrite L1, repeat_length. unfold n. pose proof (grow_ge (S m) 8 m).
    lia.
  - assumption.
  - rewrite (inv_used I). symmetry. apply same_elements_length; auto.
    + now apply reach_NoDup.
    + now apply inv_NoDup.
Qed.

Lemma add_ok so key so' :
  inv so -> no_dummy (table so) -> ~ In key (iterate so) ->
  add so key = Some so' ->
  inv so' /\ no_dummy (table so') /\
  (forall x, In x (iterate so') <-> x = key \/ In x (iterate so)).
Proof.
  intros I D Hk H. unfold add in H. rewrite find_scan in H.
  destruct (scan (table so) key (key_path (table so) key) None)
    as [[j fs|j]|] eqn:E; [| |discriminate].
  2:{ exfalso. apply Hk. apply in_active_keys. exists j.
      now destruct (scan_active _ _ _ _ E). }
  assert (fs = None) by (eapply scan_no_dummy; eauto). subst fs.
  destruct (@fill_ok (table so) key j None (inv_len I) (inv_reach I) E)
    as (R1 & M1 & D1).
  set (so1 := mkSet (write j (Active key) (table so)) (S (fill so))
                (S (used so))) in *.
  assert (I1 : inv so1).
  { constructor; simpl.
    - rewrite length_write. apply (inv_len I).
    - exact R1.
    - rewrite (inv_used I).
      change (S (length (iterate so))) with (length (key :: iterate so)).
      symmetry. apply same_elements_length.
      + now apply reach_NoDup.
      + constructor; [assumption | now apply inv_NoDup].
      + intros x. unfold iterate at 1. simpl table. rewrite M1. simpl.
        unfold iterate. intuition. }
  destruct (_ <? _)%N.
  - injection H as <-. auto.
  - destruct (@resize_ok _ _ _ I1 H) as (I2 & D2 & M2).
    split; [assumption|]. split; [assumption|].
    intros x. rewrite M2. apply M1.
Qed.

Lemma add_all_ok ks : forall so so',
  inv so -> no_dummy (table so) -> NoDup ks ->
  (forall k, In k ks -> ~ In k (iterate so)) ->
  add_all ks so = Some so' ->
  inv so' /\ no_dummy (table so') /\
  (forall x, In x (iterate so') <-> In x ks \/ In x (iterate so)).
Proof.
  induction ks as [|k ks IH]; intros so so' I D Hnd Hdis H; simpl in H.
  - injection H as <-. split; [assumption|]. split; [assumption|].
    intros x. simpl. tauto.
  - inversion Hnd as [|? ? Hk Hnd']; subst.
    destruct (add so k) as [so1|] eqn:E; [|discriminate].
    destruct (@add_ok so k so1 I D) as (I1 & D1 & M1); auto.
    { apply Hdis. now left. }
    destruct (IH so1 so' I1 D1 Hnd') as (I2 & D2 & M2); auto.
    { intros x Hx Hin. apply M1 in Hin. destruct Hin as [->|Hin];
        [contradiction|]. apply (Hdis x); [now right | assumption]. }
    split; [assumption|]. split; [assumption|].
    intros x. rewrite M2, M1. simpl. intuition.
Qed.

Lemma of_range_ok n so :
  of_range n = Some so ->
  inv so /\ no_dummy (table so) /\ (forall x, In x (iterate so) <-> x < n).
Proof.
  intros H. destruct inv_empty_set as (I0 & D0 & A0).
  assert (Hdis : forall k, In k (seq 0 n) -> ~ In k (iterate empty_set)).
  { intros k _. rewrite A0. tauto. }
  destruct (@add_all_ok (seq 0 n) empty_set so I0 D0 (seq_NoDup n 0) Hdis H)
    as (I & D & M).
  split; [assumption|]. split; [assumption|].
  intros x. rewrite M, A0, in_seq. simpl. intuition lia.
Qed.

Lemma discard_ok so key so' :
  inv so -> discard so key = Some so' ->
  inv so' /\
  (forall x, In x (iterate so') <-> In x (iterate so) /\ x <> key).
Proof.
  intros I H. unfold discard in H. rewrite find_scan in H.
  destruct (scan (table so) key (key_path (table so) key) None)
    as [[j fs|j]|] eqn:E; [| |discriminate].
  - injection H as <-. split; [assumption|].
    intros x. split; [|tauto]. intros Hx. split; [assumption|].
    intros ->. apply in_active_keys in Hx. destruct Hx as [j0 Hj0].
    apply (inv_reach I) in Hj0. congruence.
  - injection H as <-.
    destruct (scan_active _ _ _ _ E) as [_ Hj].
    destruct (@dummy_ok (table so) key j (inv_reach I) Hj) as [R1 M1].
    split; [|exact M1].
    constructor; simpl.
    + rewrite length_write. apply (inv_len I).
    + exact R1.
    + assert (Hlen : length (iterate so) =
                     S (length (active_keys (write j Dummy (table so))))).
      { change (S (length ?l)) with (length (key :: l)).
        apply same_elements_length.
        - now apply inv_NoDup.
        - constructor; [|now apply reach_NoDup].
          intros Hin. apply M1 in Hin. tauto.
        - intros x. simpl. rewrite M1.
          destruct (Nat.eq_dec key x) as [->|Hne].
          + split; [auto|]. intros _. apply in_active_keys. eauto.
          + split; [intros Hx; right; split; auto|].
            intros [Hx|[Hx _]]; [congruence | assumption]. }
      rewrite (inv_used I), Hlen. unfold iterate. simpl. lia.
Qed.

Lemma discard_all_ok ks : forall so so',
  inv so -> discard_all ks so = Some so' ->
  inv so' /\
  (forall x, In x (iterate so') <-> In x (iterate so) /\ ~ In x ks).
Proof.
  induction ks as [|k ks IH]; intros so so' I H; simpl in H.
  - injection H as <-. split; [assumption|]. intros x. simpl. tauto.
  - destruct (discard so k) as [so1|] eqn:E; [|discriminate].
    destruct (@discard_ok _ _ _ I E) as [I1 M1].
    destruct (IH so1 so' I1 H) as [I2 M2].
    split; [assumption|]. intros x. rewrite M2, M1. simpl. intuition.
Qed.

Lemma copy_ok so r :
  inv so -> no_dummy (table so) -> copy so = Some r ->
  inv r /\ (forall x, In x (iterate r) <-> In x (iterate so)).
Proof.
  intros I D H. unfold copy in H.
  destruct inv_empty_set as (I0 & D0 & A0).
  destruct (Nat.eqb_spec (used so) 0) as [E0|E0].
  { injection H as <-. split; [assumption|]. intros x. rewrite A0.
    rewrite (inv_used I) in E0. apply length_zero_iff_nil in E0.
    rewrite E0. tauto. }
  set (fresh := if (_ <? _)%N then Some empty_set else _) in H.
  assert (Hf : forall new, fresh = Some new ->
                 inv new /\ no_dummy (table new) /\ iterate new = []).
  { intros new Hn. unfold fresh in Hn. destruct (_ <? _)%N.
    - injection Hn as <-. auto.
    - destruct (@resize_ok _ _ _ I0 Hn) as (I1 & D1 & M1).
      split; [assumption|]. split; [assumption|].
      destruct (iterate new) as [|x l] eqn:El; [reflexivity|].
      exfalso. specialize (M1 x). rewrite A0 in M1. apply M1. now left. }
  destruct fresh as [new|]; [|discriminate].
  destruct (Hf new eq_refl) as (In1 & Dn & An).
  destruct (_ && _).
  - injection H as <-. split; [|tauto].
    constructor; simpl; [apply (inv_len I) | apply (inv_reach I) |
                         apply (inv_used I)].
  - destruct (insert_all_clean (iterate so) (table new)) as [tbl|] eqn:E;
      [|discriminate].
    injection H as <-.
    destruct (@insert_all_clean_ok (iterate so) (table new) tbl)
      as (L1 & R1 & D1 & M1); auto.
    { apply (inv_len In1). }
    { apply (inv_reach In1). }
    { now apply inv_NoDup. }
    { intros k _. unfold iterate in An. rewrite An. tauto. }
    assert (M : forall x, In x (active_keys tbl) <-> In x (iterate so)).
    { intros x. rewrite M1. unfold iterate in An. rewrite An. simpl. tauto. }
    split; [|exact M]. constructor; simpl.
    + rewrite L1. apply (inv_len In1).
    + assumption.
    + rewrite (inv_used I). symmetry. apply same_elements_length; auto.
      * now apply reach_NoDup.
      * now apply inv_NoDup.
Qed.

Lemma existsb_eqb_In k l : existsb (Nat.eqb k) l = true <-> In k l.
Proof.
  rewrite existsb_exists. split.
  - intros [x [Hx E]]. apply Nat.eqb_eq in E. now subst.
  - intros H. exists k. split; [assumption | apply Nat.eqb_refl].
Qed.

Lemma difference_ok so other r :
  inv so -> no_dummy (table so) -> difference so other = Some r ->
  NoDup (iterate r) /\
  (forall x, In x (iterate r) <-> In x (iterate so) /\ ~ In x other).
Proof.
  intros I D H. unfold difference in H.
  set (other' := nodup Nat.eq_dec other) in H.
  assert (Ho : forall x, In x other' <-> In x other)
    by (intros x; apply nodup_In).
  destruct (_ <? _).
  - destruct (copy so) as [r0|] eqn:Ec; [|discriminate].
    destruct (@copy_ok _ _ I D Ec) as [I0 M0].
    destruct (discard_all other' r0) as [r1|] eqn:Ed; [|discriminate].
    destruct (@discard_all_ok _ _ _ I0 Ed) as [I1 M1].
    assert (M : forall x, In x (iterate r1) <->
                          In x (iterate so) /\ ~ In x other).
    { intros x. rewrite M1, M0, Ho. tauto. }
    destruct (_ <=? _)%N.
    + injection H as <-. split; [now apply inv_NoDup | exact M].
    + destruct (@resize_ok _ _ _ I1 H) as (I2 & _ & M2).
      split; [now apply inv_NoDup|]. intros x. rewrite M2. apply M.
  - destruct inv_empty_set as (I0 & D0 & A0).
    set (ks := filter _ (iterate so)) in H.
    assert (Hks : NoDup ks) by (apply NoDup_filter; now apply inv_NoDup).
    assert (Hdis : forall k, In k ks -> ~ In k (iterate empty_set)).
    { intros k _. rewrite A0. tauto. }
    destruct (@add_all_ok ks empty_set r I0 D0 Hks Hdis H) as (I1 & _ & M1).
    split; [now apply inv_NoDup|]. intros x. unfold ks in M1.
    rewrite M1, A0, filter_In, negb_true_iff.
    rewrite <- Ho. pose proof (existsb_eqb_In x other') as Hx.
    destruct (existsb (Nat.eqb x) other'); simpl; intuition congruence.
Qed.

(** Iterating over [set(range(0, n)).difference(used)] on CPython yields
    each index below [n] that is not in [used] once. *)
Lemma range_diff_permutation n used :
  Permutation (CPythonSet.range_diff n used) (range_minus n used).
Proof.
  unfold CPythonSet.range_diff.
  destruct (of_range n) as [so|] eqn:Er; [|reflexivity].
  destruct (difference so used) as [r|] eqn:Ed; [|reflexivity].
  destruct (@of_range_ok _ _ Er) as (I & D & M).
  destruct (@difference_ok _ _ _ I D Ed) as [Hnd Hm].
  apply NoDup_Permutation; [assumption | apply range_minus_NoDup|].
  intros x. rewrite Hm, M, range_minus_spec. tauto.
Qed.

End CPythonSetFacts.

Lemma cpython_lawful : lawful cpython.
Proof.
  constructor.
  - apply numpy_argsort_ok.
  - intros n used. apply CPythonSetFacts.range_diff_permutation.
Qed.

(** ** Sequences of [update] calls on one instance *)

(** The outcome of each call, with the instance as the call leaves it. *)
Fixpoint run (rt : runtime) (batches : list (list box)) (s : SimpleTracker)
  : list (result (Dict.t centroid) * SimpleTracker) :=
  match batches with
  | [] => []
  | dets :: rest =>
      let r := Tracker.update rt dets s in
      r :: run rt rest (snd r)
  end.

(** The instance after the calls. *)
Definition after (rt : runtime) (batches : list (list box))
    (s : SimpleTracker) : SimpleTracker :=
  fold_left (fun s dets => snd (Tracker.update rt dets s)) batches s.

Lemma last_run rt batches : forall s dets dflt,
  last (run rt (dets :: batches) s) dflt =
  Tracker.update rt (last (dets :: batches) []) 
    (after rt (removelast (dets :: batches)) s).
Proof.
  induction batches as [|b batches IH]; intros s dets dflt; [reflexivity|].
  change (run rt (dets :: b :: batches) s) with
    (Tracker.update rt dets s ::
     run rt (b :: batches) (snd (Tracker.update rt dets s))).
  change (last (?x :: run rt (b :: batches) ?s') dflt) with
    (last (run rt (b :: batches) s') dflt).
  rewrite IH. reflexivity.
Qed.

(** *** Idempotence on the empty track set *)

(** C8.  On a tracker without live tracks, any number of [update([])] calls
    in a row registers nothing: every call returns the empty mapping and
    leaves the instance, its id counter included, as it was. *)
Theorem update_empty_idempotent (rt : runtime) (n : nat) (next : nat)
    (maxd : Z) :
  let s := mkTracker next [] [] maxd in
  run rt (repeat [] n) s = repeat (Val [], s) n /\
  after rt (repeat [] n) s = s.
Proof.
  intros s. induction n as [|n [IHr IHa]]; simpl; [split; reflexivity|].
  split.
  - f_equal. exact IHr.
  - exact IHa.
Qed.

(** *** Expiry *)

(** Track [k] gets no detection in any call of the sequence. *)
Fixpoint never_matched (rt : runtime) (k : nat) (s : SimpleTracker)
    (batches : list (list box)) : Prop :=
  match batches with
  | [] => True
  | dets :: rest =>
      is_matched rt s dets k = false /\
      never_matched rt k (snd (Tracker.update rt dets s)) rest
  end.

Lemma update_post_absent rt dets s s' k :
  wf s -> update_post rt dets s s' -> k < next_object_id s ->
  Dict.get k (disappeared s) = None -> Dict.get k (disappeared s') = None.
Proof.
  intros H P Hlt Hg. apply DictFacts.get_none_iff.
  rewrite <- (wf_keys (post_wf P)). intros Hin.
  destruct (post_ids P k Hin) as [Hi|Hge]; [|lia].
  unfold ids in Hi. rewrite (wf_keys H) in Hi.
  now apply DictFacts.get_none_iff in Hg.
Qed.

(** After [n] calls without a match the counter of a track that is still
    there has gone up by [n] and is within the threshold. *)
Lemma unmatched_counts rt k batches : forall s d,
  lawful rt -> wf s -> k < next_object_id s ->
  (forall c, Dict.get k (disappeared s) = Some c -> (d <= c)%Z) ->
  never_matched rt k s batches ->
  wf (after rt batches s) /\
  max_disappeared (after rt batches s) = max_disappeared s /\
  forall c, Dict.get k (disappeared (after rt batches s)) = Some c ->
            (d + Z.of_nat (length batches) <= c)%Z /\
            (batches <> [] -> (c <= max_disappeared s)%Z).
Proof.
  induction batches as [|dets batches IH]; intros s d L H Hlt Hd Hn.
  - simpl. split; [assumption|]. split; [reflexivity|].
    intros c Hc. split; [|congruence]. specialize (Hd c Hc). lia.
  - destruct Hn as [Hm Hn].
    destruct (update_spec dets L H) as (s1 & R & P).
    unfold returns in R. unfold after. simpl fold_left. 
    rewrite R in *. simpl snd in *. fold (after rt batches s1).
    assert (Hd1 : forall c, Dict.get k (disappeared s1) = Some c ->
                            (d + 1 <= c <= max_disappeared s)%Z).
    { intros c Hc. destruct (Dict.get k (disappeared s)) as [c0|] eqn:E0.
      - rewrite (post_count P _ E0), Hm in Hc. specialize (Hd c0 eq_refl).
        destruct (Z.gtb_spec (c0 + 1) (max_disappeared s)); [discriminate|].
        injection Hc as <-. lia.
      - rewrite (update_post_absent H P Hlt E0) in Hc. discriminate. }
    destruct (IH s1 (d + 1)%Z L (post_wf P)) as (W & Mx & C); auto.
    { pose proof (post_next P). lia. }
    { intros c Hc. apply Hd1 in Hc. lia. }
    split; [assumption|]. split; [rewrite Mx; apply (post_max P)|].
    intros c Hc. destruct (C c Hc) as [C1 C2]. split.
    + rewrite length_cons. lia.
    + intros _. destruct batches as [|b batches].
      * simpl in Hc. apply Hd1 in Hc. lia.
      * rewrite <- (post_max P). apply C2. discriminate.
Qed.

(** C4.  A live track that gets no detection in [max_disappeared + 1] (or
    more) consecutive [update] calls, calls without detections included, is
    absent from the mapping the last of these calls returns.  In any single
    call, a live track is deregistered exactly when it gets no detection
    and its counter, increased by one, exceeds [max_disappeared]. *)
Theorem unmatched_track_expires (rt : runtime) (s : SimpleTracker) (k : nat)
    (batches : list (list box)) :
  lawful rt -> wf s -> In k (ids s) ->
  never_matched rt k s batches ->
  batches <> [] ->
  (max_disappeared s + 1 <= Z.of_nat (length batches))%Z ->
  (exists m s',
     last (run rt batches s) (Val [], s) = (Val m, s') /\
     ~ In k (Dict.keys m)) /\
  (forall dets d,
     Dict.get k (disappeared s) = Some d ->
     (~ In k (ids (snd (Tracker.update rt dets s))) <->
      is_matched rt s dets k = false /\ (d + 1 > max_disappeared s)%Z)).
Proof.
  intros L H Hin Hn Hne Hlen. split.
  - destruct batches as [|b0 batches]; [congruence|].
    rewrite last_run.
    destruct (@exists_last _ (b0 :: batches) Hne) as (front & dets & E).
    rewrite E in *. rewrite removelast_last, last_last.
    assert (Hfront : never_matched rt k s front /\
                     is_matched rt (after rt front s) dets k = false).
    { clear -Hn. revert s Hn. induction front as [|b front IH]; intros s Hn.
      - simpl in *. tauto.
      - destruct Hn as [Hm Hn]. destruct (IH _ Hn) as [A B].
        split; [split; assumption | exact B]. }
    destruct Hfront as [Hf Hm].
    assert (Hlt : k < next_object_id s).
    { pose proof (wf_below H) as Hb. rewrite Forall_forall in Hb. auto. }
    destruct (@unmatched_counts rt k front s 0%Z L H Hlt) as (W & Mx & C);
      auto.
    { intros c Hc. eapply wf_counts; eauto. }
    set (s1 := after rt front s) in *.
    destruct (update_spec dets L W) as (s' & R & P).
    unfold returns in R. rewrite R. exists (objects s'), s'.
    split; [reflexivity|]. fold (ids s'). intros Hk.
    apply (wf_live_objects k (post_wf P)) in Hk. apply Hk.
    rewrite length_app in Hlen. simpl in Hlen.
    destruct (Dict.get k (disappeared s1)) as [c|] eqn:Ec.
    + rewrite (post_count P _ Ec), Hm. destruct (C c eq_refl) as [C1 C2].
      destruct (Z.gtb_spec (c + 1) (max_disappeared s1)); [reflexivity|].
      lia.
    + eapply update_post_absent; eauto.
      assert (Hmono : forall bs t, lawful rt -> wf t ->
                next_object_id t <= next_object_id (after rt bs t)).
      { clear. induction bs as [|b bs IH]; intros t L W; [simpl; lia|].
        destruct (update_spec b L W) as (t1 & R & P). unfold returns in R.
        unfold after. simpl. rewrite R. simpl. fold (after rt bs t1).
        pose proof (post_next P). specialize (IH t1 L (post_wf P)). lia. }
      specialize (Hmono front s L H). unfold s1. lia.
  - intros dets d Hg. destruct (update_spec dets L H) as (s' & R & P).
    unfold returns in R. rewrite R. simpl snd.
    rewrite (wf_live_objects k (post_wf P)), (post_count P _ Hg).
    destruct (is_matched rt s dets k).
    + split; [intros Hc; exfalso; apply Hc; discriminate|].
      intros [Hc _]. discriminate.
    + destruct (Z.gtb_spec (d + 1) (max_disappeared s)).
      * split; [intros _; split; [reflexivity | lia]|]. intros _ Hc.
        now apply Hc.
      * split; [intros Hc; exfalso; apply Hc; discriminate|].
        intros [_ Hc]. lia.
Qed.

(** *** Track ids *)

(** [s'] is [s] after some number of [update] calls. *)
Inductive updates_to (rt : runtime) : SimpleTracker -> SimpleTracker -> Prop :=
| updates_none s : updates_to rt s s
| updates_call s dets s' :
    updates_to rt (snd (Tracker.update rt dets s)) s' -> updates_to rt s s'.

Lemma updates_to_wf rt s s' :
  lawful rt -> updates_to rt s s' -> wf s ->
  wf s' /\ next_object_id s <= next_object_id s'.
Proof.
  intros L U. induction U as [s|s dets s' U IH]; intros H; [split; auto|].
  destruct (update_spec dets L H) as (s1 & R & P). unfold returns in R.
  rewrite R in IH. simpl in IH. destruct (IH (post_wf P)) as [W N].
  split; [assumption|]. pose proof (post_next P). lia.
Qed.

(** C7.  Ids count up from 0 and are never reused.  Along any sequence of
    [update] calls on a new tracker: an id that a call newly registers is
    greater than every id that was live after any earlier call, tracks
    deregistered since included; the live ids are listed in ascending
    order and all lie below the id counter, which starts at 0. *)
Theorem ids_increase_and_are_never_reused (rt : runtime) (maxd : Z)
    (s1 s2 : SimpleTracker) (dets : list box) :
  lawful rt ->
  updates_to rt (Tracker.init maxd) s1 ->
  updates_to rt s1 s2 ->
  let s3 := snd (Tracker.update rt dets s2) in
  next_object_id (Tracker.init maxd) = 0 /\
  Forall (fun k => k < next_object_id s3) (ids s3) /\
  StronglySorted lt (ids s3) /\
  forall k k',
    In k (ids s1) -> In k' (ids s3) -> ~ In k' (ids s2) -> k < k'.
Proof.
  intros L U1 U2 s3.
  destruct (updates_to_wf L U1 (wf_init maxd)) as [W1 _].
  destruct (updates_to_wf L U2 W1) as [W2 N12].
  destruct (update_spec dets L W2) as (s' & R & P). unfold returns in R.
  unfold s3. rewrite R. simpl snd.
  split; [reflexivity|]. split; [apply (wf_below (post_wf P))|].
  split; [apply (wf_sorted (post_wf P))|].
  intros k k' Hk Hk' Hnew.
  destruct (post_ids P k' Hk') as [Hold|Hge]; [contradiction|].
  pose proof (wf_below W1) as Hb. rewrite Forall_forall in Hb.
  specialize (Hb k Hk). lia.
Qed.

(** *** The distance gate *)

(** The Euclidean distance of two centroids. *)
Definition euclidean (p q : centroid) : R := sqrt (IZR (dist2 p q)).

Lemma dist2_nonneg p q : (0 <= dist2 p q)%Z.
Proof. unfold dist2. apply Z.add_nonneg_nonneg; apply Z.square_nonneg. Qed.

Lemma sqrt_2500 : sqrt 2500 = 50%R.
Proof.
  replace 2500%R with (50 * 50)%R by lra. apply sqrt_square. lra.
Qed.

(** The comparison with the gate is decided by the squared distance. *)
Lemma euclidean_gt_50 p q :
  (euclidean p q > 50)%R <-> (dist2 p q > 2500)%Z.
Proof.
  unfold euclidean. rewrite <- sqrt_2500.
  pose proof (dist2_nonneg p q) as H0. apply IZR_le in H0.
  split; intros H.
  - apply Z.lt_gt. apply lt_IZR. apply sqrt_lt_0; [lra | assumption |].
    exact H.
  - apply Z.gt_lt in H. apply IZR_lt in H. apply sqrt_lt_1; [lra | lra |].
    exact H.
Qed.

Lemma euclidean_le_50 p q :
  (euclidean p q <= 50)%R <-> (dist2 p q <= 2500)%Z.
Proof.
  pose proof (euclidean_gt_50 p q) as H. split; intros Hle.
  - destruct (Z_le_gt_dec (dist2 p q) 2500) as [Hz|Hz]; [assumption|].
    apply H in Hz. lra.
  - destruct (Rle_or_lt (euclidean p q) 50) as [Hr|Hr]; [assumption|].
    apply H in Hr. lia.
Qed.

Lemma entry_cdist ocs cents row col oc c :
  nth_error ocs row = Some oc -> nth_error cents col = Some c ->
  entry (cdist ocs cents) row col = Some (dist2 oc c).
Proof.
  intros Ho Hc. unfold entry, cdist.
  now rewrite nth_error_map, Ho; simpl; rewrite nth_error_map, Hc.
Qed.

(** The instance after a match of track [k] with centroid [c]. *)
Definition matched_with (k : nat) (c : centroid) (s : SimpleTracker)
  : SimpleTracker :=
  mkTracker (next_object_id s) (Dict.set k c (objects s))
    (Dict.set k 0%Z (disappeared s)) (max_disappeared s).

(** C10.  The gate is strict.  When the loop body gets to a pair whose row
    and column are both unused, it accepts the pair if the Euclidean
    distance between the track and the detection is at most 50, so also if
    it is exactly 50: the track takes the detection's centroid, its counter
    is reset and both indexes become used.  It rejects the pair, changing
    nothing, only if the distance is greater than 50. *)
Theorem gate_is_strict (ocs cents : list centroid) (oids ur uc : list nat)
    (row col k : nat) (oc c : centroid) (s : SimpleTracker) :
  nth_error ocs row = Some oc ->
  nth_error oids row = Some k ->
  nth_error cents col = Some c ->
  mem row ur = false -> mem col uc = false ->
  let body :=
    Tracker.match_pair (cdist ocs cents) oids cents (ur, uc) (row, col) in
  ((euclidean oc c = 50)%R ->
   body s = (Val (ur ++ [row], uc ++ [col]), matched_with k c s)) /\
  ((euclidean oc c <= 50)%R <->
   body s = (Val (ur ++ [row], uc ++ [col]), matched_with k c s)) /\
  ((euclidean oc c > 50)%R <-> body s = (Val (ur, uc), s)).
Proof.
  intros Ho Hk Hc Hr Hcol body.
  pose proof (entry_cdist ocs cents row col Ho Hc) as He. unfold entry in He.
  assert (Hbody : body s =
            if (dist2 oc c >? 2500)%Z then (Val (ur, uc), s)
            else (Val (ur ++ [row], uc ++ [col]), matched_with k c s)).
  { unfold body, Tracker.match_pair. rewrite Hr, Hcol. simpl orb. cbv iota.
    unfold bind at 1. rewrite He. simpl.
    destruct (dist2 oc c >? 2500)%Z; [reflexivity|].
    unfold bind at 1. rewrite Hk. simpl. unfold bind at 1. rewrite Hc.
    reflexivity. }
  assert (Hdiff : (Val (ur ++ [row], uc ++ [col]), matched_with k c s) <>
                  (Val (ur, uc), s)).
  { intros E. injection E as E _ _. 
    apply (f_equal (@length nat)) in E. rewrite length_app in E.
    simpl in E. lia. }
  rewrite Hbody. split; [|split].
  - intros E. assert (Hle : (euclidean oc c <= 50)%R) by lra.
    apply euclidean_le_50 in Hle.
    destruct (Z.gtb_spec (dist2 oc c) 2500) as [Hg|Hg]; [lia | reflexivity].
  - rewrite euclidean_le_50.
    destruct (Z.gtb_spec (dist2 oc c) 2500) as [Hg|Hg]; split; intros H;
      try reflexivity; try lia. symmetry in H. contradiction.
  - rewrite euclidean_gt_50.
    destruct (Z.gtb_spec (dist2 oc c) 2500) as [Hg|Hg]; split; intros H;
      try reflexivity; try lia. contradiction.
Qed.

(** ** Geometry: the ray-casting rule *)

Module GeometryFacts.
Import VideoProcessor.

(** The vertices of a polygon whose vertex lists all have two entries. *)
Definition points (poly : polygon) : list (Z * Z) :=
  map (fun v => (nth 0 v 0%Z, nth 1 v 0%Z)) poly.

Definition well_formed (poly : polygon) : Prop :=
  Forall (fun v => length v = 2) poly.

(** The edges in order, the last vertex joined to the first. *)
Definition edges (pts : list (Z * Z)) : list ((Z * Z) * (Z * Z)) :=
  combine pts (tl pts ++ firstn 1 pts).

(** The rule of the code for one edge [(p1, p2)] and the point [(x, y)]. *)
Definition crosses (x y : Z) (e : (Z * Z) * (Z * Z)) : bool :=
  let '((p1x, p1y), (p2x, p2y)) := e in
  (y >? Z.min p1y p2y)%Z && (y <=? Z.max p1y p2y)%Z &&
  (x <=? Z.max p1x p2x)%Z &&
  ((p1x =? p2x)%Z || Qle_bool (inject_Z x) (xinters_at y p1x p1y p2x p2y)).


(** Even-odd rule: the flag after toggling once per [true]. *)
Definition parity (toggles : list bool) : bool := fold_left xorb toggles false.

Lemma unpack2_points v : length v = 2 -> unpack2 v = Val (nth 0 v 0%Z, nth 1 v 0%Z).
Proof.
  destruct v as [|a [|b [|c v]]]; simpl; intros H; try discriminate.
  reflexivity.
Qed.

Lemma vertex_at_points poly i :
  well_formed poly -> i < length poly ->
  vertex_at poly i = Val (nth i (points poly) (0, 0)%Z).
Proof.
  intros W Hi. unfold vertex_at.
  destruct (nth_error poly i) as [v|] eqn:E;
    [|apply nth_error_None in E; lia].
  unfold well_formed in W. rewrite Forall_forall in W.
  rewrite (@unpack2_points v (W v (nth_error_In _ _ E))).
  unfold points.
  rewrite (nth_indep _ (0, 0)%Z (nth 0 [] 0%Z, nth 1 [] 0%Z))
    by (now rewrite length_map).
  rewrite (map_nth (fun v => (nth 0 v 0%Z, nth 1 v 0%Z)) poly []).
  now rewrite (nth_error_nth _ _ _ E).
Qed.

(** A loop that starts each round with a lookup runs on what it finds. *)
Lemma rfold_lookup X Y S (look : X -> result Y) (f : S -> Y -> result S)
    xs : forall ys s,
  map look xs = map Val ys ->
  rfold (fun st x => rbind (look x) (f st)) xs s = rfold f ys s.
Proof.
  induction xs as [|x xs IH]; intros [|y ys] s Hm; simpl in *;
    try discriminate; [reflexivity|].
  injection Hm as Hx Hm. rewrite Hx. simpl.
  destruct (f s y) as [s1|e]; simpl; [now apply IH | reflexivity].
Qed.

(** The vertices the loop visits: all of them, then the first again. *)
Lemma visited poly :
  well_formed poly -> poly <> [] ->
  map (fun i => vertex_at poly (i mod length poly)) (seq 0 (length poly + 1)) =
  map Val (points poly ++ firstn 1 (points poly)).
Proof.
  intros W Hne.
  assert (Hn : 0 < length poly) by (destruct poly; [congruence | simpl; lia]).
  set (n := length poly) in *.
  rewrite seq_app, !map_app. f_equal.
  - unfold points. rewrite map_map.
    apply nth_ext with (d := Exc IndexError) (d' := Exc IndexError).
    + now rewrite !length_map, length_seq.
    + intros i Hi. rewrite length_map, length_seq in Hi.
      rewrite (nth_indep _ _ (vertex_at poly (n mod n)))
        by (now rewrite length_map, length_seq).
      rewrite (map_nth (fun i => vertex_at poly (i mod n))).
      rewrite seq_nth by assumption. simpl.
      rewrite Nat.mod_small by assumption.
      rewrite vertex_at_points by assumption.
      rewrite (nth_indep _ _ (Val (nth 0 [] 0%Z, nth 1 [] 0%Z)))
        by (now rewrite length_map).
      rewrite (map_nth (fun v => Val (nth 0 v 0%Z, nth 1 v 0%Z)) poly []).
      f_equal. unfold points.
      rewrite (nth_indep _ (0, 0)%Z (nth 0 [] 0%Z, nth 1 [] 0%Z))
        by (now rewrite length_map).
      now rewrite (map_nth (fun v => (nth 0 v 0%Z, nth 1 v 0%Z)) poly []).
  - simpl. rewrite Nat.Div0.mod_same.
    rewrite vertex_at_points by assumption.
    unfold points. destruct poly; [congruence | reflexivity].
Qed.

(** One round of the loop toggles the flag exactly when the edge from the
    previous vertex to this one satisfies the rule; it never reads
    [xinters] before assigning it. *)
Lemma edge_step_crosses x y st p2 :
  exists xi,
    edge_step x y st p2 =
    Val (mkRay (xorb (inside st) (crosses x y (p1 st, p2))) p2 xi).
Proof.
  unfold edge_step, crosses. destruct (p1 st) as [p1x p1y], p2 as [p2x p2y].
  destruct (Z.gtb_spec y (Z.min p1y p2y)) as [Hgt|Hle]; simpl;
    [|rewrite xorb_false_r; eauto].
  destruct (Z.leb_spec y (Z.max p1y p2y)) as [Hmax|Hmax]; simpl;
    [|rewrite xorb_false_r; eauto].
  destruct (x <=? Z.max p1x p2x)%Z; simpl; [|rewrite xorb_false_r; eauto].
  assert (Hne : (p1y =? p2y)%Z = false) by (apply Z.eqb_neq; lia).
  rewrite Hne. simpl.
  destruct (p1x =? p2x)%Z; simpl; [rewrite xorb_true_r; eauto|].
  destruct (Qle_bool _ _); [rewrite xorb_true_r | rewrite xorb_false_r];
    eauto.
Qed.

Lemma rfold_edges x y ps : forall st,
  exists st',
    rfold (edge_step x y) ps st = Val st' /\
    inside st' =
    fold_left xorb (map (crosses x y) (combine (p1 st :: ps) ps)) (inside st).
Proof.
  induction ps as [|p ps IH]; intros st; simpl; [eauto|].
  destruct (edge_step_crosses x y st p) as [xi E]. rewrite E. simpl.
  destruct (IH (mkRay (xorb (inside st) (crosses x y (p1 st, p))) p xi))
    as (st' & R & I).
  exists st'. split; [exact R | exact I].
Qed.

Lemma combine_app_l A B (l e : list A) (l' : list B) :
  length l = length l' -> combine (l ++ e) l' = combine l l'.
Proof.
  revert l'. induction l as [|a l IH]; intros [|b l'] H; simpl in *;
    try discriminate.
  - now destruct e.
  - f_equal. apply IH. lia.
Qed.

Lemma crosses_horizontal x y p1x p2x py :
  crosses x y ((p1x, py), (p2x, py)) = false.
Proof.
  unfold crosses. rewrite Z.min_id, Z.max_id.
  destruct (Z.gtb_spec y py), (Z.leb_spec y py); simpl; try reflexivity. lia.
Qed.

Lemma point_in_polygon_parity x y poly :
  well_formed poly -> poly <> [] ->
  point_in_polygon (x, y) poly =
  Val (parity (map (crosses x y) (edges (points poly)))).
Proof.
  intros W Hne. unfold point_in_polygon.
  assert (Hn : 0 < length poly) by (destruct poly; [congruence | simpl; lia]).
  rewrite (vertex_at_points W Hn). simpl rbind.
  rewrite (@rfold_lookup _ _ _ _ (edge_step x y) _ _ _ (visited W Hne)).
  destruct (rfold_edges x y (points poly ++ firstn 1 (points poly))
              (mkRay false (nth 0 (points poly) (0, 0)%Z) None))
    as (st' & R & I).
  rewrite R. simpl rbind. f_equal. rewrite I. cbn [inside p1].
  unfold parity, edges. destruct (points poly) as [|[p0x p0y] pts] eqn:Ep.
  { destruct poly; [congruence | discriminate]. }
  cbn [nth firstn tl app].
  change (combine ((p0x, p0y) :: (p0x, p0y) :: pts ++ [(p0x, p0y)])
            ((p0x, p0y) :: pts ++ [(p0x, p0y)]))
    with (((p0x, p0y), (p0x, p0y)) ::
          combine (((p0x, p0y) :: pts) ++ [(p0x, p0y)])
            (pts ++ [(p0x, p0y)])).
  cbn [map fold_left]. rewrite crosses_horizontal. cbn [xorb].
  rewrite combine_app_l; [reflexivity|].
  rewrite length_app. simpl. lia.
Qed.

End GeometryFacts.




(** ** Zones *)

Module ZoneFacts.
Import VideoProcessor.

(** The polygon of zone [z] holds the point [c] by the geometry test. *)
Definition holds (z : zone) (c : centroid) : Prop :=
  point_in_polygon c (coordinates z) = Val true.

(** A zone as the data model has it: at least three vertices, each a
    pair. *)
Definition valid (z : zone) : Prop :=
  validate_coordinates (coordinates z) = true.

Lemma validate_coordinates_spec coords :
  validate_coordinates coords = true <->
  3 <= length coords /\ Forall (fun v => length v = 2) coords.
Proof.
  unfold validate_coordinates.
  destruct (Nat.eqb_spec (length coords) 0) as [E0|E0]; simpl.
  - split; [discriminate | lia].
  - destruct (Nat.ltb_spec (length coords) 3) as [E3|E3].
    + split; [discriminate | lia].
    + rewrite forallb_forall, Forall_forall. split.
      * intros H. split; [assumption|]. intros v Hv.
        specialize (H v Hv). apply andb_true_iff in H.
        now apply Nat.eqb_eq.
      * intros [_ H] v Hv. apply andb_true_iff. split.
        -- apply Nat.eqb_eq. now apply H.
        -- apply forallb_forall. reflexivity.
Qed.

Lemma valid_decides z c :
  valid z -> exists b, point_in_polygon c (coordinates z) = Val b.
Proof.
  intros H. apply validate_coordinates_spec in H. destruct H as [Hl W].
  destruct c as [x y]. eexists.
  apply GeometryFacts.point_in_polygon_parity; [exact W|].
  destruct (coordinates z); [simpl in Hl; lia | discriminate].
Qed.



End ZoneFacts.


(** A zone whose polygon has two vertices only. *)
Definition segment_zone : VideoProcessor.zone :=
  VideoProcessor.mkZone 2 "aisle"%string [[0; 0]; [10; 10]]%Z.

Definition square_zone : VideoProcessor.zone :=
  VideoProcessor.mkZone 1 "entrance"%string [[0; 0]; [10; 0]; [10; 10]; [0; 10]]%Z.

(** [load_zones] accepts a zone that [validate_coordinates] rejects, and
    the zones loaded before are gone. *)
Lemma load_zones_accepts_invalid_zone :
  let p := VideoProcessor.mkProcessor (Tracker.init 50) [square_zone] in
  validate_coordinates (VideoProcessor.coordinates segment_zone) = false /\
  VideoProcessor.load_zones [segment_zone] p =
  (Val tt, VideoProcessor.mkProcessor (Tracker.init 50) [segment_zone]) /\
  VideoProcessor.zones (snd (VideoProcessor.load_zones [segment_zone] p)) <>
  VideoProcessor.zones p.
Proof.
  split; [reflexivity|]. split; [reflexivity|]. simpl. intros H.
  injection H as H. discriminate.
Qed.

(** C2, amended.  [load_zones] does not validate: for every list of zones
    it returns normally and leaves the processor with exactly that list as
    its zones and with its tracker untouched, so the supplied zones are
    installed all at once.  The test for at least three vertices, each a
    pair, is [validate_coordinates], which [load_zones] does not call. *)
Theorem load_zones_replaces_snapshot (zs : list VideoProcessor.zone)
    (p : VideoProcessor.processor) :
  VideoProcessor.load_zones zs p =
  (Val tt, VideoProcessor.mkProcessor (VideoProcessor.tracker p) zs) /\
  (forall coords,
     validate_coordinates coords = true <->
     3 <= length coords /\ Forall (fun v => length v = 2) coords).
Proof.
  split; [reflexivity | apply ZoneFacts.validate_coordinates_spec].
Qed.

(** ** Frame sampling *)

Module SamplingFacts.
Import VideoProcessor.

Section Indexing.
Variable frame : Type.

(** The frames of [frames] whose index, counted from [start], is a
    multiple of [stride], each with that index. *)
Definition sampled (stride start : nat) (frames : list frame)
  : list (nat * frame) :=
  filter (fun ix => fst ix mod stride =? 0)
    (combine (seq start (length frames)) frames).

Lemma sampled_cons stride k (f : frame) (frames : list frame) :
  sampled stride k (f :: frames) =
  if k mod stride =? 0 then (k, f) :: sampled stride (S k) frames
  else sampled stride (S k) frames.
Proof. reflexivity. Qed.

Lemma in_combine_seq i (f : frame) (frames : list frame) : forall k,
  In (i, f) (combine (seq k (length frames)) frames) <->
  k <= i /\ nth_error frames (i - k) = Some f.
Proof.
  induction frames as [|g frames IH]; intros k.
  - simpl. split; [tauto|]. intros [_ H]. destruct (i - k); discriminate.
  - cbn [length seq combine In]. rewrite IH. split.
    + intros [H|[Hk H]].
      * injection H as -> ->. rewrite Nat.sub_diag. auto.
      * split; [lia|]. replace (i - k) with (S (i - S k)) by lia. exact H.
    + intros [Hk H]. destruct (Nat.eq_dec k i) as [->|Hne].
      * rewrite Nat.sub_diag in H. simpl in H. injection H as ->. now left.
      * right. split; [lia|].
        replace (i - k) with (S (i - S k)) in H by lia. exact H.
Qed.

Lemma sampled_spec stride (frames : list frame) i (f : frame) :
  In (i, f) (sampled stride 0 frames) <->
  nth_error frames i = Some f /\ i mod stride = 0.
Proof.
  unfold sampled. rewrite filter_In, in_combine_seq. cbn [fst].
  rewrite Nat.eqb_eq, Nat.sub_0_r. intuition lia.
Qed.
End Indexing.

Section Sampling.
Variable rt : runtime.
Variable frame : Type.
Variable detect : frame -> list box.

(** [process_frame] on each of the given frames in turn, and nothing
    else: the results are collected, and the callback, if there is one,
    gets the index that comes with the frame. *)
Fixpoint process_each (callback : bool) (fs : list (nat * frame))
    (results : list frame_result) (calls : list nat) (p : processor)
  : result (list frame_result * list nat) * processor :=
  match fs with
  | [] => (Val (results, calls), p)
  | (i, f) :: rest =>
      match process_frame rt detect f p with
      | (Exc e, p') => (Exc e, p')
      | (Val r, p') =>
          process_each callback rest (results ++ [r])
            (if callback then calls ++ [i] else calls) p'
      end
  end.

Lemma video_loop_sampled callback frames : forall k results calls p,
  video_loop rt detect callback frames k results calls p =
  process_each callback (sampled 5 k frames) results calls p.
Proof.
  induction frames as [|f frames IH]; intros k results calls p;
    [reflexivity|].
  rewrite sampled_cons. cbn [video_loop].
  destruct (k mod 5 =? 0) eqn:E.
  - cbn [process_each].
    destruct (process_frame rt detect f p) as [[r|e] p']; [|reflexivity].
    rewrite Nat.add_1_r. apply IH.
  - rewrite Nat.add_1_r. apply IH.
Qed.

End Sampling.
End SamplingFacts.

(** With the stride set to 2, six frames would give three results; the
    code samples every fifth frame, whatever it is called with, and gives
    two. *)
Lemma stride_is_not_configurable :
  let frames := [0; 1; 2; 3; 4; 5] in
  let detect := fun _ : nat => @nil box in
  VideoProcessor.process_video cpython detect (Some frames) false
    VideoProcessor.init <>
  SamplingFacts.process_each cpython detect false
    (SamplingFacts.sampled 2 0 frames) [] [] VideoProcessor.init.
Proof. vm_compute. discriminate. Qed.

(** C6, amended.  The stride is the constant 5.  [process_video] does to
    the processor, and returns, exactly what [process_frame] does on the
    frames with index 0, 5, 10, ... taken one after another: a frame with
    any other index yields no result, is never handed to the detector and
    never reaches [update], so the tracker's counters move on sampled
    frames only. *)
Theorem process_video_samples_every_fifth_frame (rt : runtime)
    (frame : Type) (detect : frame -> list box) (frames : list frame)
    (callback : bool) (p : VideoProcessor.processor) :
  VideoProcessor.process_video rt detect (Some frames) callback p =
  SamplingFacts.process_each rt detect callback
    (SamplingFacts.sampled 5 0 frames) [] [] p /\
  (forall i f,
     In (i, f) (SamplingFacts.sampled 5 0 frames) <->
     nth_error frames i = Some f /\ i mod 5 = 0).
Proof.
  split.
  - unfold VideoProcessor.process_video.
    apply SamplingFacts.video_loop_sampled.
  - intros i f. exact (SamplingFacts.sampled_spec 5 frames i f).
Qed.

(** ** Registration order on CPython *)

(** Boxes 20 wide and 40 high with the given centroids. *)
Definition boxes_around (cs : list centroid) : list box :=
  map (fun c => (fst c - 10, snd c - 20, 20, 40)%Z) cs.

(** Five people in a row, and the next frame: the same five, each a few
    pixels to the right, and four more people further down. *)
Definition five_people : list box :=
  boxes_around [(100, 100); (300, 100); (500, 100); (700, 100); (900, 100)]%Z.

Definition nine_people : list box :=
  boxes_around [(101, 100); (302, 100); (503, 100); (704, 100); (905, 100);
                (100, 400); (300, 400); (500, 400); (700, 400)]%Z.

(** C1, on CPython.  After the five people of the first frame have ids 0
    to 4, the second frame matches them again and leaves the detections 5,
    6, 7 and 8 unmatched.  [unused_cols] is a set; CPython iterates over
    it in the order 8, 5, 6, 7, so the new id 5 goes to detection 8, the
    last of the input, and not to detection 5. *)
Theorem new_tracks_not_in_input_order :
  let s5 := snd (Tracker.update cpython five_people (Tracker.init 50)) in
  Dict.keys (objects s5) = [0; 1; 2; 3; 4] /\
  used_by cpython s5 nine_people = ([0; 1; 2; 3; 4], [0; 1; 2; 3; 4]) /\
  range_diff cpython 9 [0; 1; 2; 3; 4] = [8; 5; 6; 7] /\
  fst (Tracker.update cpython nine_people s5) =
  Val [(0, (101, 100)%Z); (1, (302, 100)%Z); (2, (503, 100)%Z);
       (3, (704, 100)%Z); (4, (905, 100)%Z); (5, (700, 400)%Z);
       (6, (100, 400)%Z); (7, (300, 400)%Z); (8, (500, 400)%Z)].
Proof. vm_compute. repeat split. Qed.

(** ** The theorems at concrete inputs *)

(** A tracker with one live track and [max_disappeared = 1]. *)
Definition lone_track : SimpleTracker :=
  mkTracker 1 [(0, (5, 5)%Z)] [(0, 0%Z)] 1.

Lemma wf_lone_track : wf lone_track.
Proof.
  constructor.
  - reflexivity.
  - repeat constructor.
  - repeat constructor.
  - intros k d. simpl. destruct (Nat.eqb k 0); [|discriminate].
    intros [= <-]. lia.
Qed.

Lemma maps_have_same_keys_witness :
  let s := snd (Tracker.update cpython five_people (Tracker.init 50)) in
  reachable cpython s /\
  (In 3 (Dict.keys (objects s)) <-> In 3 (Dict.keys (disappeared s))).
Proof.
  intros s. assert (R : reachable cpython s).
  { unfold s. apply reach_update. apply reach_init. }
  split; [exact R | exact (maps_have_same_keys R 3)].
Defined.

Lemma unmatched_track_expires_witness :
  wf lone_track /\ In 0 (ids lone_track) /\
  never_matched cpython 0 lone_track [[]; []] /\
  (max_disappeared lone_track + 1 <= Z.of_nat (List.length [@nil box; []]))%Z /\
  ((exists m s',
      last (run cpython [[]; []] lone_track) (Val [], lone_track) =
      (Val m, s') /\
      ~ In 0 (Dict.keys m)) /\
   (forall dets d,
      Dict.get 0 (disappeared lone_track) = Some d ->
      (~ In 0 (ids (snd (Tracker.update cpython dets lone_track))) <->
       is_matched cpython lone_track dets 0 = false /\
       (d + 1 > max_disappeared lone_track)%Z))).
Proof.
  assert (Hin : In 0 (ids lone_track)) by (simpl; auto).
  assert (Hn : never_matched cpython 0 lone_track [[]; []])
    by (simpl; auto).
  assert (Hlen : (max_disappeared lone_track + 1 <=
                  Z.of_nat (List.length [@nil box; []]))%Z) by (simpl; lia).
  split; [exact wf_lone_track|]. split; [exact Hin|]. split; [exact Hn|].
  split; [exact Hlen|].
  apply (@unmatched_track_expires cpython lone_track 0 [[]; []]
           cpython_lawful wf_lone_track Hin Hn).
  - discriminate.
  - exact Hlen.
Defined.

Lemma ids_increase_and_are_never_reused_witness :
  let s1 := snd (Tracker.update cpython five_people (Tracker.init 30)) in
  let s3 := snd (Tracker.update cpython nine_people s1) in
  updates_to cpython (Tracker.init 30) s1 /\
  updates_to cpython s1 s1 /\
  (next_object_id (Tracker.init 30) = 0 /\
   Forall (fun k => k < next_object_id s3) (ids s3) /\
   StronglySorted lt (ids s3) /\
   forall k k',
     In k (ids s1) -> In k' (ids s3) -> ~ In k' (ids s1) -> k < k').
Proof.
  intros s1 s3.
  assert (U1 : updates_to cpython (Tracker.init 30) s1).
  { unfold s1. eapply updates_call. apply updates_none. }
  assert (U2 : updates_to cpython s1 s1) by apply updates_none.
  split; [exact U1|]. split; [exact U2|].
  exact (@ids_increase_and_are_never_reused cpython 30 s1 s1 nine_people
           cpython_lawful U1 U2).
Defined.

Lemma euclidean_30_40 : euclidean (0, 0)%Z (30, 40)%Z = 50%R.
Proof.
  unfold euclidean. change (dist2 (0, 0)%Z (30, 40)%Z) with 2500%Z.
  apply sqrt_2500.
Qed.

Lemma gate_is_strict_witness :
  let s := mkTracker 1 [(0, (0, 0)%Z)] [(0, 3%Z)] 50 in
  let body :=
    Tracker.match_pair (cdist [(0, 0)%Z] [(30, 40)%Z]) [0] [(30, 40)%Z]
      ([], []) (0, 0) in
  euclidean (0, 0)%Z (30, 40)%Z = 50%R /\
  ((euclidean (0, 0)%Z (30, 40)%Z = 50%R ->
    body s = (Val ([] ++ [0], [] ++ [0]), matched_with 0 (30, 40)%Z s)) /\
   ((euclidean (0, 0)%Z (30, 40)%Z <= 50)%R <->
    body s = (Val ([] ++ [0], [] ++ [0]), matched_with 0 (30, 40)%Z s)) /\
   ((euclidean (0, 0)%Z (30, 40)%Z > 50)%R <-> body s = (Val ([], []), s))).
Proof.
  intros s body. split; [exact euclidean_30_40|].
  apply (@gate_is_strict [(0, 0)%Z] [(30, 40)%Z] [0] [] [] 0 0 0
           (0, 0)%Z (30, 40)%Z s); reflexivity.
Defined.




(** * Further properties of the tracker *)

(** ** [register] and [deregister] *)

Lemma del_snoc V (d : Dict.t V) k v :
  ~ In k (Dict.keys d) -> Dict.del k (d ++ [(k, v)]) = Some d.
Proof.
  induction d as [|[k' v'] d IH]; simpl; intros H.
  - now rewrite Nat.eqb_refl.
  - destruct (Nat.eqb_spec k k') as [->|Hne]; [exfalso; apply H; now left|].
    rewrite IH; [reflexivity|]. intros Hin. apply H. now right.
Qed.

Lemma get_snoc V (d : Dict.t V) k v :
  ~ In k (Dict.keys d) -> Dict.get k (d ++ [(k, v)]) = Some v.
Proof.
  intros H. rewrite get_app. apply DictFacts.get_none_iff in H. rewrite H.
  simpl. now rewrite Nat.eqb_refl.
Qed.

(** X1.  On a well-formed tracker [register] files the centroid under the
    id the counter shows, with a counter of 0; a [deregister] of that id
    right after gives back both maps as they were before, and the id
    counter stays one up, so the id is not handed out again. *)
Theorem register_then_deregister (c : centroid) (s : SimpleTracker) :
  wf s ->
  let n := next_object_id s in
  let s1 := snd (Tracker.register c s) in
  Tracker.register c s = (Val tt, s1) /\
  Dict.get n (objects s1) = Some c /\
  Dict.get n (disappeared s1) = Some 0%Z /\
  Tracker.deregister n s1 =
  (Val tt, mkTracker (n + 1) (objects s) (disappeared s) (max_disappeared s)).
Proof.
  intros H n s1. pose proof (register_returns c H) as R. unfold returns in R.
  pose proof (wf_fresh H) as Hf. fold n in Hf.
  assert (Hd : ~ In n (Dict.keys (disappeared s))).
  { rewrite <- (wf_keys H). exact Hf. }
  unfold s1. rewrite R. cbn [snd]. unfold registered. cbn [objects disappeared].
  fold n. split; [reflexivity|].
  split; [now apply get_snoc|]. split; [now apply get_snoc|].
  unfold Tracker.deregister, del_object, del_disappeared, bind, read, lift,
    put_objects, put_disappeared, ret. cbn [objects disappeared next_object_id
    max_disappeared].
  rewrite del_snoc by exact Hf. cbn [objects disappeared next_object_id
    max_disappeared].
  now rewrite del_snoc by exact Hd.
Qed.

(** X2.  On a well-formed tracker [deregister] raises [KeyError] and
    changes nothing when the id is not live; when the id is live it
    returns, removes exactly that id and leaves every other track and the
    id counter alone. *)
Theorem deregister_raises_iff_not_live (k : nat) (s : SimpleTracker) :
  wf s ->
  (~ In k (ids s) -> Tracker.deregister k s = (Exc KeyError, s)) /\
  (In k (ids s) ->
   exists s',
     Tracker.deregister k s = (Val tt, s') /\
     ids s' = DictFacts.remove1 k (ids s) /\
     ~ In k (ids s') /\
     next_object_id s' = next_object_id s /\
     forall k', k' <> k -> unchanged_at k' s s').
Proof.
  intros H. split.
  - intros Hn. apply DictFacts.del_none in Hn.
    unfold Tracker.deregister, del_object, bind, read, lift. simpl.
    now rewrite Hn.
  - intros Hin.
    destruct (Dict.del k (objects s)) as [o'|] eqn:Eo;
      [|apply DictFacts.del_none in Eo; contradiction].
    destruct (@deregister_returns k s H Hin) as (s' & R & W & N & _ & G & F).
    exists s'. split; [exact R|].
    assert (Hids : ids s' = DictFacts.remove1 k (ids s)).
    { unfold returns, Tracker.deregister, del_object, del_disappeared, bind,
        read, lift, put_objects, put_disappeared, ret in R. simpl in R.
      rewrite Eo in R. simpl in R.
      destruct (Dict.del k (disappeared s)) as [d'|] eqn:Ed; simpl in R;
        [|discriminate].
      injection R as <-. unfold ids. simpl.
      apply (DictFacts.keys_del _ _ Eo). }
    split; [exact Hids|]. split; [|split; [exact N | exact F]].
    rewrite Hids. apply DictFacts.sorted_not_in_remove1, (wf_sorted H).
Qed.

(** ** [update] *)

(** X3.  On a tracker without tracks, whatever its id counter and whatever
    the runtime, [update] with detections registers every detection, in
    input order: detection [i] gets the id [next_object_id + i] and a
    counter of 0, and the mapping returned lists them in that order. *)
Theorem first_frame_ids_follow_input_order (rt : runtime) (b : box)
    (dets : list box) (next : nat) (maxd : Z) :
  let cents := map Tracker.centroid_of (b :: dets) in
  let new_ids := seq next (length cents) in
  Tracker.update rt (b :: dets) (mkTracker next [] [] maxd) =
  (Val (combine new_ids cents),
   mkTracker (next + length cents) (combine new_ids cents)
     (map (fun k => (k, 0%Z)) new_ids) maxd).
Proof.
  intros cents new_ids.
  assert (H : wf (mkTracker next [] [] maxd)).
  { constructor; simpl; try constructor. intros k d Hg. discriminate. }
  destruct (@register_loop cents _ H) as [R _].
  unfold Tracker.update. rewrite bind_read. cbn [objects]. fold cents.
  now rewrite (bind_returns _ R).
Qed.

(** [update] without detections, track by track. *)
Lemma update_no_detections_detail rt s :
  wf s ->
  exists s',
    returns (Tracker.update rt []) s (objects s') s' /\ wf s' /\
    next_object_id s' = next_object_id s /\
    max_disappeared s' = max_disappeared s /\
    (forall k, In k (ids s') -> In k (ids s)) /\
    (forall k d,
       Dict.get k (disappeared s) = Some d ->
       if (d + 1 >? max_disappeared s)%Z
       then Dict.get k (objects s') = None /\
            Dict.get k (disappeared s') = None
       else Dict.get k (objects s') = Dict.get k (objects s) /\
            Dict.get k (disappeared s') = Some (d + 1)%Z).
Proof.
  intros H.
  destruct (@mark_loop (Dict.keys (disappeared s)) s H) as
    (s' & R & W & N & Mx & F & E).
  { rewrite <- (wf_keys H). apply DictFacts.sorted_NoDup, (wf_sorted H). }
  { intros k Hk. unfold ids. now rewrite (wf_keys H). }
  exists s'. split.
  { unfold returns, Tracker.update. rewrite bind_read.
    now rewrite (bind_returns _ R). }
  split; [exact W|]. split; [exact N|]. split; [exact Mx|]. split.
  - intros k Hk.
    destruct (in_dec Nat.eq_dec k (Dict.keys (disappeared s))) as [Hi|Hn].
    + unfold ids. now rewrite (wf_keys H).
    + destruct (F k Hn) as [Fo _]. apply DictFacts.get_in_keys.
      rewrite <- Fo. now apply DictFacts.get_in_keys.
  - intros k d Hd.
    specialize (E k d (DictFacts.get_some_in _ _ Hd) Hd).
    destruct (d + 1 >? max_disappeared s)%Z.
    + split; [|exact E]. apply DictFacts.get_none_iff.
      apply DictFacts.get_none_iff in E. unfold keys_agree in *.
      now rewrite (wf_keys W).
    + destruct E as [Ed Eo]. split; [exact Eo | exact Ed].
Qed.

(** X4.  An [update] without detections creates no track and moves none:
    it returns the tracker's [objects] as they are after the call, the id
    counter stays, no id appears that was not live, every track whose
    counter plus one exceeds [max_disappeared] is gone from both maps, and
    every other track keeps its centroid and has its counter increased by
    one. *)
Theorem update_without_detections_only_ages (rt : runtime)
    (s : SimpleTracker) :
  wf s ->
  let s' := snd (Tracker.update rt [] s) in
  Tracker.update rt [] s = (Val (objects s'), s') /\
  next_object_id s' = next_object_id s /\
  (forall k, In k (ids s') -> In k (ids s)) /\
  (forall k c d,
     Dict.get k (objects s) = Some c ->
     Dict.get k (disappeared s) = Some d ->
     if (d + 1 >? max_disappeared s)%Z
     then Dict.get k (objects s') = None /\
          Dict.get k (disappeared s') = None
     else Dict.get k (objects s') = Some c /\
          Dict.get k (disappeared s') = Some (d + 1)%Z).
Proof.
  intros H s'.
  destruct (update_no_detections_detail rt H) as
    (s1 & R & _ & N & _ & Hids & E).
  unfold returns in R. unfold s'. rewrite R. cbn [snd].
  split; [reflexivity|]. split; [exact N|]. split; [exact Hids|].
  intros k c d Ho Hd. specialize (E k d Hd).
  destruct (d + 1 >? max_disappeared s)%Z; [exact E|].
  destruct E as [Eo Ed]. split; [congruence | exact Ed].
Qed.


(** *** The assignment loop never uses an index twice *)

(** What holds of [used_rows] and [used_cols] in the loop over the pairs
    [P]: they grow together, hold no index twice, and position by position
    they are pairs of [P] within the distance gate. *)
Record one_to_one (D : list (list Z)) (P : list (nat * nat))
    (acc : list nat * list nat) : Prop := mkOne {
  one_rows : NoDup (fst acc);
  one_cols : NoDup (snd acc);
  one_length : length (fst acc) = length (snd acc);
  one_pairs : forall i r c,
    nth_error (fst acc) i = Some r -> nth_error (snd acc) i = Some c ->
    In (r, c) P /\ exists d, entry D r c = Some d /\ (d <= 2500)%Z
}.

Lemma NoDup_snoc (l : list nat) x : NoDup l -> ~ In x l -> NoDup (l ++ [x]).
Proof.
  intros Hl Hx. apply NoDup_app; [assumption | repeat constructor; auto |].
  intros a Ha [<-|[]]. contradiction.
Qed.

Lemma match_pair_one_to_one D P oids cents acc rc s acc' s' :
  In rc P -> one_to_one D P acc ->
  Tracker.match_pair D oids cents acc rc s = (Val acc', s') ->
  one_to_one D P acc'.
Proof.
  intros Hin I. destruct acc as [ur uc], rc as [row col].
  unfold Tracker.match_pair.
  destruct (mem row ur || mem col uc) eqn:Eu.
  { intros [= <- _]. exact I. }
  apply orb_false_iff in Eu. destruct Eu as [Er Ec].
  apply mem_false in Er, Ec.
  unfold bind at 1.
  destruct (match nth_error D row with
            | Some r => nth_error r col
            | None => None
            end) as [d|] eqn:Ed; simpl; [|discriminate].
  destruct (Z.gtb_spec d 2500) as [Hg|Hg].
  { intros [= <- _]. exact I. }
  unfold bind at 1. destruct (nth_error oids row) as [k|]; simpl;
    [|discriminate].
  unfold bind at 1. destruct (nth_error cents col) as [c|]; simpl;
    [|discriminate].
  intros [= <- _]. destruct I as [Nr Nc Hl Hp]. simpl in *.
  constructor; simpl.
  - now apply NoDup_snoc.
  - now apply NoDup_snoc.
  - rewrite !length_app. simpl. lia.
  - intros i r c0 Hr Hc.
    destruct (Nat.lt_ge_cases i (length ur)) as [Hi|Hi].
    + rewrite nth_error_app1 in Hr by assumption.
      rewrite nth_error_app1 in Hc by lia. now apply (Hp i).
    + rewrite nth_error_app2 in Hr by assumption.
      rewrite nth_error_app2 in Hc by lia. rewrite <- Hl in Hc.
      destruct (i - length ur) as [|j]; simpl in Hr, Hc.
      * injection Hr as <-. injection Hc as <-. split; [assumption|].
        exists d. split; [exact Ed | lia].
      * destruct j; discriminate.
Qed.

Lemma match_loop_one_to_one D P oids cents pairs : forall acc s acc' s',
  incl pairs P -> one_to_one D P acc ->
  for_fold pairs acc (Tracker.match_pair D oids cents) s = (Val acc', s') ->
  one_to_one D P acc'.
Proof.
  induction pairs as [|rc pairs IH]; intros acc s acc' s' Hi I; simpl.
  - intros [= <- _]. exact I.
  - unfold bind.
    destruct (Tracker.match_pair D oids cents acc rc s) as [[acc1|e] s1] eqn:E;
      [|discriminate].
    apply IH; [intros x Hx; apply Hi; now right|].
    eapply match_pair_one_to_one; eauto. apply Hi. now left.
Qed.

(** X6.  Whatever the distance matrix, the ids, the centroids and the
    tracker state: if the assignment loop of [update] runs through, the
    sets [used_rows] and [used_cols] it ends with hold no index twice and
    have the same size, and position by position they are (row, column)
    pairs the loop was given whose distance is at most 50.  No track gets
    two detections and no detection goes to two tracks. *)
Theorem assignment_is_one_to_one (D : list (list Z)) (oids : list nat)
    (cents : list centroid) (pairs : list (nat * nat))
    (s s' : SimpleTracker) (used_rows used_cols : list nat) :
  for_fold pairs ([], []) (Tracker.match_pair D oids cents) s =
  (Val (used_rows, used_cols), s') ->
  NoDup used_rows /\ NoDup used_cols /\
  length used_rows = length used_cols /\
  forall i row col,
    nth_error used_rows i = Some row -> nth_error used_cols i = Some col ->
    In (row, col) pairs /\
    exists d, entry D row col = Some d /\ (d <= 2500)%Z.
Proof.
  intros R.
  assert (I : one_to_one D pairs (used_rows, used_cols)).
  { eapply match_loop_one_to_one; [apply incl_refl | | exact R].
    constructor; simpl; [constructor | constructor | reflexivity |].
    intros i r c Hr. destruct i; discriminate. }
  destruct I as [A B C E]. auto.
Qed.

(** *** What [update] does to each track and each detection *)

Lemma assign_extends D acc rc :
  exists xr xc,
    assign D acc rc = (fst acc ++ xr, snd acc ++ xc) /\ length xr = length xc.
Proof.
  unfold assign. destruct (accepted D acc rc).
  - exists [fst rc], [snd rc]. auto.
  - exists [], []. rewrite !app_nil_r. destruct acc; auto.
Qed.

Lemma greedy_extends D pairs : forall acc,
  exists xr xc,
    greedy D pairs acc = (fst acc ++ xr, snd acc ++ xc) /\
    length xr = length xc.
Proof.
  induction pairs as [|rc pairs IH]; intros acc; simpl.
  - exists [], []. rewrite !app_nil_r. destruct acc; auto.
  - destruct (assign_extends D acc rc) as (xr & xc & E & Hl).
    destruct (IH (assign D acc rc)) as (yr & yc & E' & Hl').
    fold (greedy D pairs (assign D acc rc)). rewrite E'. rewrite E. simpl.
    exists (xr ++ yr), (xc ++ yc). rewrite !app_assoc, !length_app.
    split; [reflexivity | lia].
Qed.

(** The track of every row the loop accepts has the centroid of the
    column accepted with it. *)
Lemma match_loop_centroids D oids cents pairs : forall acc s s',
  wf s -> ids s = oids ->
  (forall r c, In (r, c) pairs ->
     exists d k cc, entry D r c = Some d /\ nth_error oids r = Some k /\
                    nth_error cents c = Some cc) ->
  length (fst acc) = length (snd acc) ->
  returns (for_fold pairs acc (Tracker.match_pair D oids cents)) s
    (greedy D pairs acc) s' ->
  forall i r c k cc,
    length (fst acc) <= i ->
    nth_error (fst (greedy D pairs acc)) i = Some r ->
    nth_error (snd (greedy D pairs acc)) i = Some c ->
    nth_error oids r = Some k -> nth_error cents c = Some cc ->
    Dict.get k (objects s') = Some cc.
Proof.
  induction pairs as [|[r0 c0] pairs IH]; intros acc s s' H Hids Hv Hl R
    i r c k cc Hi Hr Hc Hk Hcc.
  - simpl in Hr. assert (nth_error (fst acc) i = None)
      by now apply nth_error_None.
    congruence.
  - destruct (Hv r0 c0 (or_introl eq_refl)) as (d0 & k0 & cc0 & He & Hk0 & Hc0).
    assert (Hin : In k0 (ids s)).
    { rewrite Hids. eapply nth_error_In; eauto. }
    destruct (@match_pair_returns D oids cents acc r0 c0 s d0 k0 cc0 H Hin He
                Hk0 Hc0) as (s1 & R1 & W1 & I1 & N1 & M1 & A1 & S1 & F1).
    assert (Hv' : forall r c, In (r, c) pairs ->
              exists d k cc, entry D r c = Some d /\
                nth_error oids r = Some k /\ nth_error cents c = Some cc).
    { intros r' c' Hrc. apply Hv. now right. }
    assert (R' : returns
              (for_fold pairs (assign D acc (r0, c0))
                 (Tracker.match_pair D oids cents)) s1
              (greedy D pairs (assign D acc (r0, c0))) s').
    { unfold returns in *. simpl in R. now rewrite (bind_returns _ R1) in R. }
    simpl in Hr, Hc. fold (greedy D pairs (assign D acc (r0, c0))) in Hr, Hc.
    assert (Hl1 : length (fst (assign D acc (r0, c0))) =
                  length (snd (assign D acc (r0, c0)))).
    { destruct (assign_extends D acc (r0, c0)) as (xr & xc & E & Hx).
      rewrite E. simpl. rewrite !length_app. lia. }
    destruct (accepted D acc (r0, c0)) eqn:Ea.
    + assert (Eacc : assign D acc (r0, c0) = (fst acc ++ [r0], snd acc ++ [c0])).
      { unfold assign. now rewrite Ea. }
      destruct (Nat.eq_dec i (length (fst acc))) as [->|Hne].
      * destruct (greedy_extends D pairs (assign D acc (r0, c0)))
          as (xr & xc & E & Hx).
        rewrite E, Eacc in Hr, Hc. simpl in Hr, Hc.
        rewrite <- app_assoc in Hr, Hc. simpl in Hr, Hc.
        rewrite nth_error_app2 in Hr by lia.
        rewrite Hl in Hc. rewrite nth_error_app2 in Hc by lia.
        rewrite Nat.sub_diag in Hr, Hc. simpl in Hr, Hc.
        injection Hr as <-. injection Hc as <-.
        assert (k = k0) by congruence. assert (cc = cc0) by congruence.
        subst k cc.
        destruct (A1 eq_refl) as [_ Ho].
        destruct (@match_loop D oids cents pairs (assign D acc (r0, c0)) s1 W1)
          as (s'' & R'' & _ & _ & _ & _ & F & _); [congruence | exact Hv' |].
        unfold returns in R', R''. rewrite R' in R''. injection R'' as <-.
        destruct (F k0) as [Fo _]; [|congruence].
        intros r' Hr' Hn' Hk'. apply Hn'. rewrite Eacc. simpl.
        assert (Hnd : NoDup oids).
        { rewrite <- Hids. apply DictFacts.sorted_NoDup, (wf_sorted H). }
        assert (r' = r0).
        { apply (proj1 (NoDup_nth_error oids) Hnd); [|congruence].
          apply nth_error_Some. congruence. }
        subst r'. apply in_or_app. right. now left.
      * apply (IH (assign D acc (r0, c0)) s1 s' W1 (eq_trans I1 Hids) Hv' Hl1
                 R' i r c k cc); auto.
        rewrite Eacc. simpl. rewrite length_app. simpl. lia.
    + assert (Eacc : assign D acc (r0, c0) = acc).
      { unfold assign. now rewrite Ea. }
      rewrite (S1 eq_refl) in *.
      apply (IH (assign D acc (r0, c0)) s s' H Hids Hv' Hl1 R' i r c k cc);
        auto.
      now rewrite Eacc.
Qed.

Lemma range_minus_length n used :
  NoDup used -> (forall i, In i used -> i < n) ->
  length (range_minus n used) + length used = n.
Proof.
  intros Hnd Hb.
  assert (P : Permutation (range_minus n used ++ used) (seq 0 n)).
  { apply NoDup_Permutation.
    - apply NoDup_app; [apply range_minus_NoDup | assumption |].
      intros a Ha. apply range_minus_spec in Ha. tauto.
    - apply seq_NoDup.
    - intros a. rewrite in_app_iff, range_minus_spec, in_seq. split.
      + intros [[Ha _]|Ha]; [lia | specialize (Hb a Ha); lia].
      + intros Ha. destruct (in_dec Nat.eq_dec a used); [now right|].
        left. split; [lia | assumption]. }
  apply Permutation_length in P. rewrite length_app, length_seq in P. exact P.
Qed.

(** The value listed at the position of a key. *)
Lemma value_at_key V (o : Dict.t V) : forall r k,
  NoDup (Dict.keys o) -> nth_error (Dict.keys o) r = Some k ->
  exists v, nth_error (Dict.values o) r = Some v /\ Dict.get k o = Some v.
Proof.
  induction o as [|[k' v'] o IH]; intros r k Hnd Hk.
  - destruct r; discriminate.
  - simpl in Hnd. inversion Hnd as [|? ? Hn Hnd']; subst.
    destruct r as [|r]; simpl in *.
    + injection Hk as <-. exists v'. now rewrite Nat.eqb_refl.
    + destruct (IH r k Hnd' Hk) as (v & Hv & Hg). exists v.
      split; [exact Hv|].
      destruct (Nat.eqb_spec k k') as [->|Hne]; [|exact Hg].
      exfalso. apply Hn. eapply nth_error_In; eauto.
Qed.

(** [update] on a tracker with live tracks, track by track: what the call
    returns, what has become of the tracks that were assigned a detection
    and of those that were not, before the new tracks are appended. *)
Lemma update_tracks_detail rt b dets s :
  lawful rt -> wf s -> objects s <> [] ->
  let cents := map Tracker.centroid_of (b :: dets) in
  let D := cdist (Dict.values (objects s)) cents in
  let ur := fst (used_by rt s (b :: dets)) in
  let uc := snd (used_by rt s (b :: dets)) in
  exists s2,
    let s' := registered_all (new_centroids rt s (b :: dets)) s2 in
    returns (Tracker.update rt (b :: dets)) s (objects s') s' /\
    wf s2 /\
    next_object_id s2 = next_object_id s /\
    max_disappeared s2 = max_disappeared s /\
    (forall k, In k (ids s2) -> In k (ids s)) /\
    one_to_one D (pairs_of rt D) (ur, uc) /\
    (forall i r c k cc,
       nth_error ur i = Some r -> nth_error uc i = Some c ->
       nth_error (ids s) r = Some k -> nth_error cents c = Some cc ->
       Dict.get k (objects s2) = Some cc /\
       Dict.get k (disappeared s2) = Some 0%Z) /\
    (forall k d,
       (forall r, In r ur -> nth_error (ids s) r <> Some k) ->
       Dict.get k (disappeared s) = Some d ->
       if (d + 1 >? max_disappeared s)%Z
       then Dict.get k (disappeared s2) = None
       else Dict.get k (disappeared s2) = Some (d + 1)%Z /\
            Dict.get k (objects s2) = Dict.get k (objects s)).
Proof.
  intros L H Hne cents D ur uc.
  set (oids := Dict.keys (objects s)).
  assert (Hlen : length D = length oids).
  { unfold D, oids, Dict.values, Dict.keys.
    now rewrite cdist_length, !length_map. }
  assert (Hnd : NoDup oids).
  { apply DictFacts.sorted_NoDup, (wf_sorted H). }
  assert (Hv : forall r c, In (r, c) (pairs_of rt D) ->
            exists d k cc, entry D r c = Some d /\
              nth_error oids r = Some k /\ nth_error cents c = Some cc).
  { intros r c Hrc. apply (@pairs_of_valid rt (objects s) cents r c L);
      [discriminate | exact Hrc]. }
  (* the assignment loop *)
  destruct (@match_loop D oids cents (pairs_of rt D) ([], []) s H eq_refl Hv)
    as (s1 & R1 & W1 & I1 & N1 & M1 & F1 & Z1).
  assert (Eu : greedy D (pairs_of rt D) ([], []) = (ur, uc)).
  { unfold ur, uc, used_by. fold cents. fold D.
    now destruct (greedy D (pairs_of rt D) ([], [])). }
  pose proof (@match_loop_centroids D oids cents (pairs_of rt D) ([], []) s s1
                H eq_refl Hv eq_refl R1) as C1.
  rewrite Eu in R1, F1, Z1, C1. cbn [fst snd] in F1, Z1, C1.
  assert (One : one_to_one D (pairs_of rt D) (ur, uc)).
  { eapply match_loop_one_to_one; [apply incl_refl | | exact R1].
    constructor; simpl; [constructor | constructor | reflexivity |].
    intros i r c Hr. destruct i; discriminate. }
  assert (Hur : forall r, In r ur -> r < length oids).
  { intros r Hr. change ur with (fst (ur, uc)) in Hr. rewrite <- Eu in Hr.
    apply greedy_rows in Hr. destruct Hr as [[]|Hr].
    unfold pairs_of in Hr. apply in_map_iff in Hr.
    destruct Hr as ([r' c'] & <- & Hrc). apply in_combine_l in Hrc.
    apply (@argsort_range rt _ _ L) in Hrc.
    rewrite length_map in Hrc. simpl. lia. }
  (* the sweep over the unused rows *)
  set (rowsU := range_diff rt (length D) ur).
  assert (HrowsU : forall r, In r rowsU -> r < length oids).
  { intros r Hr. apply (range_diff_spec _ _ _ L) in Hr. lia. }
  destruct (@mark_loop (map (fun r => nth r oids 0) rowsU) s1 W1)
    as (s2 & R2 & W2 & N2 & M2 & F2 & E2).
  { apply NoDup_map_nth; auto. now apply range_diff_NoDup. }
  { intros k Hk. apply in_map_iff in Hk. destruct Hk as (r & <- & Hr).
    rewrite I1. apply nth_In. now apply HrowsU. }
  (* the registration of the unused columns *)
  set (colsU := range_diff rt (length cents) uc).
  assert (HcolsU : forall c, In c colsU -> c < length cents).
  { intros c Hc. apply (range_diff_spec _ _ _ L) in Hc. lia. }
  set (cs := map (fun c => nth c cents (0, 0)%Z) colsU).
  destruct (@register_loop cs s2 W2) as [R3 W3].
  assert (Ecs : new_centroids rt s (b :: dets) = cs) by reflexivity.
  exists s2. cbv zeta. rewrite Ecs.
  split; [|split; [exact W2|split; [congruence|split; [congruence|split;
    [|split; [exact One|split]]]]]].
  - unfold returns in *. destruct s as [n o d m]. simpl in Hne.
    destruct o as [|p o]; [congruence|].
    unfold Tracker.update. rewrite bind_read. cbn [objects]. cbv iota beta.
    rewrite !bind_bind.
    assert (Rt : returns
              (lift IndexError
                 (take (map row_argmin D) (argsort rt (map row_min D))))
              (mkTracker n (p :: o) d m)
              (map (fun r => row_argmin (nth r D []))
                 (argsort rt (map row_min D)))
              (mkTracker n (p :: o) d m)).
    { unfold returns. rewrite take_argmin; [reflexivity|].
      intros r Hr. apply (@argsort_range rt _ _ L) in Hr.
      now rewrite length_map in Hr. }
    etransitivity; [apply (bind_returns _ Rt)|]. rewrite !bind_bind.
    etransitivity; [apply (bind_returns _ R1)|]. cbv iota beta.
    assert (Rm : returns
              (for_each rowsU
                 (fun row => object_id <- lift IndexError (nth_error oids row) ;;
                             Tracker.mark_disappeared object_id))
              s1 tt s2).
    { unfold returns.
      rewrite (@for_each_lookup nat nat _ IndexError Tracker.mark_disappeared
                 rowsU (map (fun r => nth r oids 0) rowsU) s1
                 (lookup_all oids 0 rowsU HrowsU)).
      exact R2. }
    assert (Rr : returns
              (for_each colsU
                 (fun col => c <- lift IndexError (nth_error cents col) ;;
                             Tracker.register c))
              s2 tt (registered_all cs s2)).
    { unfold returns.
      rewrite (@for_each_lookup nat centroid _ IndexError Tracker.register
                 colsU cs s2 (lookup_all cents (0, 0)%Z colsU HcolsU)).
      exact R3. }
    rewrite bind_bind.
    etransitivity; [apply (bind_returns _ Rm)|].
    etransitivity; [apply (bind_returns _ Rr)|]. reflexivity.
  - intros k Hk. rewrite <- I1.
    destruct (in_dec Nat.eq_dec k (map (fun r => nth r oids 0) rowsU))
      as [Hi|Hn].
    + apply in_map_iff in Hi. destruct Hi as (r & <- & Hr).
      rewrite I1. apply nth_In. now apply HrowsU.
    + destruct (F2 k Hn) as [Fo _]. apply DictFacts.get_in_keys.
      rewrite <- Fo. now apply DictFacts.get_in_keys.
  - intros i r c k cc Hr Hc Hk Hcc.
    change (nth_error oids r = Some k) in Hk.
    assert (Hout : ~ In k (map (fun r => nth r oids 0) rowsU)).
    { intros Hi. apply in_map_iff in Hi. destruct Hi as (r' & Hr' & Hin').
      apply (range_diff_spec _ _ _ L) in Hin'. destruct Hin' as [Hlt Hnu].
      assert (r' = r).
      { apply (proj1 (NoDup_nth_error oids) Hnd); [lia|].
        rewrite Hk, <- Hr'. apply nth_error_nth'. lia. }
      subst r'. apply Hnu. eapply nth_error_In; eauto. }
    destruct (F2 k Hout) as [Fo Fd]. rewrite Fo, Fd. split.
    + apply (C1 i r c k cc); auto. simpl. lia.
    + apply (Z1 r k); auto. eapply nth_error_In; eauto.
  - intros k d Hun Hg.
    change (forall r, In r ur -> nth_error oids r <> Some k) in Hun.
    assert (Hk : In k oids).
    { unfold oids. rewrite (wf_keys H). eapply DictFacts.get_some_in; eauto. }
    assert (Hi : In k (map (fun r => nth r oids 0) rowsU)).
    { apply In_nth_error in Hk. destruct Hk as [r Hr].
      assert (Hlt : r < length oids) by (apply nth_error_Some; congruence).
      apply in_map_iff. exists r. split.
      + now apply nth_error_nth.
      + apply (range_diff_spec _ _ _ L). split; [lia|].
        intros Hin. now apply (Hun r). }
    destruct (F1 k) as [Fo1 Fd1].
    { intros r Hr _. now apply Hun. }
    rewrite <- Fd1 in Hg. specialize (E2 k d Hi Hg). rewrite M1 in E2.
    destruct (d + 1 >? max_disappeared s)%Z; [assumption|].
    destruct E2 as [A B]. split; [assumption | congruence].
Qed.

Lemma get_zero_map k l d :
  Dict.get k (map (fun i => (i, 0%Z)) l) = Some d -> d = 0%Z.
Proof.
  induction l as [|i l IH]; simpl; [discriminate|].
  destruct (Nat.eqb k i); [congruence | exact IH].
Qed.

Lemma get_combine_seq (cs : list centroid) : forall a j c,
  nth_error cs j = Some c ->
  Dict.get (a + j) (combine (seq a (length cs)) cs) = Some c.
Proof.
  induction cs as [|c0 cs IH]; intros a j c Hj; [destruct j; discriminate|].
  destruct j as [|j]; simpl in *.
  - injection Hj as <-. now rewrite Nat.add_0_r, Nat.eqb_refl.
  - destruct (Nat.eqb_spec (a + S j) a); [lia|].
    replace (a + S j) with (S a + j) by lia. now apply IH.
Qed.

Lemma get_combine_seq_in (cs : list centroid) : forall a k c,
  Dict.get k (combine (seq a (length cs)) cs) = Some c -> In c cs.
Proof.
  induction cs as [|c0 cs IH]; intros a k c; simpl; [discriminate|].
  destruct (Nat.eqb k a); [intros [= <-]; now left|].
  intros Hg. right. eapply IH; eauto.
Qed.

Lemma euclidean_same p : (euclidean p p <= 50)%R.
Proof. apply euclidean_le_50. unfold dist2. nia. Qed.

(** After an [update] the tracker holds at least as many tracks as there
    were detections. *)
Lemma update_tracks_count rt b dets s :
  lawful rt -> wf s -> objects s <> [] ->
  length (b :: dets) <=
  length (objects (snd (Tracker.update rt (b :: dets) s))).
Proof.
  intros L H Hne.
  set (cents := map Tracker.centroid_of (b :: dets)).
  destruct (@update_tracks_detail rt b dets s L H Hne) as
    (s2 & R & W2 & N2 & M2 & Hold & One & Hm & Hu).
  fold cents in R, One, Hm. cbv zeta in R.
  set (D := cdist (Dict.values (objects s)) cents) in *.
  set (ur := fst (used_by rt s (b :: dets))) in *.
  set (uc := snd (used_by rt s (b :: dets))) in *.
  set (cs := new_centroids rt s (b :: dets)) in *.
  unfold returns in R. rewrite R. cbn [snd].
  destruct One as [Nr Nc Hl Hp]. cbn [fst snd] in Nr, Nc, Hl, Hp.
  assert (Hpair : forall i r c,
            nth_error ur i = Some r -> nth_error uc i = Some c ->
            exists k cc, nth_error (ids s) r = Some k /\
                         nth_error cents c = Some cc).
  { intros i r c Hr Hc. destruct (Hp i r c Hr Hc) as [Hin _].
    destruct (@pairs_of_valid rt (objects s) cents r c L) as
      (d & k & cc & _ & Hk & Hcc); [discriminate | exact Hin |].
    eauto. }
  assert (Huc : forall c, In c uc -> c < length cents).
  { intros c Hc. apply In_nth_error in Hc. destruct Hc as [i Hi].
    destruct (nth_error ur i) as [r|] eqn:Er.
    - destruct (Hpair i r c Er Hi) as (k & cc & _ & Hcc).
      apply nth_error_Some. congruence.
    - apply nth_error_None in Er.
      assert (i < length uc) by (apply nth_error_Some; congruence). lia. }
  unfold registered_all. cbn [objects].
  rewrite length_app, length_combine, length_seq, Nat.min_id.
  assert (Hcs : length cs + length uc = length cents).
  { unfold cs, new_centroids. fold cents. fold uc. rewrite length_map.
    rewrite (Permutation_length (law_range_diff L (length cents) uc)).
    now apply range_minus_length. }
  assert (Hrows : length ur <= length (objects s2)).
  { set (ks := map (fun r => nth r (ids s) 0) ur).
    assert (Hlk : length ks = length ur) by apply length_map.
    rewrite <- Hlk.
    replace (length (objects s2)) with (length (ids s2))
      by (unfold ids, Dict.keys; apply length_map).
    assert (Hrb : forall r, In r ur -> r < length (ids s)).
    { intros r Hr. apply In_nth_error in Hr. destruct Hr as [i Hi].
      destruct (nth_error uc i) as [c|] eqn:Ec.
      - destruct (Hpair i r c Hi Ec) as (k & cc & Hk & _).
        apply nth_error_Some. congruence.
      - apply nth_error_None in Ec.
        assert (i < length ur) by (apply nth_error_Some; congruence).
        lia. }
    apply NoDup_incl_length.
    - apply NoDup_map_nth; auto.
      apply DictFacts.sorted_NoDup, (wf_sorted H).
    - intros k Hk. apply in_map_iff in Hk. destruct Hk as (r & <- & Hr).
      pose proof Hr as Hr2.
      apply In_nth_error in Hr. destruct Hr as [i Hi].
      destruct (nth_error uc i) as [c|] eqn:Ec.
      2:{ apply nth_error_None in Ec.
          assert (i < length ur) by (apply nth_error_Some; congruence).
          lia. }
      destruct (Hpair i r c Hi Ec) as (k & cc & Hk & Hcc).
      destruct (Hm i r c k cc Hi Ec Hk Hcc) as [Ho _].
      rewrite (nth_error_nth _ _ _ Hk).
      apply DictFacts.get_in_keys. congruence. }
  assert (length (b :: dets) = length cents)
    by (unfold cents; now rewrite length_map).
  lia.
Qed.

Lemma update_count rt dets s :
  lawful rt -> wf s ->
  length dets <= length (objects (snd (Tracker.update rt dets s))).
Proof.
  intros L H. destruct dets as [|b dets]; [simpl; lia|].
  destruct (objects s) as [|p o] eqn:Eo.
  - destruct (@register_loop (map Tracker.centroid_of (b :: dets)) s H)
      as [R _].
    unfold Tracker.update. rewrite bind_read, Eo.
    rewrite (bind_returns _ R). cbn [snd read fst].
    unfold registered_all. cbn [objects]. rewrite Eo. cbn [app].
    now rewrite length_combine, length_seq, Nat.min_id, length_map.
  - apply update_tracks_count; [assumption | assumption | congruence].
Qed.

(** X7.  An [update] with detections drops none of them: every input
    centroid is, after the call, the centroid of a live track, either of
    the track it was assigned to or of a newly registered one, and the
    tracker holds at least as many tracks as there were detections. *)
Theorem update_keeps_every_detection (rt : runtime) (s : SimpleTracker)
    (dets : list box) :
  lawful rt -> wf s -> dets <> [] ->
  exists s',
    Tracker.update rt dets s = (Val (objects s'), s') /\
    (forall c, In c (map Tracker.centroid_of dets) ->
       exists k, Dict.get k (objects s') = Some c) /\
    length dets <= length (objects s').
Proof.
  intros L H Hne. destruct dets as [|b dets]; [congruence|]. clear Hne.
  set (cents := map Tracker.centroid_of (b :: dets)).
  destruct (objects s) as [|p o] eqn:Eo.
  - (* no tracks: every detection is registered *)
    destruct (@register_loop cents s H) as [R _].
    exists (registered_all cents s). split.
    { unfold Tracker.update. rewrite bind_read, Eo.
      fold cents. now rewrite (bind_returns _ R). }
    unfold registered_all. cbn [objects]. rewrite Eo. cbn [app]. split.
    + intros c Hc. apply In_nth_error in Hc. destruct Hc as [j Hj].
      exists (next_object_id s + j). now apply get_combine_seq.
    + rewrite length_combine, length_seq, Nat.min_id. unfold cents.
      now rewrite length_map.
  - destruct (@update_tracks_detail rt b dets s L H) as
      (s2 & R & W2 & N2 & M2 & Hold & One & Hm & Hu); [congruence|].
    fold cents in R, One, Hm. cbv zeta in R.
    set (D := cdist (Dict.values (objects s)) cents) in *.
    set (ur := fst (used_by rt s (b :: dets))) in *.
    set (uc := snd (used_by rt s (b :: dets))) in *.
    set (cs := new_centroids rt s (b :: dets)) in *.
    exists (registered_all cs s2). split; [exact R|].
    destruct One as [Nr Nc Hl Hp]. cbn [fst snd] in Nr, Nc, Hl, Hp.
    assert (Hpair : forall i r c,
              nth_error ur i = Some r -> nth_error uc i = Some c ->
              exists k cc, nth_error (ids s) r = Some k /\
                           nth_error cents c = Some cc).
    { intros i r c Hr Hc. destruct (Hp i r c Hr Hc) as [Hin _].
      destruct (@pairs_of_valid rt (objects s) cents r c L) as
        (d & k & cc & _ & Hk & Hcc); [discriminate | exact Hin |].
      eauto. }
    assert (Huc : forall c, In c uc -> c < length cents).
    { intros c Hc. apply In_nth_error in Hc. destruct Hc as [i Hi].
      destruct (nth_error ur i) as [r|] eqn:Er.
      - destruct (Hpair i r c Er Hi) as (k & cc & _ & Hcc).
        apply nth_error_Some. congruence.
      - apply nth_error_None in Er.
        assert (i < length uc) by (apply nth_error_Some; congruence). lia. }
    unfold registered_all. cbn [objects]. split.
    + intros c Hc. apply In_nth_error in Hc. destruct Hc as [col Hcol].
      assert (Hlt : col < length cents) by (apply nth_error_Some; congruence).
      destruct (in_dec Nat.eq_dec col uc) as [Hin|Hout].
      * apply In_nth_error in Hin. destruct Hin as [i Hi].
        destruct (nth_error ur i) as [r|] eqn:Er.
        2:{ apply nth_error_None in Er.
            assert (i < length uc) by (apply nth_error_Some; congruence).
            lia. }
        destruct (Hpair i r col Er Hi) as (k & cc & Hk & Hcc).
        assert (cc = c) by congruence. subst cc.
        destruct (Hm i r col k c Er Hi Hk Hcc) as [Ho _].
        exists k. rewrite get_app. now rewrite Ho.
      * assert (Hcs : In c cs).
        { unfold cs, new_centroids. fold cents. fold uc.
          apply in_map_iff. exists col. split.
          - now apply nth_error_nth.
          - apply (range_diff_spec _ _ _ L). split; assumption. }
        apply In_nth_error in Hcs. destruct Hcs as [j Hj].
        exists (next_object_id s2 + j). rewrite get_app.
        assert (Hnone : Dict.get (next_object_id s2 + j) (objects s2) = None).
        { apply DictFacts.get_none_iff. intros Hin.
          pose proof (wf_below W2) as Hb. rewrite Forall_forall in Hb.
          specialize (Hb _ Hin). lia. }
        rewrite Hnone. now apply get_combine_seq.
    + pose proof (@update_tracks_count rt b dets s L H) as Hc.
      unfold returns in R. rewrite R in Hc. apply Hc. congruence.
Qed.

(** X8.  No track jumps: a track that is live before and after an
    [update] has afterwards either the centroid it had or the centroid of
    one of the detections, and the Euclidean distance between its old and
    its new centroid is at most 50. *)
Theorem track_moves_at_most_50 (rt : runtime) (s : SimpleTracker)
    (dets : list box) (k : nat) (oc c' : centroid) :
  lawful rt -> wf s ->
  Dict.get k (objects s) = Some oc ->
  Dict.get k (objects (snd (Tracker.update rt dets s))) = Some c' ->
  (c' = oc \/ In c' (map Tracker.centroid_of dets)) /\
  (euclidean oc c' <= 50)%R.
Proof.
  intros L H Ho Ho'.
  assert (Hd : exists d, Dict.get k (disappeared s) = Some d).
  { destruct (Dict.get k (disappeared s)) as [d|] eqn:E; [eauto|].
    exfalso. apply DictFacts.get_none_iff in E. apply E.
    rewrite <- (wf_keys H). eapply DictFacts.get_some_in; eauto. }
  destruct Hd as [d Hd].
  destruct dets as [|b dets].
  - destruct (update_no_detections_detail rt H) as
      (s' & R & _ & _ & _ & _ & E).
    unfold returns in R. rewrite R in Ho'. cbn [snd] in Ho'.
    specialize (E k d Hd).
    destruct (d + 1 >? max_disappeared s)%Z; destruct E as [E _];
      [congruence|].
    assert (c' = oc) by congruence. subst c'.
    split; [now left | apply euclidean_same].
  - set (cents := map Tracker.centroid_of (b :: dets)).
    destruct (@update_tracks_detail rt b dets s L H) as
      (s2 & R & W2 & N2 & M2 & Hold & One & Hm & Hu).
    { intros E. rewrite E in Ho. discriminate. }
    fold cents in R, One, Hm. cbv zeta in R.
    unfold returns in R. rewrite R in Ho'. cbn [snd] in Ho'.
    unfold registered_all in Ho'. cbn [objects] in Ho'.
    rewrite get_app in Ho'.
    assert (Hk : In k (ids s)) by (eapply DictFacts.get_some_in; eauto).
    assert (Hnd : NoDup (ids s))
      by apply DictFacts.sorted_NoDup, (wf_sorted H).
    destruct (Dict.get k (objects s2)) as [c2|] eqn:E2.
    2:{ exfalso. apply DictFacts.get_some_in in Ho'.
        rewrite keys_combine_seq in Ho'. apply in_seq in Ho'.
        pose proof (wf_below H) as Hb. rewrite Forall_forall in Hb.
        specialize (Hb _ Hk). lia. }
    injection Ho' as <-.
    apply In_nth_error in Hk. destruct Hk as [r Hr].
    set (ur := fst (used_by rt s (b :: dets))) in *.
    set (uc := snd (used_by rt s (b :: dets))) in *.
    destruct One as [Nr Nc Hl Hp]. cbn [fst snd] in Nr, Nc, Hl, Hp.
    destruct (in_dec Nat.eq_dec r ur) as [Hin|Hout].
    + apply In_nth_error in Hin. destruct Hin as [i Hi].
      destruct (nth_error uc i) as [c|] eqn:Ec.
      2:{ apply nth_error_None in Ec.
          assert (i < length ur) by (apply nth_error_Some; congruence).
          lia. }
      destruct (Hp i r c Hi Ec) as [Hin (d0 & He & Hle)].
      destruct (@pairs_of_valid rt (objects s) cents r c L) as
        (d1 & k1 & cc & _ & Hk1 & Hcc); [discriminate | exact Hin |].
      fold (ids s) in Hk1. assert (k1 = k) by congruence. subst k1.
      destruct (Hm i r c k cc Hi Ec Hr Hcc) as [Hoc _].
      assert (c2 = cc) by congruence. subst c2.
      split; [right; eapply nth_error_In; eauto|].
      destruct (value_at_key (objects s) r Hnd Hr) as (v & Hv & Hg).
      assert (v = oc) by congruence. subst v.
      rewrite (entry_cdist _ _ _ _ Hv Hcc) in He. injection He as <-.
      now apply euclidean_le_50.
    + assert (Hun : forall r', In r' ur -> nth_error (ids s) r' <> Some k).
      { intros r' Hr' Hk'. assert (r' = r); [|subst; contradiction].
        apply (proj1 (NoDup_nth_error (ids s)) Hnd); [|congruence].
        apply nth_error_Some. congruence. }
      specialize (Hu k d Hun Hd).
      destruct (d + 1 >? max_disappeared s)%Z.
      * exfalso. apply DictFacts.get_none_iff in Hu. apply Hu.
        rewrite <- (wf_keys W2). eapply DictFacts.get_some_in; eauto.
      * destruct Hu as [_ Hu]. assert (c2 = oc) by congruence. subst c2.
        split; [now left | apply euclidean_same].
Qed.

(** *** The counters stay within the threshold *)

Lemma update_no_tracks_state rt b dets s :
  wf s -> objects s = [] ->
  let s' := registered_all (map Tracker.centroid_of (b :: dets)) s in
  Tracker.update rt (b :: dets) s = (Val (objects s'), s').
Proof.
  intros H Eo s'.
  destruct (@register_loop (map Tracker.centroid_of (b :: dets)) s H) as [R _].
  unfold Tracker.update. rewrite bind_read, Eo.
  now rewrite (bind_returns _ R).
Qed.

(** A track that an [update] has created has a counter of 0. *)
Lemma update_new_counter rt dets s k d' :
  lawful rt -> wf s ->
  Dict.get k (disappeared s) = None ->
  Dict.get k (disappeared (snd (Tracker.update rt dets s))) = Some d' ->
  d' = 0%Z.
Proof.
  intros L H Eg Hg'.
  assert (Hfresh : forall s2, wf s2 -> (forall k, In k (ids s2) -> In k (ids s)) ->
            Dict.get k (disappeared s2) = None).
  { intros s2 W2 Hs2. apply DictFacts.get_none_iff. intros Hin.
    apply DictFacts.get_none_iff in Eg. apply Eg.
    rewrite <- (wf_keys H). apply Hs2. unfold ids. now rewrite (wf_keys W2). }
  destruct dets as [|b dets].
  - exfalso.
    destruct (update_no_detections_detail rt H) as
      (s' & R & W & _ & _ & Hs' & _).
    unfold returns in R. rewrite R in Hg'. cbn [snd] in Hg'.
    rewrite (Hfresh s' W Hs') in Hg'. discriminate.
  - destruct (objects s) as [|p o] eqn:Eo.
    + rewrite (update_no_tracks_state rt b dets H Eo) in Hg'.
      cbn [snd] in Hg'. unfold registered_all in Hg'. cbn [disappeared] in Hg'.
      rewrite get_app, Eg in Hg'. now apply get_zero_map in Hg'.
    + destruct (@update_tracks_detail rt b dets s L H) as
        (s2 & R & W2 & _ & _ & Hs2 & _); [congruence|].
      cbv zeta in R. unfold returns in R. rewrite R in Hg'. cbn [snd] in Hg'.
      unfold registered_all in Hg'. cbn [disappeared] in Hg'.
      rewrite get_app, (Hfresh s2 W2 Hs2) in Hg'. now apply get_zero_map in Hg'.
Qed.

Definition counters_bounded (s : SimpleTracker) : Prop :=
  forall k d,
    Dict.get k (disappeared s) = Some d ->
    (0 <= d <= Z.max 0 (max_disappeared s))%Z.

Lemma update_counters_bounded rt dets s :
  lawful rt -> wf s -> counters_bounded s ->
  counters_bounded (snd (Tracker.update rt dets s)).
Proof.
  intros L H B k d' Hg'.
  destruct (Dict.get k (disappeared s)) as [d|] eqn:Eg.
  - destruct (update_spec dets L H) as (s' & R & P). unfold returns in R.
    rewrite R in *. cbn [snd] in *.
    rewrite (post_count P _ Eg) in Hg'. rewrite (post_max P).
    specialize (B k d Eg).
    destruct (is_matched rt s dets k); [injection Hg' as <-; lia|].
    destruct (Z.gtb_spec (d + 1) (max_disappeared s)); [discriminate|].
    injection Hg' as <-. lia.
  - rewrite (update_new_counter _ _ L H Eg Hg'). lia.
Qed.

(** X9.  In every state a tracker can get into through its methods on a
    lawful runtime, the counter of every live track lies between 0 and
    [max_disappeared] (between 0 and 0 if [max_disappeared] is negative):
    a track whose counter would exceed the threshold is not kept. *)
Theorem counters_stay_within_threshold (rt : runtime) (s : SimpleTracker) :
  lawful rt -> reachable rt s ->
  forall k d,
    Dict.get k (disappeared s) = Some d ->
    (0 <= d <= Z.max 0 (max_disappeared s))%Z.
Proof.
  intros L R. change (counters_bounded s).
  induction R as [maxd|s c R IH|s k0 R IH|s dets R IH].
  - intros k d Hg. discriminate.
  - pose proof (reachable_wf L R) as H.
    rewrite (register_returns c H). cbn [snd]. intros k d Hg.
    unfold registered in Hg. cbn [disappeared] in Hg. rewrite get_app in Hg.
    cbn [max_disappeared].
    destruct (Dict.get k (disappeared s)) as [d0|] eqn:Eg.
    + injection Hg as <-. exact (IH k d0 Eg).
    + simpl in Hg. destruct (Nat.eqb k (next_object_id s)); [|discriminate].
      injection Hg as <-. lia.
  - pose proof (reachable_wf L R) as H.
    destruct (in_dec Nat.eq_dec k0 (ids s)) as [Hi|Hn].
    + destruct (@deregister_returns k0 s H Hi) as (s' & Rd & _ & _ & Mx & G & F).
      unfold returns in Rd. rewrite Rd. cbn [snd]. intros k d Hg.
      rewrite Mx. destruct (Nat.eq_dec k k0) as [->|Hne]; [congruence|].
      destruct (F k Hne) as [_ Fd]. rewrite Fd in Hg. exact (IH k d Hg).
    + apply DictFacts.del_none in Hn.
      unfold Tracker.deregister, del_object, bind, read, lift. simpl.
      now rewrite Hn.
  - apply update_counters_bounded; [assumption | | assumption].
    exact (reachable_wf L R).
Qed.

(** *** One track, one detection *)

Lemma argsort_one rt x : lawful rt -> argsort rt [x] = [0].
Proof.
  intros L. destruct (law_argsort L [x]) as [P _]. simpl in P.
  now apply Permutation_sym, Permutation_length_1_inv in P.
Qed.

Lemma range_diff_all_used rt : lawful rt -> range_diff rt 1 [0] = [].
Proof.
  intros L. pose proof (law_range_diff L 1 [0]) as P.
  now apply Permutation_sym, Permutation_nil in P.
Qed.

Lemma range_diff_none_used rt : lawful rt -> range_diff rt 1 [] = [0].
Proof.
  intros L. pose proof (law_range_diff L 1 []) as P.
  now apply Permutation_sym, Permutation_length_1_inv in P.
Qed.

Lemma bind_ret A B (a : A) (f : A -> M B) s : bind (ret a) f s = f a s.
Proof. reflexivity. Qed.

Lemma mark_lone_track k n oc d m :
  Tracker.mark_disappeared k (mkTracker n [(k, oc)] [(k, d)] m) =
  if (d + 1 >? m)%Z then (Val tt, mkTracker n [] [] m)
  else (Val tt, mkTracker n [(k, oc)] [(k, (d + 1)%Z)] m).
Proof.
  unfold Tracker.mark_disappeared, get_disappeared, set_disappeared, bind,
    read, lift, put_disappeared, ret. simpl.
  repeat (rewrite Nat.eqb_refl; simpl).
  destruct (d + 1 >? m)%Z; [|reflexivity].
  unfold Tracker.deregister, del_object, del_disappeared, bind, read, lift,
    put_objects, put_disappeared, ret. simpl.
  repeat (rewrite Nat.eqb_refl; simpl). reflexivity.
Qed.

Lemma bind_set_object A k c (f : unit -> M A) s :
  bind (set_object k c) f s =
  f tt (mkTracker (next_object_id s) (Dict.set k c (objects s))
          (disappeared s) (max_disappeared s)).
Proof. reflexivity. Qed.

Lemma bind_set_disappeared A k v (f : unit -> M A) s :
  bind (set_disappeared k v) f s =
  f tt (mkTracker (next_object_id s) (objects s)
          (Dict.set k v (disappeared s)) (max_disappeared s)).
Proof. reflexivity. Qed.

(** Runs the statements at the head of a method body. *)
Ltac run_head :=
  repeat first
    [ rewrite bind_bind | rewrite bind_ret | rewrite bind_read
    | rewrite bind_set_object | rewrite bind_set_disappeared
    | progress cbv beta iota
    | progress cbn [objects disappeared next_object_id max_disappeared] ].

Lemma register_next c n o d m :
  Tracker.register c (mkTracker n o d m) =
  (Val tt, mkTracker (n + 1) (Dict.set n c o) (Dict.set n 0%Z d) m).
Proof. reflexivity. Qed.

(** X10.  One live track and one detection.  If the detection's centroid is
    at most 50 away, the track keeps its id, takes that centroid and has
    its counter reset; no track is created and the id counter stays.  If
    it is further away, the detection becomes a new track with the id the
    counter shows, and the old track keeps its centroid and has its
    counter increased by one, or is dropped if that exceeds
    [max_disappeared]. *)
Theorem lone_track_meets_lone_detection (rt : runtime) (k n : nat)
    (oc : centroid) (d m : Z) (b : box) :
  lawful rt -> k < n ->
  let c := Tracker.centroid_of b in
  let s := mkTracker n [(k, oc)] [(k, d)] m in
  ((euclidean oc c <= 50)%R ->
   Tracker.update rt [b] s =
   (Val [(k, c)], mkTracker n [(k, c)] [(k, 0%Z)] m)) /\
  ((euclidean oc c > 50)%R ->
   Tracker.update rt [b] s =
   if (d + 1 >? m)%Z
   then (Val [(n, c)], mkTracker (n + 1) [(n, c)] [(n, 0%Z)] m)
   else (Val [(k, oc); (n, c)],
         mkTracker (n + 1) [(k, oc); (n, c)] [(k, (d + 1)%Z); (n, 0%Z)] m)).
Proof.
  intros L Hk c s. set (x := dist2 oc c).
  assert (Hne : Nat.eqb n k = false) by (apply Nat.eqb_neq; lia).
  assert (E : Tracker.update rt [b] s =
              if (x >? 2500)%Z
              then if (d + 1 >? m)%Z
                   then (Val [(n, c)], mkTracker (n + 1) [(n, c)] [(n, 0%Z)] m)
                   else (Val [(k, oc); (n, c)],
                         mkTracker (n + 1) [(k, oc); (n, c)]
                           [(k, (d + 1)%Z); (n, 0%Z)] m)
              else (Val [(k, c)], mkTracker n [(k, c)] [(k, 0%Z)] m)).
  { unfold Tracker.update, s. rewrite bind_read. cbn [objects].
    unfold cdist, Dict.values, Dict.keys, row_min.
    cbn [map fst snd fold_left length]. fold c. fold x.
    rewrite (argsort_one x L).
    unfold row_argmin, row_min. cbn [take nth_error index_of fold_left].
    rewrite Z.eqb_refl. cbn [lift]. rewrite !bind_bind, bind_ret.
    cbn [combine for_fold]. rewrite !bind_bind.
    unfold Tracker.match_pair. cbn [mem existsb orb nth_error lift].
    rewrite !bind_bind, bind_ret.
    destruct (x >? 2500)%Z.
    - rewrite !bind_ret. cbv iota beta.
      rewrite (range_diff_none_used L). cbn [for_each nth_error lift].
      rewrite !bind_bind, bind_ret.
      unfold bind at 1. rewrite mark_lone_track.
      destruct (d + 1 >? m)%Z; rewrite !bind_ret, !bind_bind, bind_ret;
        unfold bind at 1; rewrite register_next; rewrite bind_ret;
        cbn [Dict.set]; rewrite ?Hne; reflexivity.
    - run_head. cbn [Dict.set]. rewrite !Nat.eqb_refl. cbn [app].
      rewrite (range_diff_all_used L). reflexivity. }
  rewrite E. split; intros Hd.
  - apply euclidean_le_50 in Hd. fold x in Hd.
    destruct (Z.gtb_spec x 2500); [lia | reflexivity].
  - apply euclidean_gt_50 in Hd. fold x in Hd.
    destruct (Z.gtb_spec x 2500); [reflexivity | lia].
Qed.

(** *** Tracks that do not compete for a detection *)


Lemma index_of_nth v r : In v r -> nth_error r (index_of v r) = Some v.
Proof.
  induction r as [|x r IH]; simpl; [tauto|].
  intros H. destruct (Z.eqb_spec x v) as [->|Hne]; [reflexivity|].
  destruct H; [congruence|]. simpl. now apply IH.
Qed.

(** The entry at the column of a row's minimum is the minimum. *)
Lemma row_argmin_min r : r <> [] -> nth_error r (row_argmin r) = Some (row_min r).
Proof.
  destruct r as [|x r]; [congruence|]. intros _.
  apply index_of_nth. apply row_min_in.
Qed.




(** *** The centroid of a box *)


(** *** The person count of a frame *)

(** X13.  Whenever [process_frame] returns, the [person_count] it reports
    is the number of tracks the tracker holds after the call, and this is
    at least the number of boxes the detector found in the frame: tracks
    that got no detection in this frame are counted too, for as long as
    the tracker keeps them. *)
Theorem person_count_covers_detections (rt : runtime) (frame : Type)
    (detect : frame -> list box) (f : frame)
    (p p' : VideoProcessor.processor) (r : VideoProcessor.frame_result) :
  lawful rt -> wf (VideoProcessor.tracker p) ->
  VideoProcessor.process_frame rt detect f p = (Val r, p') ->
  VideoProcessor.detections r = detect f /\
  VideoProcessor.person_count r =
  length (objects (VideoProcessor.tracker p')) /\
  length (VideoProcessor.detections r) <= VideoProcessor.person_count r.
Proof.
  intros L H R.
  pose proof (@update_count rt (detect f) _ L H) as Hc.
  unfold VideoProcessor.process_frame in R.
  destruct (update_spec (detect f) L H) as (t' & Ru & _).
  unfold returns in Ru. rewrite Ru in R, Hc. cbn [snd] in Hc.
  destruct (VideoProcessor.analyse (VideoProcessor.zones p) (objects t'))
    as [za|e]; [|discriminate].
  injection R as <- <-. simpl. auto.
Qed.

(** *** The closest pair *)

Lemma fold_min_le r : forall x,
  (fold_left Z.min r x <= x)%Z /\
  forall v, In v r -> (fold_left Z.min r x <= v)%Z.
Proof.
  induction r as [|y r IH]; intros x; simpl;
    [split; [lia | intros v []]|].
  destruct (IH (Z.min x y)) as [A B]. split; [lia|].
  intros v [<-|Hv]; [lia | now apply B].
Qed.

Lemma row_min_le r v : In v r -> (row_min r <= v)%Z.
Proof.
  destruct r as [|x r]; [intros []|]. simpl.
  destruct (fold_min_le r x) as [A B]. intros [<-|Hv]; [exact A | now apply B].
Qed.

(** The row of a track in the distance matrix. *)
Lemma track_row (s : SimpleTracker) cents r k :
  wf s -> nth_error (ids s) r = Some k ->
  exists oc,
    Dict.get k (objects s) = Some oc /\
    nth_error (cdist (Dict.values (objects s)) cents) r =
    Some (map (dist2 oc) cents).
Proof.
  intros H Hk.
  destruct (value_at_key (objects s) r
              (DictFacts.sorted_NoDup (wf_sorted H)) Hk) as (oc & Hv & Hg).
  exists oc. split; [exact Hg|]. unfold cdist.
  now rewrite nth_error_map, Hv.
Qed.

Lemma get_new_none (cs : list centroid) a k :
  k < a -> Dict.get k (combine (seq a (length cs)) cs) = None.
Proof.
  intros Hk. apply DictFacts.get_none_iff. rewrite keys_combine_seq.
  rewrite in_seq. lia.
Qed.

(** X14.  Among all pairs of a live track and a detection, [update] finds
    one at the smallest distance, and if that distance is at most 50 the
    track of that pair gets the detection of that pair: it takes its
    centroid and its counter is reset. *)
Theorem closest_pair_is_matched (rt : runtime) (s : SimpleTracker)
    (b : box) (dets : list box) :
  lawful rt -> wf s -> objects s <> [] ->
  let cents := map Tracker.centroid_of (b :: dets) in
  let s' := snd (Tracker.update rt (b :: dets) s) in
  exists k oc c,
    Dict.get k (objects s) = Some oc /\ In c cents /\
    (forall k' oc' c',
       Dict.get k' (objects s) = Some oc' -> In c' cents ->
       (dist2 oc c <= dist2 oc' c')%Z) /\
    ((euclidean oc c <= 50)%R ->
     Dict.get k (objects s') = Some c /\
     Dict.get k (disappeared s') = Some 0%Z).
Proof.
  intros L H Hne cents s'.
  set (D := cdist (Dict.values (objects s)) cents).
  destruct (@update_tracks_detail rt b dets s L H Hne) as
    (s2 & R & W2 & N2 & M2 & Hold & One & Hm & Hu).
  fold cents in R, One, Hm. fold D in One. cbv zeta in R.
  unfold returns in R. unfold s'. rewrite R. cbn [snd].
  set (f := fun r => row_argmin (nth r D [])).
  set (rows := argsort rt (map row_min D)).
  assert (Hlen : length D = length (ids s)).
  { unfold D, ids, Dict.values, Dict.keys.
    now rewrite cdist_length, !length_map. }
  destruct (law_argsort L (map row_min D)) as [P Sorted]. fold rows in P, Sorted.
  rewrite length_map in P.
  assert (Hpos : 0 < length (ids s)).
  { unfold ids, Dict.keys. rewrite length_map.
    destruct (objects s); [congruence | simpl; lia]. }
  destruct rows as [|r0 rest] eqn:Erows.
  { apply Permutation_length in P. rewrite length_seq in P. simpl in P. lia. }
  assert (Hr0 : r0 < length D).
  { assert (Hin : In r0 (seq 0 (length D)))
      by (apply (Permutation_in _ P); now left).
    apply in_seq in Hin. lia. }
  destruct (nth_error (ids s) r0) as [k|] eqn:Ek;
    [|apply nth_error_None in Ek; lia].
  destruct (track_row cents r0 H Ek) as (oc & Hoc & Erow). fold D in Erow.
  assert (Enth : nth r0 D [] = map (dist2 oc) cents)
    by now apply nth_error_nth.
  assert (Hcol : f r0 < length cents).
  { unfold f. rewrite Enth, <- (length_map (dist2 oc) cents).
    apply row_argmin_lt. discriminate. }
  destruct (nth_error cents (f r0)) as [c|] eqn:Ec;
    [|apply nth_error_None in Ec; lia].
  assert (Emin : dist2 oc c = row_min (nth r0 D [])).
  { assert (Hmin : nth_error (nth r0 D []) (f r0) = Some (row_min (nth r0 D [])))
      by (apply row_argmin_min; rewrite Enth; discriminate).
    rewrite Enth in Hmin at 1. rewrite nth_error_map, Ec in Hmin.
    now injection Hmin. }
  exists k, oc, c. split; [exact Hoc|].
  split; [eapply nth_error_In; eauto|]. split.
  - intros k' oc' c' Hk' Hc'.
    assert (Hin : In k' (ids s)) by (eapply DictFacts.get_some_in; eauto).
    apply In_nth_error in Hin. destruct Hin as [r' Hr'].
    destruct (track_row cents r' H Hr') as (oc1 & Hoc1 & Erow').
    fold D in Erow'. assert (oc1 = oc') by congruence. subst oc1.
    assert (Hr'lt : r' < length D).
    { rewrite Hlen. apply nth_error_Some. congruence. }
    assert (Hle : (row_min (nth r0 D []) <= row_min (nth r' D []))%Z).
    { assert (Hin : In r' (r0 :: rest)).
      { apply (Permutation_in _ (Permutation_sym P)), in_seq. lia. }
      change 0%Z with (row_min []).
      rewrite <- !(map_nth row_min D []).
      destruct Hin as [<-|Hin]; [lia|].
      apply StronglySorted_inv in Sorted. destruct Sorted as [_ Hall].
      rewrite Forall_forall in Hall. now apply Hall. }
    rewrite Emin. eapply Z.le_trans; [exact Hle|].
    apply row_min_le. rewrite (nth_error_nth _ _ _ Erow').
    apply in_map. exact Hc'.
  - intros Hd. apply euclidean_le_50 in Hd.
    assert (Eu : exists xr xc,
              used_by rt s (b :: dets) = (r0 :: xr, f r0 :: xc)).
    { unfold used_by. fold cents. fold D. unfold pairs_of.
      fold rows. rewrite Erows. cbn [map combine greedy fold_left].
      assert (Ea : assign D ([], []) (r0, row_argmin (nth r0 D [])) =
                   ([r0], [f r0])).
      { unfold assign, accepted, entry. cbn [fst snd mem existsb orb negb andb].
        rewrite Erow. fold (f r0). rewrite nth_error_map, Ec. cbn [option_map].
        destruct (Z.gtb_spec (dist2 oc c) 2500); [lia | reflexivity]. }
      rewrite Ea.
      destruct (greedy_extends D
                  (combine rest (map (fun r => row_argmin (nth r D [])) rest))
                  ([r0], [f r0])) as (xr & xc & E & _).
      unfold greedy in E. rewrite E. now exists xr, xc. }
    destruct Eu as (xr & xc & Eu). rewrite Eu in Hm. cbn [fst snd] in Hm.
    destruct (Hm 0 r0 (f r0) k c eq_refl eq_refl Ek Ec) as [Ho Hz].
    unfold registered_all. cbn [objects disappeared].
    rewrite !get_app, Ho, Hz. auto.
Qed.

(** *** Detections out of reach *)

Lemma greedy_none_accepted D pairs : forall acc,
  (forall r c, In (r, c) pairs ->
     exists d, entry D r c = Some d /\ (2500 < d)%Z) ->
  greedy D pairs acc = acc.
Proof.
  induction pairs as [|[r c] pairs IH]; intros acc Hd; [reflexivity|].
  simpl. fold (greedy D pairs (assign D acc (r, c))).
  assert (Ea : assign D acc (r, c) = acc).
  { unfold assign, accepted. simpl.
    destruct (Hd r c (or_introl eq_refl)) as (d & -> & Hlt).
    destruct (Z.gtb_spec d 2500); [|lia].
    simpl. now rewrite andb_false_r. }
  rewrite Ea. apply IH. intros r' c' Hin. apply Hd. now right.
Qed.

(** X15.  If every detection is more than 50 away from every live track,
    [update] assigns nothing: every detection becomes a new track, and
    every track that was live keeps its centroid and has its counter
    increased by one, or is dropped if that exceeds [max_disappeared]. *)
Theorem detections_out_of_reach_start_new_tracks (rt : runtime)
    (s : SimpleTracker) (b : box) (dets : list box) :
  lawful rt -> wf s -> objects s <> [] ->
  let cents := map Tracker.centroid_of (b :: dets) in
  (forall k oc c,
     Dict.get k (objects s) = Some oc -> In c cents ->
     (euclidean oc c > 50)%R) ->
  let s' := snd (Tracker.update rt (b :: dets) s) in
  next_object_id s' = next_object_id s + length (b :: dets) /\
  (forall k oc d,
     Dict.get k (objects s) = Some oc ->
     Dict.get k (disappeared s) = Some d ->
     if (d + 1 >? max_disappeared s)%Z
     then Dict.get k (objects s') = None
     else Dict.get k (objects s') = Some oc /\
          Dict.get k (disappeared s') = Some (d + 1)%Z).
Proof.
  intros L H Hne cents Hfar s'.
  set (D := cdist (Dict.values (objects s)) cents).
  destruct (@update_tracks_detail rt b dets s L H Hne) as
    (s2 & R & W2 & N2 & M2 & Hold & One & Hm & Hu).
  cbv zeta in R. unfold returns in R. unfold s'. rewrite R. cbn [snd].
  assert (Eu : used_by rt s (b :: dets) = ([], [])).
  { unfold used_by. fold cents. fold D. apply greedy_none_accepted.
    intros r c Hin.
    destruct (@pairs_of_valid rt (objects s) cents r c L) as
      (d & k & cc & He & Hk & Hcc); [discriminate | exact Hin |].
    fold D in He. exists d. split; [exact He|].
    destruct (track_row cents r H Hk) as (oc & Hoc & Erow). fold D in Erow.
    unfold entry in He. rewrite Erow, nth_error_map, Hcc in He.
    injection He as <-.
    assert (Hgt : (euclidean oc cc > 50)%R).
    { apply (Hfar k); [exact Hoc | eapply nth_error_In; eauto]. }
    apply euclidean_gt_50 in Hgt. lia. }
  split.
  - assert (Hl : length (range_diff rt (length cents) []) = length cents).
    { rewrite (Permutation_length (law_range_diff L _ [])).
      pose proof (@range_minus_length (length cents) [] (NoDup_nil _)) as Hl.
      cbn [length] in Hl. rewrite Nat.add_0_r in Hl. apply Hl. intros i []. }
    unfold registered_all. cbn [next_object_id]. rewrite N2. f_equal.
    unfold new_centroids. fold cents. rewrite Eu. cbn [snd].
    rewrite length_map, Hl. unfold cents. now rewrite length_map.
  - intros k oc d Ho Hd.
    assert (Hlt : k < next_object_id s2).
    { rewrite N2. eapply wf_get_below; eauto. }
    assert (Hun : forall r, In r (fst (used_by rt s (b :: dets))) ->
                            nth_error (ids s) r <> Some k).
    { rewrite Eu. intros r []. }
    specialize (Hu k d Hun Hd).
    unfold registered_all. cbn [objects disappeared]. rewrite !get_app.
    destruct (d + 1 >? max_disappeared s)%Z.
    + assert (Hn : Dict.get k (objects s2) = None).
      { apply DictFacts.get_none_iff. apply DictFacts.get_none_iff in Hu.
        unfold keys_agree in *. now rewrite (wf_keys W2). }
      rewrite Hn. now apply get_new_none.
    + destruct Hu as [Hd2 Ho2]. rewrite Ho2, Ho, Hd2. auto.
Qed.

(** *** The ids of new tracks *)


(** * Further properties of the zone test *)

Module PolygonFacts.
Import VideoProcessor GeometryFacts.

(** Every vertex list has two entries, as a test. *)
Definition all_pairs (poly : polygon) : bool :=
  forallb (fun v => length v =? 2) poly.


Lemma unpack2_outcome v :
  unpack2 v = if length v =? 2 then Val (nth 0 v 0%Z, nth 1 v 0%Z)
              else Exc ValueError.
Proof. destruct v as [|a [|b [|c v]]]; reflexivity. Qed.

(** A loop that starts each round with a lookup stops with the lookup's
    exception at the first element whose lookup fails. *)
Lemma rfold_lookup_fails X Y S (look : X -> result Y)
    (f : S -> Y -> result S) e xs :
  (forall st y, exists st', f st y = Val st') ->
  (forall x, In x xs -> (exists y, look x = Val y) \/ look x = Exc e) ->
  (exists x, In x xs /\ look x = Exc e) ->
  forall s, rfold (fun st x => rbind (look x) (f st)) xs s = Exc e.
Proof.
  intros Hf. induction xs as [|x xs IH]; intros Hl [x0 [Hin Hx0]] s.
  - destruct Hin.
  - simpl. destruct (Hl x (or_introl eq_refl)) as [[y Hy]|Hy].
    + rewrite Hy. simpl. destruct (Hf s y) as [st' Hst]. rewrite Hst. simpl.
      apply IH.
      * intros x' Hx'. apply Hl. now right.
      * destruct Hin as [->|Hin]; [congruence|]. eauto.
    + now rewrite Hy.
Qed.

Lemma vertex_at_outcome poly i :
  i < length poly ->
  (exists p, vertex_at poly i = Val p) \/ vertex_at poly i = Exc ValueError.
Proof.
  intros Hi. unfold vertex_at.
  destruct (nth_error poly i) as [v|] eqn:E;
    [|apply nth_error_None in E; lia].
  rewrite unpack2_outcome. destruct (length v =? 2); eauto.
Qed.

Lemma malformed_vertex poly :
  all_pairs poly = false ->
  exists i, i < length poly /\ vertex_at poly i = Exc ValueError.
Proof.
  unfold all_pairs. induction poly as [|v poly IH]; simpl; [discriminate|].
  destruct (length v =? 2) eqn:E; simpl.
  - intros H. destruct (IH H) as (i & Hi & Hv). exists (S i).
    split; [lia | exact Hv].
  - intros _. exists 0. split; [lia|]. unfold vertex_at. simpl.
    rewrite unpack2_outcome. now rewrite E.
Qed.

(** A vertex that is not a pair makes the test raise [ValueError]. *)
Lemma point_in_polygon_malformed x y poly :
  poly <> [] -> all_pairs poly = false ->
  point_in_polygon (x, y) poly = Exc ValueError.
Proof.
  intros Hne E.
  change (rbind (vertex_at poly 0) (fun first =>
          rbind (rfold (fun st i =>
                          rbind (vertex_at poly (i mod length poly))
                            (edge_step x y st))
                   (seq 0 (length poly + 1)) (mkRay false first None))
            (fun st => Val (inside st))) =
          Exc ValueError).
  assert (Hn : 0 < length poly) by (destruct poly; [congruence | simpl; lia]).
  destruct (vertex_at_outcome poly Hn) as [[first Hf]|Hf];
    [|now rewrite Hf].
  rewrite Hf. cbn [rbind].
  rewrite (@rfold_lookup_fails _ _ _
             (fun i => vertex_at poly (i mod length poly))
             (edge_step x y) ValueError);
    [reflexivity | | |].
  - intros st p2. destruct (edge_step_crosses x y st p2) as [xi Hx]. eauto.
  - intros i _. apply vertex_at_outcome. apply Nat.mod_upper_bound. lia.
  - destruct (malformed_vertex poly E) as (i & Hi & Hv).
    exists i. split; [apply in_seq; lia|].
    now rewrite Nat.mod_small by assumption.
Qed.

End PolygonFacts.


(** X18.  For an axis-parallel rectangle given by its corners in the order
    [(x0, y0), (x1, y0), (x1, y1), (x0, y1)], the test holds exactly of the
    points with [x0 < x <= x1] and [y0 < y <= y1]: points on the edges
    through [(x1, y1)] are inside, points on the edges through [(x0, y0)]
    are outside. *)
Theorem rectangle_zone_is_half_open (x0 y0 x1 y1 x y : Z) :
  (x0 < x1)%Z -> (y0 < y1)%Z ->
  VideoProcessor.point_in_polygon (x, y)
    [[x0; y0]; [x1; y0]; [x1; y1]; [x0; y1]] =
  Val ((x0 <? x)%Z && (x <=? x1)%Z && (y0 <? y)%Z && (y <=? y1)%Z).
Proof.
  intros Hx Hy.
  rewrite GeometryFacts.point_in_polygon_parity;
    [|repeat constructor | discriminate].
  f_equal. unfold GeometryFacts.parity, GeometryFacts.edges,
    GeometryFacts.points.
  cbn [map nth tl firstn app combine fold_left].
  rewrite !GeometryFacts.crosses_horizontal.
  unfold GeometryFacts.crosses. rewrite !Z.eqb_refl, !Z.max_id.
  rewrite (Z.min_l y0 y1), (Z.max_r y0 y1), (Z.min_r y1 y0), (Z.max_l y1 y0)
    by lia.
  rewrite !Z.gtb_ltb. cbn [orb xorb]. rewrite !andb_true_r.
  destruct (Z.ltb_spec y0 y), (Z.leb_spec y y1), (Z.leb_spec x x1),
    (Z.leb_spec x x0), (Z.ltb_spec x0 x); simpl; try reflexivity; lia.
Qed.

(** X19.  The outcome of [detect_zone] for every list of zones, valid or
    not.  An id is the id of a zone of the list whose polygon holds the
    point, [None] means that the test returned false for every zone, and
    an exception is the one the test raised on some zone; in each case the
    test returned false for all zones before that one, and the zones after
    it were not looked at. *)
Theorem detect_zone_outcomes (zs : list VideoProcessor.zone) (c : centroid) :
  let rejects := fun z =>
    VideoProcessor.point_in_polygon c (VideoProcessor.coordinates z) =
    Val false in
  match VideoProcessor.detect_zone zs c with
  | Val (Some i) =>
      exists pre z post,
        zs = pre ++ z :: post /\ VideoProcessor.zone_id z = i /\
        ZoneFacts.holds z c /\ Forall rejects pre /\
        forall post', VideoProcessor.detect_zone (pre ++ z :: post') c =
                      Val (Some i)
  | Val None => Forall rejects zs
  | Exc e =>
      exists pre z post,
        zs = pre ++ z :: post /\
        VideoProcessor.point_in_polygon c (VideoProcessor.coordinates z) =
        Exc e /\
        Forall rejects pre
  end.
Proof.
  intros rejects. induction zs as [|z zs IH]; simpl; [constructor|].
  destruct (VideoProcessor.point_in_polygon c (VideoProcessor.coordinates z))
    as [[|]|e] eqn:E; simpl.
  - exists [], z, zs. split; [reflexivity|]. split; [reflexivity|].
    split; [exact E|]. split; [constructor|].
    intros post'. simpl. now rewrite E.
  - destruct (VideoProcessor.detect_zone zs c) as [[i|]|e].
    + destruct IH as (pre & z1 & post & -> & Hi & Hh & Hp & Hpost).
      exists (z :: pre), z1, post. split; [reflexivity|].
      split; [exact Hi|]. split; [exact Hh|].
      split; [now constructor|].
      intros post'. simpl. rewrite E. simpl. apply Hpost.
    + now constructor.
    + destruct IH as (pre & z1 & post & -> & He & Hp).
      exists (z :: pre), z1, post. split; [reflexivity|].
      split; [exact He | now constructor].
  - exists [], z, zs. split; [reflexivity|]. split; [exact E | constructor].
Qed.

(** * Further properties of the frame pipeline *)

Module PipelineFacts.
Import VideoProcessor.

Lemma detect_zone_total zs c :
  Forall ZoneFacts.valid zs -> exists z, detect_zone zs c = Val z.
Proof.
  induction 1 as [|z zs Hz Hzs IH]; simpl; [eauto|].
  destruct (ZoneFacts.valid_decides c Hz) as [b Hb]. rewrite Hb. simpl.
  destruct b; eauto.
Qed.

(** The loop of [process_frame] over the tracked objects, started with
    the entries [acc]. *)
Lemma analyse_loop zs (tracked : Dict.t centroid) :
  Forall ZoneFacts.valid zs ->
  forall acc : Dict.t (centroid * option Z),
    NoDup (Dict.keys acc ++ Dict.keys tracked) ->
    exists za,
      rfold (fun acc item =>
               rbind (detect_zone zs (snd item)) (fun zid =>
               Val (Dict.set (fst item) (snd item, zid) acc)))
        tracked acc = Val za /\
      Dict.keys za = Dict.keys acc ++ Dict.keys tracked /\
      (forall k v, Dict.get k acc = Some v -> Dict.get k za = Some v) /\
      (forall k c, Dict.get k tracked = Some c ->
         exists z, detect_zone zs c = Val z /\
                   Dict.get k za = Some (c, z)).
Proof.
  intros V. induction tracked as [|[k c] tracked IH]; intros acc Hnd.
  - exists acc. simpl. rewrite app_nil_r.
    split; [reflexivity|]. split; [reflexivity|]. split; [auto|].
    intros k c Hg. discriminate.
  - simpl. destruct (detect_zone_total c V) as [z Hz]. rewrite Hz. simpl.
    assert (Hk : ~ In k (Dict.keys acc)).
    { simpl in Hnd. apply NoDup_remove_2 in Hnd. intros Hin. apply Hnd.
      apply in_or_app. now left. }
    rewrite DictFacts.set_notin by exact Hk.
    destruct (IH (acc ++ [(k, (c, z))])) as (za & R & K & A & T).
    { unfold Dict.keys. rewrite map_app. simpl. rewrite <- app_assoc.
      exact Hnd. }
    exists za. split; [exact R|]. split.
    { rewrite K. unfold Dict.keys. rewrite map_app, <- app_assoc.
      reflexivity. }
    split.
    + intros k0 v Hg. apply A. rewrite get_app. now rewrite Hg.
    + intros k0 c0 Hg. destruct (Nat.eqb_spec k0 k) as [->|Hne].
      * injection Hg as <-. exists z. split; [exact Hz|].
        apply A. now apply get_snoc.
      * now apply T.
Qed.

(** [process_frame] goes through when the tracker is well-formed and the
    zones are valid, and leaves the tracker well-formed. *)
Lemma process_frame_returns rt frame (detect : frame -> list box) f p :
  lawful rt -> wf (tracker p) -> Forall ZoneFacts.valid (zones p) ->
  exists r t',
    process_frame rt detect f p = (Val r, mkProcessor t' (zones p)) /\
    wf t'.
Proof.
  intros L H V.
  destruct (update_spec (detect f) L H) as (t' & R & P).
  unfold returns in R. pose proof (post_wf P) as W.
  destruct (@analyse_loop (zones p) (objects t') V []) as (za & Ra & _).
  { simpl. apply DictFacts.sorted_NoDup, (wf_sorted W). }
  exists (mkResult (detect f) za (length (objects t'))), t'.
  split; [|exact W].
  unfold process_frame. rewrite R. unfold analyse. now rewrite Ra.
Qed.

End PipelineFacts.

(** X20.  On a lawful runtime, with a well-formed tracker and zones that
    pass [validate_coordinates], [process_frame] returns for every frame.
    The result carries the detector's boxes; its [person_count] is the
    number of tracks the tracker holds after the call; [zone_analysis] has
    exactly one entry per such track, in the tracker's order, with the
    track's centroid and what [detect_zone] gives for it.  The zones are
    left as they were. *)
Theorem process_frame_reports_every_track (rt : runtime) (frame : Type)
    (detect : frame -> list box) (f : frame)
    (p : VideoProcessor.processor) :
  lawful rt -> wf (VideoProcessor.tracker p) ->
  Forall ZoneFacts.valid (VideoProcessor.zones p) ->
  exists r p',
    VideoProcessor.process_frame rt detect f p = (Val r, p') /\
    VideoProcessor.zones p' = VideoProcessor.zones p /\
    wf (VideoProcessor.tracker p') /\
    VideoProcessor.detections r = detect f /\
    VideoProcessor.person_count r =
    length (objects (VideoProcessor.tracker p')) /\
    Dict.keys (VideoProcessor.zone_analysis r) =
    Dict.keys (objects (VideoProcessor.tracker p')) /\
    (forall k c,
       Dict.get k (objects (VideoProcessor.tracker p')) = Some c ->
       exists z,
         VideoProcessor.detect_zone (VideoProcessor.zones p) c = Val z /\
         Dict.get k (VideoProcessor.zone_analysis r) = Some (c, z)).
Proof.
  intros L H V.
  destruct (update_spec (detect f) L H) as (t' & R & P).
  unfold returns in R. pose proof (post_wf P) as W.
  destruct (@PipelineFacts.analyse_loop (VideoProcessor.zones p) (objects t')
              V []) as (za & Ra & K & _ & T).
  { simpl. apply DictFacts.sorted_NoDup, (wf_sorted W). }
  exists (VideoProcessor.mkResult (detect f) za (length (objects t'))),
    (VideoProcessor.mkProcessor t' (VideoProcessor.zones p)).
  split.
  { unfold VideoProcessor.process_frame. rewrite R.
    unfold VideoProcessor.analyse. now rewrite Ra. }
  simpl. repeat (split; [reflexivity || assumption|]). exact T.
Qed.

(** ** Zones that are no polygons *)

Module DegenerateFacts.
Import VideoProcessor GeometryFacts.

(** The intersection with the line through two points does not depend on
    the order of the points. *)
Lemma xinters_at_sym y p1x p1y p2x p2y :
  p1y <> p2y ->
  (xinters_at y p1x p1y p2x p2y == xinters_at y p2x p2y p1x p1y)%Q.
Proof.
  intros Hne. unfold xinters_at, Z.sub.
  rewrite !inject_Z_mult, !inject_Z_plus, !inject_Z_opp.
  assert (H1 : ~ (inject_Z p2y + - inject_Z p1y == 0)%Q).
  { intros H. rewrite <- inject_Z_opp, <- inject_Z_plus in H.
    unfold Qeq in H. simpl in H. lia. }
  assert (H2 : ~ (inject_Z p1y + - inject_Z p2y == 0)%Q).
  { intros H. rewrite <- inject_Z_opp, <- inject_Z_plus in H.
    unfold Qeq in H. simpl in H. lia. }
  field. split; assumption.
Qed.

Lemma Qle_bool_eq (a b c : Q) : (b == c)%Q -> Qle_bool a b = Qle_bool a c.
Proof.
  intros E. destruct (Qle_bool a b) eqn:Eb, (Qle_bool a c) eqn:Ec;
    try reflexivity.
  - apply Qle_bool_iff in Eb. rewrite E in Eb. apply Qle_bool_iff in Eb.
    congruence.
  - apply Qle_bool_iff in Ec. rewrite <- E in Ec. apply Qle_bool_iff in Ec.
    congruence.
Qed.

(** The rule does not depend on the direction of the edge. *)
Lemma crosses_sym x y a b : crosses x y (a, b) = crosses x y (b, a).
Proof.
  destruct a as [ax ay], b as [bx by_]. unfold crosses.
  rewrite (Z.min_comm by_ ay), (Z.max_comm by_ ay), (Z.max_comm bx ax),
    (Z.eqb_sym bx ax).
  destruct (Z.gtb_spec y (Z.min ay by_)) as [Hlo|Hlo]; [|reflexivity].
  destruct (Z.leb_spec y (Z.max ay by_)) as [Hhi|Hhi]; [|reflexivity].
  destruct (x <=? Z.max ax bx)%Z; [|reflexivity]. cbn [andb].
  destruct (ax =? bx)%Z; [reflexivity|]. cbn [orb].
  apply Qle_bool_eq, xinters_at_sym. lia.
Qed.

End DegenerateFacts.

(** X21.  A vertex list of one or two pairs, which [load_zones] accepts
    and [validate_coordinates] rejects, holds no point: the test returns
    false for every point. *)
Theorem degenerate_zone_holds_no_point (x y : Z) (poly : polygon) :
  poly <> [] -> length poly < 3 -> GeometryFacts.well_formed poly ->
  validate_coordinates poly = false /\
  VideoProcessor.point_in_polygon (x, y) poly = Val false.
Proof.
  intros Hne Hlen W. split.
  - unfold validate_coordinates.
    destruct (Nat.ltb_spec (length poly) 3) as [_|Hge]; [|lia].
    now rewrite orb_true_r.
  - rewrite GeometryFacts.point_in_polygon_parity by assumption.
    f_equal. destruct poly as [|a [|b [|c poly]]];
      [congruence | | | simpl in Hlen; lia].
    + unfold GeometryFacts.parity, GeometryFacts.edges, GeometryFacts.points.
      cbn [map tl firstn app combine fold_left].
      now rewrite GeometryFacts.crosses_horizontal.
    + unfold GeometryFacts.parity, GeometryFacts.edges, GeometryFacts.points.
      cbn [map tl firstn app combine fold_left].
      rewrite (DegenerateFacts.crosses_sym x y
                 (nth 0 b 0%Z, nth 1 b 0%Z) (nth 0 a 0%Z, nth 1 a 0%Z)).
      cbn [xorb]. apply xorb_nilpotent.
Qed.

(** ** A frame that fails in the zone analysis *)

(** X22.  If the first zone has a vertex that is not a pair, every frame
    in which the detector finds someone makes [process_frame] raise
    [ValueError], and the tracker has taken the frame all the same: the
    processor is left with the tracker as [update] has left it, holding at
    least as many tracks as there were detections. *)
Theorem malformed_zone_fails_frame_after_tracking (rt : runtime)
    (frame : Type) (detect : frame -> list box) (f : frame)
    (p : VideoProcessor.processor) (z : VideoProcessor.zone)
    (zs : list VideoProcessor.zone) :
  lawful rt -> wf (VideoProcessor.tracker p) ->
  VideoProcessor.zones p = z :: zs ->
  VideoProcessor.coordinates z <> [] ->
  PolygonFacts.all_pairs (VideoProcessor.coordinates z) = false ->
  detect f <> [] ->
  let t' := snd (Tracker.update rt (detect f) (VideoProcessor.tracker p)) in
  VideoProcessor.process_frame rt detect f p =
  (Exc ValueError, VideoProcessor.mkProcessor t' (z :: zs)) /\
  length (detect f) <= length (objects t').
Proof.
  intros L H Hz Hne Hbad Hdet t'.
  pose proof (@update_count rt (detect f) _ L H) as Hc. fold t' in Hc.
  destruct (update_spec (detect f) L H) as (t1 & R & _).
  unfold returns in R. unfold t' in *. rewrite R in *. cbn [snd] in *.
  split; [|exact Hc].
  unfold VideoProcessor.process_frame. rewrite R, Hz.
  destruct (objects t1) as [|[k c] rest] eqn:Eo.
  { destruct (detect f); [congruence | simpl in Hc; lia]. }
  unfold VideoProcessor.analyse. cbn [rfold VideoProcessor.detect_zone snd].
  destruct c as [cx cy].
  now rewrite (PolygonFacts.point_in_polygon_malformed cx cy Hne Hbad).
Qed.

(** ** The number of results of a video *)

Module VideoFacts.
Import VideoProcessor SamplingFacts.

(** The frame counts [process_video] stops at. *)
Definition sampled_counts (n : nat) : list nat :=
  filter (fun i => i mod 5 =? 0) (seq 0 n).

Lemma sampled_counts_length n : length (sampled_counts n) = (n + 4) / 5.
Proof.
  unfold sampled_counts. induction n as [|n IH]; [reflexivity|].
  rewrite seq_S, filter_app, length_app, IH. cbn [filter Nat.add]. clear IH.
  pose proof (Nat.div_mod_eq n 5) as E.
  assert (B : n mod 5 < 5) by (apply Nat.mod_upper_bound; lia).
  destruct (Nat.eqb_spec (n mod 5) 0) as [E0|E0]; cbn [length].
  - assert (E2 : S (n + 4) = 0 + (n / 5 + 1) * 5) by lia.
    assert (E1 : n + 4 = 4 + n / 5 * 5) by lia.
    rewrite E2, E1, !Nat.div_add by lia.
    rewrite (Nat.div_small 4 5), (Nat.div_small 0 5) by lia. lia.
  - assert (E2 : S (n + 4) = n mod 5 + (n / 5 + 1) * 5) by lia.
    assert (E1 : n + 4 = (n mod 5 - 1) + (n / 5 + 1) * 5) by lia.
    rewrite E2, E1, !Nat.div_add by lia.
    rewrite (Nat.div_small (n mod 5) 5), (Nat.div_small (n mod 5 - 1) 5)
      by lia.
    lia.
Qed.

Lemma map_fst_filter A (p : nat -> bool) (l : list (nat * A)) :
  map fst (filter (fun ix => p (fst ix)) l) = filter p (map fst l).
Proof.
  induction l as [|[i a] l IH]; simpl; [reflexivity|].
  destruct (p i); simpl; now rewrite IH.
Qed.

Lemma map_fst_combine_seq A (l : list A) : forall k,
  map fst (combine (seq k (length l)) l) = seq k (length l).
Proof.
  induction l as [|a l IH]; intros k; simpl; [reflexivity|].
  now rewrite IH.
Qed.

Lemma sampled_indexes frame (frames : list frame) :
  map fst (sampled 5 0 frames) = sampled_counts (length frames).
Proof.
  unfold sampled, sampled_counts.
  rewrite (map_fst_filter (fun i => i mod 5 =? 0)).
  now rewrite map_fst_combine_seq.
Qed.

Section Loop.
Variable rt : runtime.
Variable frame : Type.
Variable detect : frame -> list box.
Hypothesis L : lawful rt.

(** [process_frame] on each of the frames in turn goes through. *)
Lemma process_each_returns callback fs : forall results calls p,
  wf (tracker p) -> Forall ZoneFacts.valid (zones p) ->
  exists rs p',
    process_each rt detect callback fs results calls p =
    (Val (results ++ rs,
          calls ++ (if callback then map fst fs else [])), p') /\
    length rs = length fs /\
    zones p' = zones p /\ wf (tracker p').
Proof.
  induction fs as [|[i f] fs IH]; intros results calls p H V.
  - exists [], p. simpl. rewrite !app_nil_r.
    destruct callback; simpl; rewrite ?app_nil_r; auto.
  - destruct (PipelineFacts.process_frame_returns detect f p L H V)
      as (r & t1 & R & W1).
    cbn [process_each]. rewrite R.
    destruct (IH (results ++ [r]) (if callback then calls ++ [i] else calls)
                (mkProcessor t1 (zones p)) W1) as (rs & p' & R' & Hl & Z' & W');
      [exact V|].
    exists (r :: rs), p'. rewrite R'. split.
    + rewrite <- app_assoc. destruct callback; [|reflexivity].
      now rewrite <- app_assoc.
    + split; [simpl; lia|]. split; [exact Z' | exact W'].
Qed.
End Loop.

End VideoFacts.

(** X23.  On a lawful runtime, with a well-formed tracker and zones that
    pass [validate_coordinates], [process_video] on an opened video goes
    through all its frames and returns one result for every fifth frame,
    the first included: [ceil(n / 5)] results for [n] frames.  A callback
    is called once per result, with the frame counts 0, 5, 10, ... in
    ascending order; the zones are left as they were. *)
Theorem process_video_result_count (rt : runtime) (frame : Type)
    (detect : frame -> list box) (frames : list frame) (callback : bool)
    (p : VideoProcessor.processor) :
  lawful rt -> wf (VideoProcessor.tracker p) ->
  Forall ZoneFacts.valid (VideoProcessor.zones p) ->
  exists results calls p',
    VideoProcessor.process_video rt detect (Some frames) callback p =
    (Val (results, calls), p') /\
    length results = (length frames + 4) / 5 /\
    calls = (if callback
             then filter (fun i => i mod 5 =? 0) (seq 0 (length frames))
             else []) /\
    VideoProcessor.zones p' = VideoProcessor.zones p /\
    wf (VideoProcessor.tracker p').
Proof.
  intros L H V.
  destruct (@VideoFacts.process_each_returns rt frame detect L callback
              (SamplingFacts.sampled 5 0 frames) [] [] p H V)
    as (rs & p' & R & Hl & Z' & W').
  exists rs, (if callback
              then filter (fun i => i mod 5 =? 0) (seq 0 (length frames))
              else []), p'.
  split.
  { unfold VideoProcessor.process_video.
    rewrite SamplingFacts.video_loop_sampled, R. simpl.
    rewrite VideoFacts.sampled_indexes. reflexivity. }
  split; [|auto].
  rewrite Hl, <- VideoFacts.sampled_counts_length,
    <- VideoFacts.sampled_indexes.
  now rewrite length_map.
Qed.

(** * Properties of the helpers *)

Module PeakFacts.
Import Helpers.

Section Facts.
Variable K : Type.
Implicit Types (x y : K * Z) (l items : list (K * Z)).

(** [b]'s count is at most [a]'s. *)
Definition ge_count x y : Prop := (snd y <= snd x)%Z.

Lemma insert_desc_perm x l : Permutation (insert_desc x l) (x :: l).
Proof.
  induction l as [|y l IH]; simpl; [reflexivity|].
  destruct (snd x <? snd y)%Z; [|reflexivity].
  rewrite IH. apply perm_swap.
Qed.

Lemma sorted_desc_perm items : Permutation (sorted_desc items) items.
Proof.
  induction items as [|x items IH]; simpl; [reflexivity|].
  rewrite insert_desc_perm. now constructor.
Qed.

Lemma insert_desc_sorted x l :
  StronglySorted ge_count l -> StronglySorted ge_count (insert_desc x l).
Proof.
  induction 1 as [|y l Hs IH Hall]; simpl.
  - repeat constructor.
  - destruct (Z.ltb_spec (snd x) (snd y)) as [Hlt|Hge].
    + constructor; [exact IH|].
      eapply Permutation_Forall; [symmetry; apply insert_desc_perm|].
      constructor; [unfold ge_count; lia | exact Hall].
    + constructor; [now constructor|].
      constructor; [exact Hge|].
      eapply Forall_impl; [|exact Hall]. unfold ge_count. intros; lia.
Qed.

Lemma sorted_desc_sorted items : StronglySorted ge_count (sorted_desc items).
Proof.
  induction items as [|x items IH]; simpl; [constructor|].
  now apply insert_desc_sorted.
Qed.

(** The sort is stable: the items with a given count are in the order
    they had. *)
Lemma insert_desc_stable c x l :
  filter (fun p => (snd p =? c)%Z) (insert_desc x l) =
  filter (fun p => (snd p =? c)%Z) (x :: l).
Proof.
  induction l as [|y l IH]; [reflexivity|].
  cbn [insert_desc]. destruct (Z.ltb_spec (snd x) (snd y)) as [Hlt|Hge];
    [|reflexivity].
  cbn [filter] in *. rewrite IH.
  destruct (Z.eqb_spec (snd x) c) as [Ex|Ex]; [|reflexivity].
  destruct (Z.eqb_spec (snd y) c) as [Ey|Ey]; [lia | reflexivity].
Qed.

Lemma sorted_desc_stable c items :
  filter (fun p => (snd p =? c)%Z) (sorted_desc items) =
  filter (fun p => (snd p =? c)%Z) items.
Proof.
  induction items as [|x items IH]; [reflexivity|].
  cbn [sorted_desc fold_right]. fold (sorted_desc items).
  rewrite insert_desc_stable. cbn [filter]. now rewrite IH.
Qed.

Lemma in_firstn l n x : In x (firstn n l) -> In x l.
Proof.
  intros H. rewrite <- (firstn_skipn n l). apply in_or_app. now left.
Qed.

Lemma in_skipn l n x : In x (skipn n l) -> In x l.
Proof.
  intros H. rewrite <- (firstn_skipn n l). apply in_or_app. now right.
Qed.

(** An entry of the first [n] items of a sorted list has a count that is
    at least that of any item further down. *)
Lemma sorted_firstn_skipn l n x y :
  StronglySorted ge_count l ->
  In x (firstn n l) -> In y (skipn n l) -> ge_count x y.
Proof.
  intros Hs. revert n. induction Hs as [|z l Hs IH Hall]; intros n Hx Hy.
  - destruct n; destruct Hx.
  - destruct n as [|n]; [destruct Hx|]. simpl in Hx, Hy.
    destruct Hx as [<-|Hx].
    + rewrite Forall_forall in Hall. apply Hall.
      eapply in_skipn. exact Hy.
    + now apply (IH n).
Qed.

Lemma sorted_nth l : forall i j x y,
  StronglySorted ge_count l -> i < j ->
  nth_error l i = Some x -> nth_error l j = Some y -> ge_count x y.
Proof.
  intros i j x y Hs. revert i j.
  induction Hs as [|z l Hs IH Hall]; intros i j Hij Hi Hj.
  - destruct i; discriminate.
  - destruct j as [|j]; [lia|]. destruct i as [|i]; simpl in Hi, Hj.
    + injection Hi as <-. rewrite Forall_forall in Hall. apply Hall.
      eapply nth_error_In; eauto.
    + apply (IH i j); [lia | assumption | assumption].
Qed.

(** With distinct keys, a key has one count. *)
Lemma one_count items h c c' :
  NoDup (map fst items) -> In (h, c) items -> In (h, c') items -> c = c'.
Proof.
  induction items as [|[k v] items IH]; simpl; [tauto|].
  intros Hnd Hc Hc'. inversion Hnd as [|? ? Hn Hnd']; subst.
  assert (Hk : forall w, In (k, w) items -> False).
  { intros w Hw. apply Hn. apply in_map_iff. now exists (k, w). }
  destruct Hc as [Hc|Hc], Hc' as [Hc'|Hc'].
  - congruence.
  - injection Hc as -> ->. destruct (Hk _ Hc').
  - injection Hc' as -> ->. destruct (Hk _ Hc).
  - now apply IH.
Qed.

(** [a] comes before [b] in [l]. *)
Definition before (a b : K * Z) l : Prop :=
  exists l1 l2 l3, l = l1 ++ a :: l2 ++ b :: l3.

Lemma before_nth l i j a b :
  i < j -> nth_error l i = Some a -> nth_error l j = Some b -> before a b l.
Proof.
  intros Hij Hi Hj.
  destruct (nth_error_split l i Hi) as (l1 & r & -> & Hl1).
  rewrite nth_error_app2 in Hj by lia.
  replace (j - length l1) with (S (j - i - 1)) in Hj by lia. simpl in Hj.
  destruct (nth_error_split r (j - i - 1) Hj) as (l2 & l3 & -> & _).
  now exists l1, l2, l3.
Qed.

Lemma nth_before l a b :
  before a b l ->
  exists i j, i < j /\ nth_error l i = Some a /\ nth_error l j = Some b.
Proof.
  intros (l1 & l2 & l3 & ->).
  exists (length l1), (length l1 + S (length l2)). split; [lia|]. split.
  - rewrite nth_error_app2 by lia. now rewrite Nat.sub_diag.
  - rewrite nth_error_app2 by lia.
    replace (length l1 + S (length l2) - length l1) with (S (length l2))
      by lia.
    simpl. rewrite nth_error_app2 by lia. now rewrite Nat.sub_diag.
Qed.

Lemma filter_split (p : K * Z -> bool) l : forall m1 m2,
  filter p l = m1 ++ m2 ->
  exists l1 l2, l = l1 ++ l2 /\ filter p l1 = m1 /\ filter p l2 = m2.
Proof.
  induction l as [|x l IH]; intros m1 m2 E.
  - simpl in E. symmetry in E. apply app_eq_nil in E. destruct E as [-> ->].
    now exists [], [].
  - simpl in E. destruct (p x) eqn:Ep.
    + destruct m1 as [|y m1].
      * exists [], (x :: l). simpl. rewrite Ep. auto.
      * simpl in E. injection E as <- E.
        destruct (IH m1 m2 E) as (l1 & l2 & -> & F1 & F2).
        exists (x :: l1), l2. simpl. rewrite Ep, F1. auto.
    + destruct (IH m1 m2 E) as (l1 & l2 & -> & F1 & F2).
      exists (x :: l1), l2. simpl. rewrite Ep. auto.
Qed.

Lemma filter_cons_split (p : K * Z -> bool) l a m :
  filter p l = a :: m ->
  exists l1 l2, l = l1 ++ a :: l2 /\ filter p l2 = m.
Proof.
  induction l as [|x l IH]; simpl; [discriminate|].
  destruct (p x) eqn:Ep.
  - intros [= -> <-]. now exists [], l.
  - intros E. destruct (IH E) as (l1 & l2 & -> & F).
    now exists (x :: l1), l2.
Qed.

Lemma before_filter (p : K * Z -> bool) l a b :
  before a b l -> p a = true -> p b = true -> before a b (filter p l).
Proof.
  intros (l1 & l2 & l3 & ->) Ha Hb.
  exists (filter p l1), (filter p l2), (filter p l3).
  rewrite filter_app. cbn [filter]. rewrite Ha, filter_app. cbn [filter].
  now rewrite Hb.
Qed.

Lemma filter_before (p : K * Z -> bool) l a b :
  before a b (filter p l) -> before a b l.
Proof.
  intros (m1 & m2 & m3 & E).
  destruct (filter_split p l m1 (a :: m2 ++ b :: m3) E)
    as (l1 & r & -> & _ & F).
  destruct (filter_cons_split p r F) as (r1 & r2 & -> & F2).
  destruct (filter_split p r2 m2 (b :: m3) F2) as (r3 & r4 & -> & _ & F3).
  destruct (filter_cons_split p r4 F3) as (r5 & r6 & -> & _).
  exists (l1 ++ r1), (r3 ++ r5), r6. now rewrite <- !app_assoc.
Qed.

(** What is listed at a position among the peak hours. *)
Lemma peak_at items i h :
  NoDup (map fst items) ->
  nth_error (calculate_peak_hours items) i = Some h ->
  exists c, nth_error (sorted_desc items) i = Some (h, c) /\
            In (h, c) items.
Proof.
  intros Hnd Hi. unfold calculate_peak_hours in Hi.
  rewrite nth_error_map in Hi.
  destruct (nth_error (firstn 3 (sorted_desc items)) i) as [[h' c]|] eqn:E;
    [|discriminate].
  injection Hi as ->. exists c.
  assert (Hs : nth_error (sorted_desc items) i = Some (h, c)).
  { destruct (Nat.lt_ge_cases i 3) as [Hlt|Hge].
    - now rewrite nth_error_firstn, (proj2 (Nat.ltb_lt i 3) Hlt) in E.
    - assert (Hn : nth_error (firstn 3 (sorted_desc items)) i = None).
      { apply nth_error_None. rewrite length_firstn. lia. }
      congruence. }
  split; [exact Hs|].
  apply (Permutation_in _ (sorted_desc_perm items)).
  eapply nth_error_In; eauto.
Qed.

End Facts.
End PeakFacts.

(** X24.  For a dict with distinct keys, [calculate_peak_hours] returns
    three of its hours, or all of them if there are fewer, each once, and
    no hour it leaves out has a greater count than an hour it returns. *)
Theorem peak_hours_dominate (K : Type) (hourly_data : list (K * Z)) :
  NoDup (map fst hourly_data) ->
  let peaks := Helpers.calculate_peak_hours hourly_data in
  length peaks = Nat.min 3 (length hourly_data) /\
  NoDup peaks /\
  (forall h, In h peaks -> In h (map fst hourly_data)) /\
  (forall h c h' c',
     In (h, c) hourly_data -> In (h', c') hourly_data ->
     In h peaks -> ~ In h' peaks -> (c' <= c)%Z).
Proof.
  intros Hnd peaks.
  pose proof (PeakFacts.sorted_desc_perm hourly_data) as P.
  set (s := Helpers.sorted_desc hourly_data) in *.
  assert (Hs : NoDup (map fst s)).
  { eapply Permutation_NoDup; [|exact Hnd].
    apply Permutation_map, Permutation_sym, P. }
  assert (Es : map fst s = peaks ++ map fst (skipn 3 s)).
  { unfold peaks, Helpers.calculate_peak_hours. fold s.
    now rewrite <- map_app, firstn_skipn. }
  split; [|split; [|split]].
  - unfold peaks, Helpers.calculate_peak_hours. fold s.
    rewrite length_map, length_firstn, (Permutation_length P). reflexivity.
  - rewrite Es in Hs. now apply NoDup_app_remove_r in Hs.
  - intros h Hh. apply (Permutation_in _ (Permutation_map fst P)).
    rewrite Es. apply in_or_app. now left.
  - intros h c h' c' Hc Hc' Hh Hh'.
    unfold peaks, Helpers.calculate_peak_hours in Hh. fold s in Hh.
    apply in_map_iff in Hh. destruct Hh as ([h0 c0] & E0 & Hin0).
    simpl in E0. subst h0.
    assert (c0 = c).
    { apply (@PeakFacts.one_count K hourly_data h c0 c Hnd); [|exact Hc].
      apply (Permutation_in _ P). eapply PeakFacts.in_firstn. exact Hin0. }
    subst c0.
    assert (Hin' : In (h', c') (skipn 3 s)).
    { apply (Permutation_in _ (Permutation_sym P)) in Hc'.
      rewrite <- (firstn_skipn 3 s) in Hc'. apply in_app_or in Hc'.
      destruct Hc' as [Hc'|Hc']; [|exact Hc'].
      exfalso. apply Hh'. unfold peaks, Helpers.calculate_peak_hours.
      fold s. apply in_map_iff. now exists (h', c'). }
    change (PeakFacts.ge_count (h, c) (h', c')).
    eapply PeakFacts.sorted_firstn_skipn;
      [apply PeakFacts.sorted_desc_sorted | exact Hin0 | exact Hin'].
Qed.

(** X25.  [calculate_peak_hours] lists the hours by descending count, and
    hours with equal counts in the order in which the dict holds them. *)
Theorem peak_hours_order (K : Type) (hourly_data : list (K * Z))
    (i j : nat) (hi hj : K) (ci cj : Z) :
  NoDup (map fst hourly_data) ->
  i < j ->
  nth_error (Helpers.calculate_peak_hours hourly_data) i = Some hi ->
  nth_error (Helpers.calculate_peak_hours hourly_data) j = Some hj ->
  In (hi, ci) hourly_data -> In (hj, cj) hourly_data ->
  (cj <= ci)%Z /\
  (ci = cj ->
   exists a b,
     a < b /\ nth_error hourly_data a = Some (hi, ci) /\
     nth_error hourly_data b = Some (hj, cj)).
Proof.
  intros Hnd Hij Hi Hj Hci Hcj.
  destruct (PeakFacts.peak_at hourly_data i Hnd Hi) as (c1 & S1 & I1).
  destruct (PeakFacts.peak_at hourly_data j Hnd Hj) as (c2 & S2 & I2).
  assert (c1 = ci) by (eapply PeakFacts.one_count; eauto).
  assert (c2 = cj) by (eapply PeakFacts.one_count; eauto).
  subst c1 c2. split.
  - change (PeakFacts.ge_count (hi, ci) (hj, cj)).
    eapply PeakFacts.sorted_nth;
      [apply PeakFacts.sorted_desc_sorted | exact Hij | exact S1 | exact S2].
  - intros <-. apply PeakFacts.nth_before.
    apply (@PeakFacts.filter_before K (fun p => (snd p =? ci)%Z)).
    rewrite <- PeakFacts.sorted_desc_stable.
    apply PeakFacts.before_filter; [|apply Z.eqb_refl | apply Z.eqb_refl].
    eapply PeakFacts.before_nth; eauto.
Qed.

Module CrudFacts.
Import Crud.

Definition total (d : Dict.t Z) : Z := fold_right Z.add 0%Z (Dict.values d).

Lemma total_set (d : Dict.t Z) : forall h v w,
  Dict.get h d = Some v -> total (Dict.set h w d) = (total d - v + w)%Z.
Proof.
  unfold total. induction d as [|[k u] d IH]; intros h v w; simpl;
    [discriminate|].
  destruct (Nat.eqb h k).
  - intros [= <-]. simpl. lia.
  - intros Hg. simpl. rewrite (IH h v w Hg). lia.
Qed.

Lemma get_zeros k a n :
  a <= k < a + n ->
  Dict.get k (map (fun hour => (hour, 0%Z)) (seq a n)) = Some 0%Z.
Proof.
  revert a. induction n as [|n IH]; intros a H; [lia|]. simpl.
  destruct (Nat.eqb_spec k a); [reflexivity|]. apply IH. lia.
Qed.

Lemma total_zeros a n : total (map (fun hour => (hour, 0%Z)) (seq a n)) = 0%Z.
Proof.
  unfold total. revert a. induction n as [|n IH]; intros a; [reflexivity|].
  simpl. now rewrite IH.
Qed.

Lemma keys_zeros a n :
  Dict.keys (map (fun hour => (hour, 0%Z)) (seq a n)) = seq a n.
Proof.
  unfold Dict.keys. rewrite map_map. simpl. apply map_id.
Qed.

(** The counting loop from any dict that has all the hours. *)
Lemma count_loop hours : forall d,
  Forall (fun h => In h (Dict.keys d)) hours ->
  exists d',
    rfold (fun hourly_data hour => increment hour hourly_data) hours d =
    Val d' /\
    Dict.keys d' = Dict.keys d /\
    (forall h v, Dict.get h d = Some v ->
       Dict.get h d' =
       Some (v + Z.of_nat (count_occ Nat.eq_dec hours h))%Z) /\
    total d' = (total d + Z.of_nat (length hours))%Z.
Proof.
  induction hours as [|h0 hours IH]; intros d Hin.
  - exists d. simpl. split; [reflexivity|]. split; [reflexivity|]. split.
    + intros h v Hg. rewrite Hg. f_equal. lia.
    + lia.
  - inversion Hin as [|? ? H0 Hrest]; subst.
    apply DictFacts.get_in_keys in H0.
    destruct (Dict.get h0 d) as [v0|] eqn:E0; [|congruence].
    assert (Hk : Dict.keys (Dict.set h0 (v0 + 1)%Z d) = Dict.keys d).
    { apply DictFacts.keys_set_in. eapply DictFacts.get_some_in; eauto. }
    destruct (IH (Dict.set h0 (v0 + 1)%Z d)) as (d' & R & K & G & T).
    { now rewrite Hk. }
    exists d'. split.
    { simpl. unfold increment at 1. rewrite E0. exact R. }
    split; [congruence|]. split.
    + intros h v Hg. cbn [count_occ].
      destruct (Nat.eq_dec h0 h) as [->|Hne].
      * assert (v = v0) by congruence. subst v.
        rewrite (G h (v0 + 1)%Z) by apply DictFacts.get_set_same.
        f_equal. lia.
      * rewrite (G h v); [reflexivity|].
        rewrite DictFacts.get_set_other by congruence. exact Hg.
    + rewrite T. erewrite total_set; [|exact E0]. cbn [length]. lia.
Qed.

End CrudFacts.

(** X26.  For visits whose entry hours are hours of the day,
    [get_hourly_distribution] returns a dict with the keys 0 to 23 in
    ascending order; the count of each hour is the number of visits that
    entered in that hour, and the counts add up to the number of
    visits. *)
Theorem hourly_distribution_counts_every_visit (hours : list nat) :
  Forall (fun h => h < 24) hours ->
  exists d,
    Crud.get_hourly_distribution hours = Val d /\
    Dict.keys d = seq 0 24 /\
    (forall h, h < 24 ->
       Dict.get h d = Some (Z.of_nat (count_occ Nat.eq_dec hours h))) /\
    fold_right Z.add 0%Z (Dict.values d) = Z.of_nat (length hours).
Proof.
  intros H.
  destruct (@CrudFacts.count_loop hours
              (map (fun hour => (hour, 0%Z)) (seq 0 24))) as (d & R & K & G & T).
  { rewrite CrudFacts.keys_zeros. eapply Forall_impl; [|exact H].
    intros h Hh. apply in_seq. simpl in *. lia. }
  exists d. split; [exact R|]. split.
  { now rewrite K, CrudFacts.keys_zeros. }
  split.
  - intros h Hh. rewrite (G h 0%Z); [reflexivity|].
    apply CrudFacts.get_zeros. lia.
  - change (CrudFacts.total d = Z.of_nat (length hours)).
    rewrite T, CrudFacts.total_zeros. lia.
Qed.

(** * The further properties at concrete inputs *)

(** A box whose centroid is (8, 9), within 50 of the centroid (5, 5) of
    [lone_track], and one whose centroid is (500, 500). *)
Definition near_box : box := (-2, -11, 20, 40)%Z.
Definition far_box : box := (490, 480, 20, 40)%Z.

Lemma objects_lone_track : objects lone_track <> [].
Proof. discriminate. Qed.

Lemma register_then_deregister_witness :
  wf lone_track /\
  Tracker.deregister 1 (snd (Tracker.register (7, 7)%Z lone_track)) =
  (Val tt, mkTracker 2 [(0, (5, 5)%Z)] [(0, 0%Z)] 1).
Proof.
  split; [exact wf_lone_track|].
  exact (proj2 (proj2 (proj2
           (@register_then_deregister (7, 7)%Z lone_track wf_lone_track)))).
Defined.

Lemma deregister_raises_iff_not_live_witness :
  wf lone_track /\ ~ In 5 (ids lone_track) /\
  Tracker.deregister 5 lone_track = (Exc KeyError, lone_track).
Proof.
  assert (Hn : ~ In 5 (ids lone_track)) by (simpl; lia).
  split; [exact wf_lone_track|]. split; [exact Hn|].
  exact (proj1 (@deregister_raises_iff_not_live 5 lone_track wf_lone_track)
           Hn).
Defined.

Lemma update_without_detections_only_ages_witness :
  wf lone_track /\
  let s' := snd (Tracker.update cpython [] lone_track) in
  Tracker.update cpython [] lone_track = (Val (objects s'), s') /\
  next_object_id s' = next_object_id lone_track.
Proof.
  split; [exact wf_lone_track|].
  pose proof (@update_without_detections_only_ages cpython lone_track
                wf_lone_track) as H.
  split; [exact (proj1 H) | exact (proj1 (proj2 H))].
Defined.


Lemma assignment_is_one_to_one_witness :
  let s := mkTracker 1 [(0, (0, 0)%Z)] [(0, 3%Z)] 50 in
  let D := cdist [(0, 0)%Z] [(30, 40)%Z] in
  for_fold [(0, 0)] ([], []) (Tracker.match_pair D [0] [(30, 40)%Z]) s =
  (Val ([0], [0]), mkTracker 1 [(0, (30, 40)%Z)] [(0, 0%Z)] 50) /\
  (NoDup [0] /\ NoDup [0] /\ length [0] = length [0] /\
   forall i row col,
     nth_error [0] i = Some row -> nth_error [0] i = Some col ->
     In (row, col) [(0, 0)] /\
     exists d, entry D row col = Some d /\ (d <= 2500)%Z).
Proof.
  intros s D.
  assert (R : for_fold [(0, 0)] ([], [])
                (Tracker.match_pair D [0] [(30, 40)%Z]) s =
              (Val ([0], [0]), mkTracker 1 [(0, (30, 40)%Z)] [(0, 0%Z)] 50))
    by reflexivity.
  split; [exact R|]. exact (assignment_is_one_to_one _ _ _ _ _ R).
Defined.

Lemma update_keeps_every_detection_witness :
  lawful cpython /\ wf lone_track /\ [near_box; far_box] <> [] /\
  exists s',
    Tracker.update cpython [near_box; far_box] lone_track =
    (Val (objects s'), s') /\
    (forall c, In c (map Tracker.centroid_of [near_box; far_box]) ->
       exists k, Dict.get k (objects s') = Some c) /\
    length [near_box; far_box] <= length (objects s').
Proof.
  assert (Hne : [near_box; far_box] <> []) by discriminate.
  split; [exact cpython_lawful|]. split; [exact wf_lone_track|].
  split; [exact Hne|].
  exact (@update_keeps_every_detection cpython lone_track [near_box; far_box]
           cpython_lawful wf_lone_track Hne).
Defined.

Lemma track_moves_at_most_50_witness :
  lawful cpython /\ wf lone_track /\
  Dict.get 0 (objects lone_track) = Some (5, 5)%Z /\
  Dict.get 0 (objects (snd (Tracker.update cpython [near_box] lone_track))) =
  Some (8, 9)%Z /\
  ((8, 9)%Z = (5, 5)%Z \/ In (8, 9)%Z (map Tracker.centroid_of [near_box])) /\
  (euclidean (5, 5)%Z (8, 9)%Z <= 50)%R.
Proof.
  assert (Ho : Dict.get 0 (objects lone_track) = Some (5, 5)%Z)
    by reflexivity.
  assert (Ho' : Dict.get 0 (objects (snd (Tracker.update cpython [near_box]
                                            lone_track))) = Some (8, 9)%Z)
    by (vm_compute; reflexivity).
  split; [exact cpython_lawful|]. split; [exact wf_lone_track|].
  split; [exact Ho|]. split; [exact Ho'|].
  exact (@track_moves_at_most_50 cpython lone_track [near_box] 0 (5, 5)%Z
           (8, 9)%Z cpython_lawful wf_lone_track Ho Ho').
Defined.

Lemma counters_stay_within_threshold_witness :
  let s := snd (Tracker.update cpython five_people (Tracker.init 50)) in
  lawful cpython /\ reachable cpython s /\
  Dict.get 3 (disappeared s) = Some 0%Z /\
  (0 <= 0 <= Z.max 0 (max_disappeared s))%Z.
Proof.
  intros s.
  assert (R : reachable cpython s) by (apply reach_update, reach_init).
  assert (Hg : Dict.get 3 (disappeared s) = Some 0%Z)
    by (vm_compute; reflexivity).
  split; [exact cpython_lawful|]. split; [exact R|]. split; [exact Hg|].
  exact (@counters_stay_within_threshold cpython s cpython_lawful R 3 0%Z Hg).
Defined.

Lemma lone_track_meets_lone_detection_witness :
  lawful cpython /\ 0 < 1 /\
  ((euclidean (5, 5)%Z (8, 9)%Z <= 50)%R ->
   Tracker.update cpython [near_box] lone_track =
   (Val [(0, (8, 9)%Z)], mkTracker 1 [(0, (8, 9)%Z)] [(0, 0%Z)] 1)).
Proof.
  assert (Hk : 0 < 1) by lia.
  split; [exact cpython_lawful|]. split; [exact Hk|].
  exact (proj1 (@lone_track_meets_lone_detection cpython 0 1 (5, 5)%Z 0%Z 1%Z
                  near_box cpython_lawful Hk)).
Defined.



(** A processor with one zone, and a detector that finds the same five
    people in every frame. *)
Definition shop : VideoProcessor.processor :=
  VideoProcessor.mkProcessor (Tracker.init 50) [square_zone].

Definition sees_five (_ : nat) : list box := five_people.

Lemma shop_zones_valid : Forall ZoneFacts.valid (VideoProcessor.zones shop).
Proof. repeat constructor. Qed.

Lemma person_count_covers_detections_witness :
  let out := VideoProcessor.process_frame cpython sees_five 0 shop in
  let r := match fst out with
           | Val r => r
           | Exc _ => VideoProcessor.mkResult [] [] 0
           end in
  lawful cpython /\ wf (VideoProcessor.tracker shop) /\
  VideoProcessor.process_frame cpython sees_five 0 shop = (Val r, snd out) /\
  VideoProcessor.detections r = sees_five 0 /\
  VideoProcessor.person_count r =
  length (objects (VideoProcessor.tracker (snd out))) /\
  length (VideoProcessor.detections r) <= VideoProcessor.person_count r.
Proof.
  intros out r.
  assert (R : VideoProcessor.process_frame cpython sees_five 0 shop =
              (Val r, snd out)) by (vm_compute; reflexivity).
  split; [exact cpython_lawful|]. split; [exact (wf_init 50)|].
  split; [exact R|].
  exact (@person_count_covers_detections cpython nat sees_five 0 shop (snd out)
           r cpython_lawful (wf_init 50) R).
Defined.

Lemma closest_pair_is_matched_witness :
  lawful cpython /\ wf lone_track /\ objects lone_track <> [] /\
  let cents := map Tracker.centroid_of [near_box; far_box] in
  let s' := snd (Tracker.update cpython [near_box; far_box] lone_track) in
  exists k oc c,
    Dict.get k (objects lone_track) = Some oc /\ In c cents /\
    (forall k' oc' c',
       Dict.get k' (objects lone_track) = Some oc' -> In c' cents ->
       (dist2 oc c <= dist2 oc' c')%Z) /\
    ((euclidean oc c <= 50)%R ->
     Dict.get k (objects s') = Some c /\
     Dict.get k (disappeared s') = Some 0%Z).
Proof.
  split; [exact cpython_lawful|]. split; [exact wf_lone_track|].
  split; [exact objects_lone_track|].
  exact (@closest_pair_is_matched cpython lone_track near_box [far_box]
           cpython_lawful wf_lone_track objects_lone_track).
Defined.

Lemma far_box_out_of_reach k oc c :
  Dict.get k (objects lone_track) = Some oc ->
  In c (map Tracker.centroid_of [far_box]) ->
  (euclidean oc c > 50)%R.
Proof.
  simpl. destruct (Nat.eqb k 0); [|discriminate].
  intros [= <-] [<-|[]]. apply euclidean_gt_50. vm_compute. reflexivity.
Qed.

Lemma detections_out_of_reach_start_new_tracks_witness :
  lawful cpython /\ wf lone_track /\ objects lone_track <> [] /\
  (forall k oc c,
     Dict.get k (objects lone_track) = Some oc ->
     In c (map Tracker.centroid_of [far_box]) ->
     (euclidean oc c > 50)%R) /\
  let s' := snd (Tracker.update cpython [far_box] lone_track) in
  next_object_id s' = next_object_id lone_track + length [far_box] /\
  (forall k oc d,
     Dict.get k (objects lone_track) = Some oc ->
     Dict.get k (disappeared lone_track) = Some d ->
     if (d + 1 >? max_disappeared lone_track)%Z
     then Dict.get k (objects s') = None
     else Dict.get k (objects s') = Some oc /\
          Dict.get k (disappeared s') = Some (d + 1)%Z).
Proof.
  split; [exact cpython_lawful|]. split; [exact wf_lone_track|].
  split; [exact objects_lone_track|]. split; [exact far_box_out_of_reach|].
  exact (@detections_out_of_reach_start_new_tracks cpython lone_track far_box
           [] cpython_lawful wf_lone_track objects_lone_track
           far_box_out_of_reach).
Defined.


Lemma rectangle_zone_is_half_open_witness :
  (0 < 10)%Z /\ (0 < 20)%Z /\
  VideoProcessor.point_in_polygon (10, 20)%Z
    [[0; 0]; [10; 0]; [10; 20]; [0; 20]]%Z =
  Val ((0 <? 10)%Z && (10 <=? 10)%Z && (0 <? 20)%Z && (20 <=? 20)%Z).
Proof.
  assert (Hx : (0 < 10)%Z) by lia. assert (Hy : (0 < 20)%Z) by lia.
  split; [exact Hx|]. split; [exact Hy|].
  exact (@rectangle_zone_is_half_open 0 0 10 20 10 20 Hx Hy).
Defined.

Lemma process_frame_reports_every_track_witness :
  lawful cpython /\ wf (VideoProcessor.tracker shop) /\
  Forall ZoneFacts.valid (VideoProcessor.zones shop) /\
  exists r p',
    VideoProcessor.process_frame cpython sees_five 0 shop = (Val r, p') /\
    VideoProcessor.zones p' = VideoProcessor.zones shop /\
    wf (VideoProcessor.tracker p') /\
    VideoProcessor.detections r = sees_five 0 /\
    VideoProcessor.person_count r =
    length (objects (VideoProcessor.tracker p')) /\
    Dict.keys (VideoProcessor.zone_analysis r) =
    Dict.keys (objects (VideoProcessor.tracker p')) /\
    (forall k c,
       Dict.get k (objects (VideoProcessor.tracker p')) = Some c ->
       exists z,
         VideoProcessor.detect_zone (VideoProcessor.zones shop) c = Val z /\
         Dict.get k (VideoProcessor.zone_analysis r) = Some (c, z)).
Proof.
  split; [exact cpython_lawful|]. split; [exact (wf_init 50)|].
  split; [exact shop_zones_valid|].
  exact (@process_frame_reports_every_track cpython nat sees_five 0 shop
           cpython_lawful (wf_init 50) shop_zones_valid).
Defined.

Lemma degenerate_zone_holds_no_point_witness :
  let poly := VideoProcessor.coordinates segment_zone in
  poly <> [] /\ length poly < 3 /\ GeometryFacts.well_formed poly /\
  validate_coordinates poly = false /\
  VideoProcessor.point_in_polygon (5, 5)%Z poly = Val false.
Proof.
  intros poly.
  assert (Hne : poly <> []) by discriminate.
  assert (Hlen : length poly < 3) by (simpl; lia).
  assert (W : GeometryFacts.well_formed poly)
    by (repeat (constructor; [reflexivity|]); constructor).
  split; [exact Hne|]. split; [exact Hlen|]. split; [exact W|].
  exact (@degenerate_zone_holds_no_point 5%Z 5%Z poly Hne Hlen W).
Defined.

(** A zone one of whose vertices has three coordinates. *)
Definition broken_zone : VideoProcessor.zone :=
  VideoProcessor.mkZone 3 "shelf"%string [[0; 0]; [10; 0; 0]; [10; 10]]%Z.

Lemma malformed_zone_fails_frame_after_tracking_witness :
  let p := VideoProcessor.mkProcessor (Tracker.init 50) [broken_zone] in
  lawful cpython /\ wf (VideoProcessor.tracker p) /\
  VideoProcessor.coordinates broken_zone <> [] /\
  PolygonFacts.all_pairs (VideoProcessor.coordinates broken_zone) = false /\
  sees_five 0 <> [] /\
  let t' := snd (Tracker.update cpython (sees_five 0) (Tracker.init 50)) in
  VideoProcessor.process_frame cpython sees_five 0 p =
  (Exc ValueError, VideoProcessor.mkProcessor t' [broken_zone]) /\
  length (sees_five 0) <= length (objects t').
Proof.
  intros p.
  assert (Hne : VideoProcessor.coordinates broken_zone <> [])
    by discriminate.
  assert (Hbad : PolygonFacts.all_pairs
                   (VideoProcessor.coordinates broken_zone) = false)
    by reflexivity.
  assert (Hdet : sees_five 0 <> []) by discriminate.
  split; [exact cpython_lawful|]. split; [exact (wf_init 50)|].
  split; [exact Hne|]. split; [exact Hbad|]. split; [exact Hdet|].
  exact (@malformed_zone_fails_frame_after_tracking cpython nat sees_five 0 p
           broken_zone [] cpython_lawful (wf_init 50) eq_refl Hne Hbad Hdet).
Defined.

Lemma process_video_result_count_witness :
  let frames := [0; 1; 2; 3; 4; 5; 6] in
  lawful cpython /\ wf (VideoProcessor.tracker shop) /\
  Forall ZoneFacts.valid (VideoProcessor.zones shop) /\
  exists results calls p',
    VideoProcessor.process_video cpython sees_five (Some frames) true shop =
    (Val (results, calls), p') /\
    length results = (length frames + 4) / 5 /\
    calls = filter (fun i => i mod 5 =? 0) (seq 0 (length frames)) /\
    VideoProcessor.zones p' = VideoProcessor.zones shop /\
    wf (VideoProcessor.tracker p').
Proof.
  intros frames.
  split; [exact cpython_lawful|]. split; [exact (wf_init 50)|].
  split; [exact shop_zones_valid|].
  exact (@process_video_result_count cpython nat sees_five frames true shop
           cpython_lawful (wf_init 50) shop_zones_valid).
Defined.

(** The visits of a day by hour, as a dict. *)
Definition busy_day : list (nat * Z) :=
  [(9, 4%Z); (10, 7%Z); (11, 7%Z); (12, 1%Z); (13, 5%Z)].

Lemma busy_day_keys : NoDup (map fst busy_day).
Proof. repeat (constructor; [simpl; lia|]). constructor. Qed.

Lemma peak_hours_dominate_witness :
  NoDup (map fst busy_day) /\
  let peaks := Helpers.calculate_peak_hours busy_day in
  length peaks = Nat.min 3 (length busy_day) /\
  NoDup peaks /\
  (forall h, In h peaks -> In h (map fst busy_day)) /\
  (forall h c h' c',
     In (h, c) busy_day -> In (h', c') busy_day ->
     In h peaks -> ~ In h' peaks -> (c' <= c)%Z).
Proof.
  split; [exact busy_day_keys|].
  exact (@peak_hours_dominate nat busy_day busy_day_keys).
Defined.

Lemma peak_hours_order_witness :
  NoDup (map fst busy_day) /\ 0 < 1 /\
  nth_error (Helpers.calculate_peak_hours busy_day) 0 = Some 10 /\
  nth_error (Helpers.calculate_peak_hours busy_day) 1 = Some 11 /\
  In (10, 7%Z) busy_day /\ In (11, 7%Z) busy_day /\
  (7 <= 7)%Z /\
  (7%Z = 7%Z ->
   exists a b,
     a < b /\ nth_error busy_day a = Some (10, 7%Z) /\
     nth_error busy_day b = Some (11, 7%Z)).
Proof.
  assert (Hij : 0 < 1) by lia.
  assert (Hi : nth_error (Helpers.calculate_peak_hours busy_day) 0 = Some 10)
    by reflexivity.
  assert (Hj : nth_error (Helpers.calculate_peak_hours busy_day) 1 = Some 11)
    by reflexivity.
  assert (Hci : In (10, 7%Z) busy_day) by (simpl; auto).
  assert (Hcj : In (11, 7%Z) busy_day) by (simpl; auto).
  split; [exact busy_day_keys|]. split; [exact Hij|]. split; [exact Hi|].
  split; [exact Hj|]. split; [exact Hci|]. split; [exact Hcj|].
  exact (@peak_hours_order nat busy_day 0 1 10 11 7%Z 7%Z busy_day_keys Hij
           Hi Hj Hci Hcj).
Defined.

Lemma hourly_distribution_counts_every_visit_witness :
  Forall (fun h => h < 24) [9; 9; 17] /\
  exists d,
    Crud.get_hourly_distribution [9; 9; 17] = Val d /\
    Dict.keys d = seq 0 24 /\
    (forall h, h < 24 ->
       Dict.get h d = Some (Z.of_nat (count_occ Nat.eq_dec [9; 9; 17] h))) /\
    fold_right Z.add 0%Z (Dict.values d) = Z.of_nat (length [9; 9; 17]).
Proof.
  assert (H : Forall (fun h => h < 24) [9; 9; 17])
    by (repeat (constructor; [lia|]); constructor).
  split; [exact H|].
  exact (@hourly_distribution_counts_every_visit [9; 9; 17] H).
Defined.
